(** * Movie recommender: ranking engine, facade and migration pass

    A shallow embedding of [app.py] (the [/api/recommend] handler),
    [models.py] (the tables the handler and the migration touch) and
    [migrate_data.py] (the three migration passes), followed by the
    properties of the ranking contract.

    Modelling conventions
    - a similarity score is a finite binary64 value; every finite float is
      a rational number and the comparisons of floats coincide with the
      comparisons of the rationals they denote, so scores are [Q] (NaN is
      outside the model: cosine similarity produces none);
    - the pickled [DataFrame] is built from a list of dicts and carries the
      default range index, so an index label is a position in the list;
    - a table is the list of its rows in insertion order, a primary key is
      allocated as one more than the number of rows (no row is ever
      deleted), and a query sees the rows added earlier in the same
      session (autoflush);
    - the movie pass runs in a session with pending, flushed and committed
      rows, so that a refused insert, the rollback that answers it and the
      batch commits are part of the model; what the storage engine itself
      decides about a value (the range of an INTEGER column, the length
      of a string) is a parameter, [fits]; after a rollback the key of a
      lost row is given again, where an engine that draws keys from a
      sequence would leave a gap; what is stated of a run with a refused
      insert does not depend on which keys are given;
    - a Python exception is a [Raise] in the [result] monad, and every
      [try]/[except] of the source is a [match] on it;
    - timestamps ([created_at]) are not modelled. *)

From Stdlib Require Import QArith Qround.
From stdpp Require Import gmap strings list fin_maps sorting.

Close Scope Q_scope.

(** ** Exceptions *)

Inductive exn : Set :=
| IndexError
| AttributeError
| DatabaseError.

Inductive result (A : Type) : Type :=
| Ok (a : A)
| Raise (e : exn).

Arguments Ok {A} a.
Arguments Raise {A} e.

#[global] Instance result_ret : MRet result := λ A a, Ok a.
#[global] Instance result_bind : MBind result := λ A B f m,
  match m with
  | Ok a => f a
  | Raise e => Raise e
  end.

(** [l[i]] on a Python list, a numpy array or [DataFrame.iloc]: an index
    past the end raises. *)
Definition getitem {A} (l : list A) (i : nat) : result A :=
  match l !! i with
  | Some a => Ok a
  | None => Raise IndexError
  end.

(** ** Scores *)

Abbreviation score := Q (only parsing).

(** The literal [0.01] of [migrate_similarity_matrix]: the exact value of
    the binary64 nearest to one hundredth, 5764607523034235 / 2^59. *)
Definition threshold : score := (5764607523034235 # 576460752303423488)%Q.

(** [round(x)] to the nearest integer, ties to even. *)
Definition round_half_even (x : Q) : Z :=
  let n := Qfloor x in
  match Qcompare (x - inject_Z n) (1 # 2) with
  | Lt => n
  | Gt => (n + 1)%Z
  | Eq => if Z.even n then n else (n + 1)%Z
  end.

(** [round(float(x), 4)]: the decimal with four places nearest to [x],
    ties to even.  The float Python returns is the binary64 nearest to
    that decimal; the decimal itself is what is displayed. *)
Definition round4 (x : score) : score :=
  (round_half_even (x * inject_Z 10000) # 10000)%Q.

(** ** Python list primitives *)

(** [enumerate(l)] *)
Definition enumerate {A} (l : list A) : list (nat * A) := imap pair l.

(** [enumerate(l, start)] *)
Definition enumerate_from {A} (start : nat) (l : list A) : list (nat * A) :=
  imap (λ i a, (start + i, a)) l.

(** [l[a:b]] for non-negative [a], [b]. *)
Definition slice {A} (a b : nat) (l : list A) : list A :=
  take (b - a) (drop a l).

(** [sorted] is a stable sort, and [reverse=True] keeps it stable:
    elements whose keys compare equal keep their original relative order.
    [insert_by before x l] puts [x], which stood in front of every element
    of [l] in the input, behind exactly the elements that must come
    strictly before it. *)
Fixpoint insert_by {A} (before : A → A → bool) (x : A) (l : list A) : list A :=
  match l with
  | [] => [x]
  | y :: l' => if before y x then y :: insert_by before x l' else x :: l
  end.

Definition stable_sort {A} (before : A → A → bool) (l : list A) : list A :=
  foldr (insert_by before) [] l.

(** [sorted(l, key=lambda x: x[1], reverse=True)]: [y] goes strictly
    before [x] when its score is strictly greater. *)
Definition score_gt (y x : nat * score) : bool := negb (Qle_bool y.2 x.2).

Definition sorted_by_score_desc (l : list (nat * score)) : list (nat * score) :=
  stable_sort score_gt l.

(** ** The pickled data ([movie_list.pkl], [similarity.pkl]) *)

(** A row of the [DataFrame]: columns [id], [title], [tags]. *)
Record CatalogRow : Type := {
  row_id : option Z;
  row_title : string;
  row_tags : string;
}.

Abbreviation DataFrame := (list CatalogRow) (only parsing).
Abbreviation Matrix := (list (list score)) (only parsing).

(** The module-level globals of [app.py], lines 27-28 and 68. *)
Record Pickle : Type := {
  data_loaded : bool;
  movie_data : option DataFrame;
  similarity_matrix : option Matrix;
}.

(** [load_data], lines 30-57, from the content of the two pickle files;
    [None] stands for a file that does not exist.  The result gathers the
    globals [movie_data], [similarity_matrix] and the flag [data_loaded]
    that line 68 sets from the returned boolean. *)
Definition load_data (movie_list : option DataFrame)
    (similarity : option Matrix) : Pickle :=
  match movie_list with
  | None =>
      {| data_loaded := false; movie_data := None;
         similarity_matrix := None |}
  | Some md =>
      match similarity with
      | None =>
          {| data_loaded := false; movie_data := Some md;
             similarity_matrix := None |}
      | Some sim =>
          {| data_loaded := true; movie_data := Some md;
             similarity_matrix := Some sim |}
      end
  end.

(** The globals when both files are there. *)
Definition loaded (md : DataFrame) (sim : Matrix) : Pickle :=
  load_data (Some md) (Some sim).

(** ** The tables of [models.py] *)

Record Movie : Type := {
  movie_id : nat;
  tmdb_id : option Z;
  movie_title : string;
  genre : string;
  overview : string;
  tags : string;
}.

Record Recommendation : Type := {
  rec_id : nat;
  source_movie_id : nat;
  recommended_movie_id : nat;
  similarity_score : score;
  rank : nat;
}.

Record SimilarityMatrix : Type := {
  sim_id : nat;
  movie1_id : nat;
  movie2_id : nat;
  sim_score : score;
  algorithm : string;
}.

Record RecommendationHistory : Type := {
  hist_id : nat;
  hist_source_movie_id : nat;
  session_id : option string;
  user_agent : option string;
  ip_address : option string;
}.

Record Database : Type := {
  movies : list Movie;
  recommendations : list Recommendation;
  similarity_pairs : list SimilarityMatrix;
  recommendation_history : list RecommendationHistory;
}.

Definition empty_db : Database :=
  {| movies := []; recommendations := [];
     similarity_pairs := []; recommendation_history := [] |}.

(** [Movie.query.filter_by(title=t).first()] *)
Definition movie_by_title (db : Database) (t : string) : option Movie :=
  snd <$> list_find (λ m, movie_title m = t) (movies db).

(** [rec.recommended_movie]: the relationship through the foreign key. *)
Definition movie_by_id (db : Database) (i : nat) : option Movie :=
  snd <$> list_find (λ m, movie_id m = i) (movies db).

(** [ORDER BY rank]: rows of equal rank keep the table order. *)
Definition rank_lt (y x : Recommendation) : bool := rank y <? rank x.

(** [Recommendation.query.filter_by(source_movie_id=s)
      .order_by(Recommendation.rank).limit(10).all()] *)
Definition recommendations_for (db : Database) (s : nat) : list Recommendation :=
  take 10 (stable_sort rank_lt
             (filter (λ r, source_movie_id r = s) (recommendations db))).

(** [Recommendation.query.filter_by(source_movie_id=s,
      recommended_movie_id=t).first()] *)
Definition existing_recommendation (db : Database) (s t : nat)
  : option Recommendation :=
  snd <$> list_find (λ r, source_movie_id r = s ∧ recommended_movie_id r = t)
            (recommendations db).

(** [SimilarityMatrix.query.filter_by(movie1_id=a, movie2_id=b).first()] *)
Definition existing_similarity (db : Database) (a b : nat)
  : option SimilarityMatrix :=
  snd <$> list_find (λ r, movie1_id r = a ∧ movie2_id r = b)
            (similarity_pairs db).

(** ** The [/api/recommend] handler of [app.py] *)

Inductive provenance : Set := FromDatabase | FromPickle.

Record Item : Type := {
  item_title : string;
  item_score : score;
}.

Inductive error : Set :=
| MovieTitleRequired        (* 400 *)
| PickleNotAvailable        (* 404 *)
| MovieNotFound             (* 404 *)
| FailedToGenerate.         (* 500 *)

Inductive Response : Type :=
| Recommended (selected_movie : string) (items : list Item) (source : provenance)
| Failure (e : error).

(** The in-memory path, lines 160-191: the body after the availability
    check, with the exceptions it can raise. *)
Definition recommend_from_pickle (md : DataFrame) (sim : Matrix)
    (selected_movie : string) : result Response :=
  match list_find (λ r, row_title r = selected_movie) md with
  | None => Ok (Failure MovieNotFound)
  | Some (movie_index, _) =>
      row ← getitem sim movie_index;
      let similarity_scores := sorted_by_score_desc (enumerate row) in
      let recommended_indices := fst <$> slice 1 11 similarity_scores in
      recommendations ← mapM (λ '(i, idx),
          r ← getitem md idx;
          s ← getitem similarity_scores (i + 1);
          Ok {| item_title := row_title r; item_score := round4 s.2 |})
        (enumerate recommended_indices);
      Ok (Recommended selected_movie recommendations FromPickle)
  end.

(** What the handler reads from the request and the session. *)
Record Request : Type := {
  json_movie : option string;
  req_session_id : option string;
  req_user_agent : option string;
  req_remote_addr : option string;
}.

Inductive log_entry : Set :=
| HistoryWriteFailed (e : exn)     (* app.logger.warning, line 146 *)
| GenerationFailed (e : exn).      (* app.logger.error, line 194 *)

(** [db.session.add(history); db.session.commit()].  Whether the storage
    engine accepts the write is decided by the environment: [accepted]. *)
Definition write_history (accepted : bool) (db : Database)
    (source : Movie) (req : Request) : result Database :=
  if accepted then
    Ok {| movies := movies db;
          recommendations := recommendations db;
          similarity_pairs := similarity_pairs db;
          recommendation_history := recommendation_history db ++
            [ {| hist_id := S (length (recommendation_history db));
                 hist_source_movie_id := movie_id source;
                 session_id := req_session_id req;
                 user_agent := req_user_agent req;
                 ip_address := req_remote_addr req |} ] |}
  else Raise DatabaseError.

(** Lines 128-133: the loop over the persisted rows.  A row whose
    [recommended_movie] is missing makes [.title] raise. *)
Definition persisted_items (db : Database) (recs : list Recommendation)
  : result (list Item) :=
  mapM (λ rec,
      match movie_by_id db (recommended_movie_id rec) with
      | Some m => Ok {| item_title := movie_title m;
                        item_score := round4 (similarity_score rec) |}
      | None => Raise AttributeError
      end) recs.

(** Lines 154-191: the fallback to the pickled data. *)
Definition pickle_fallback (env : Pickle) (selected_movie : string)
  : result Response :=
  if negb (data_loaded env) then Ok (Failure PickleNotAvailable)
  else match movie_data env, similarity_matrix env with
       | Some md, Some sim => recommend_from_pickle md sim selected_movie
       | _, _ => Ok (Failure PickleNotAvailable)
       end.

(** The body of the [try] block of [recommend_movies], lines 112-191. *)
Definition recommend_body (env : Pickle) (req : Request) (accepted : bool)
    (db : Database) : result (Response * Database * list log_entry) :=
  match json_movie req with
  | None => Ok (Failure MovieTitleRequired, db, [])
  | Some selected_movie =>
      let fallback := r ← pickle_fallback env selected_movie; Ok (r, db, []) in
      match movie_by_title db selected_movie with
      | None => fallback
      | Some source_movie =>
          match recommendations_for db (movie_id source_movie) with
          | [] => fallback
          | db_recommendations =>
              recommendations ← persisted_items db db_recommendations;
              let '(db', log) :=
                match write_history accepted db source_movie req with
                | Ok db' => (db', [])
                | Raise e => (db, [HistoryWriteFailed e])
                end in
              Ok (Recommended selected_movie recommendations FromDatabase,
                  db', log)
          end
      end
  end.

(** [recommend_movies]: the response, the database after the request and
    what was logged. *)
Definition recommend_movies (env : Pickle) (req : Request) (accepted : bool)
    (db : Database) : Response * Database * list log_entry :=
  match recommend_body env req accepted db with
  | Ok r => r
  | Raise e => (Failure FailedToGenerate, db, [GenerationFailed e])
  end.

(** ** The migration passes of [migrate_data.py]

    The movie pass is modelled with its session: the [movies] table has a
    uniqueness constraint that an insert can violate, and the pass has
    [except] branches of its own for a refused insert.  The two
    similarity passes insert only rows that their own existence query has
    found absent, with movie keys read from the table, so no constraint
    of [models.py] refuses them: their inserts are taken to succeed, and
    the counters that only drive their batch commits are left out. *)

(** [Movie(...)] of lines 53-60; [row.get('genre', '')] and
    [row.get('overview', '')] find no such column. *)
Definition movie_of_row (id : nat) (row : CatalogRow) : Movie :=
  {| movie_id := id;
     tmdb_id := row_id row;
     movie_title := row_title row;
     genre := "";
     overview := "";
     tags := row_tags row |}.

(** *** The session of the movie pass *)

(** [db.session]: the database as committed, the movies that the open
    transaction has inserted, and the objects that [db.session.add] has
    queued and that no flush has inserted yet. *)
Record Session : Type := {
  committed : Database;
  flushed : list Movie;
  pending : list CatalogRow;
}.

(** The [movies] table as the open transaction sees it. *)
Definition visible (s : Session) : list Movie :=
  movies (committed s) ++ flushed s.

(** The database as a query of the session sees it, and as a commit
    leaves it. *)
Definition view (s : Session) : Database :=
  {| movies := visible s;
     recommendations := recommendations (committed s);
     similarity_pairs := similarity_pairs (committed s);
     recommendation_history := recommendation_history (committed s) |}.

(** [unique=True] on [tmdb_id], line 20 of [models.py]: a value that a
    row of the table carries already is refused; [NULL] never
    collides. *)
Definition unique_tmdb_id (rows : list Movie) (row : CatalogRow) : bool :=
  match row_id row with
  | None => true
  | Some z => bool_decide (Some z ∉ tmdb_id <$> rows)
  end.

(** The INSERT of one queued movie.  [fits] is the verdict of the storage
    engine on the values of the row (the range of its INTEGER column,
    the length of its strings); a row that does not fit, or that breaks
    the uniqueness constraint, makes the statement raise. *)
Definition insert (fits : CatalogRow → bool) (s : Session) (row : CatalogRow)
  : result Session :=
  if fits row && unique_tmdb_id (visible s) row
  then Ok {| committed := committed s;
             flushed :=
               flushed s ++ [movie_of_row (S (length (visible s))) row];
             pending := pending s |}
  else Raise DatabaseError.

(** The queued objects are inserted in the order they were added. *)
Fixpoint insert_all (fits : CatalogRow → bool) (s : Session)
    (rows : list CatalogRow) : result Session :=
  match rows with
  | [] => Ok s
  | row :: rows => s ← insert fits s row; insert_all fits s rows
  end.

(** [session.flush()], which every query runs first (autoflush) and
    every commit too. *)
Definition flush (fits : CatalogRow → bool) (s : Session) : result Session :=
  s' ← insert_all fits s (pending s);
  Ok {| committed := committed s'; flushed := flushed s'; pending := [] |}.

(** [db.session.commit()] *)
Definition commit (fits : CatalogRow → bool) (s : Session) : result Session :=
  s' ← flush fits s;
  Ok {| committed := view s'; flushed := []; pending := [] |}.

(** [db.session.rollback()]: what the open transaction inserted is
    undone and the queued objects are dropped. *)
Definition rollback (s : Session) : Session :=
  {| committed := committed s; flushed := []; pending := [] |}.

(** [db.session.add(movie)] *)
Definition add_movie (s : Session) (row : CatalogRow) : Session :=
  {| committed := committed s;
     flushed := flushed s;
     pending := pending s ++ [row] |}.

(** *** [migrate_movies] *)

(** The session and the two counters of the loop. *)
Record MovieLoop : Type := {
  session : Session;
  migrated_count : nat;
  skipped_count : nat;
}.

(** One iteration of the loop of [migrate_movies], lines 44-73.  The
    query of line 47 flushes first; when that flush, or the batch commit
    of line 66, raises, the [except] clause rolls the session back and
    goes on with the next row.  The counters are local variables and
    keep what they counted. *)
Definition migrate_movie_step (fits : CatalogRow → bool) (st : MovieLoop)
    (row : CatalogRow) : MovieLoop :=
  match flush fits (session st) with
  | Raise _ =>
      {| session := rollback (session st);
         migrated_count := migrated_count st;
         skipped_count := skipped_count st |}
  | Ok s =>
      match movie_by_title (view s) (row_title row) with
      | Some _ =>
          {| session := s;
             migrated_count := migrated_count st;
             skipped_count := S (skipped_count st) |}
      | None =>
          let s := add_movie s row in
          let migrated_count := S (migrated_count st) in
          {| session :=
               if bool_decide (migrated_count `mod` 50 = 0) then
                 match commit fits s with
                 | Ok s' => s'
                 | Raise _ => rollback s
                 end
               else s;
             migrated_count := migrated_count;
             skipped_count := skipped_count st |}
      end
  end.

(** What a run of [migrate_movies] returns, the database it leaves and
    the counters it has reached. *)
Record MovieMigration : Type := {
  mm_ok : bool;
  mm_db : Database;
  mm_migrated : nat;
  mm_skipped : nat;
}.

(** [migrate_movies], lines 37-83, in a fresh session on the database
    [db]: the loop, then the final commit, whose failure is answered by a
    rollback and [return False]. *)
Definition migrate_movies (fits : CatalogRow → bool) (md : DataFrame)
    (db : Database) : MovieMigration :=
  let st := foldl (migrate_movie_step fits)
              {| session := {| committed := db; flushed := []; pending := [] |};
                 migrated_count := 0;
                 skipped_count := 0 |} md in
  match commit fits (session st) with
  | Ok s =>
      {| mm_ok := true; mm_db := committed s;
         mm_migrated := migrated_count st; mm_skipped := skipped_count st |}
  | Raise _ =>
      {| mm_ok := false; mm_db := committed (rollback (session st));
         mm_migrated := migrated_count st; mm_skipped := skipped_count st |}
  end.

(** *** The two similarity passes *)

(** [{movie.title: movie.id for movie in movies}]: a later movie of the
    same title overwrites an earlier one. *)
Definition movie_id_map (db : Database) : gmap string nat :=
  foldl (λ m mv, <[movie_title mv := movie_id mv]> m) ∅ (movies db).

(** [movie_id_map.get(t)] under [if not ...: continue]: [None] and [0]
    are both falsy. *)
Definition get_id (m : gmap string nat) (t : string) : option nat :=
  match m !! t with
  | Some (S n) => Some (S n)
  | _ => None
  end.

Definition add_recommendation (db : Database) (s t : nat) (x : score)
    (k : nat) : Database :=
  {| movies := movies db;
     recommendations := recommendations db ++
       [ {| rec_id := S (length (recommendations db));
            source_movie_id := s;
            recommended_movie_id := t;
            similarity_score := x;
            rank := k |} ];
     similarity_pairs := similarity_pairs db;
     recommendation_history := recommendation_history db |}.

(** One iteration of the inner loop of [migrate_similarity_data],
    lines 107-138; an exception skips the entry. *)
Definition recommendation_step (md : DataFrame) (id_map : gmap string nat)
    (source : nat) (db : Database) (entry : nat * (nat * score)) : Database :=
  let '(rank, (target_index, x)) := entry in
  match getitem md target_index with
  | Raise _ => db
  | Ok target_row =>
      match get_id id_map (row_title target_row) with
      | None => db
      | Some target_movie_id =>
          match existing_recommendation db source target_movie_id with
          | Some _ => db
          | None => add_recommendation db source target_movie_id x rank
          end
      end
  end.

(** One iteration of the outer loop, lines 94-147. *)
Definition source_step (md : DataFrame) (sim : Matrix)
    (id_map : gmap string nat) (db : Database) (entry : nat * CatalogRow)
  : Database :=
  let '(i, row) := entry in
  match get_id id_map (row_title row) with
  | None => db
  | Some source =>
      match getitem sim i with
      | Raise _ => db
      | Ok sim_row =>
          let similarity_scores := sorted_by_score_desc (enumerate sim_row) in
          foldl (recommendation_step md id_map source) db
            (enumerate_from 1 (slice 1 11 similarity_scores))
      end
  end.

Definition migrate_similarity_data (md : DataFrame) (sim : Matrix)
    (db : Database) : Database :=
  foldl (source_step md sim (movie_id_map db)) db (enumerate md).

Definition add_similarity (db : Database) (a b : nat) (x : score) : Database :=
  {| movies := movies db;
     recommendations := recommendations db;
     similarity_pairs := similarity_pairs db ++
       [ {| sim_id := S (length (similarity_pairs db));
            movie1_id := a;
            movie2_id := b;
            sim_score := x;
            algorithm := "cosine_similarity" |} ];
     recommendation_history := recommendation_history db |}.

(** [similarity_score > 0.01] *)
Definition above_threshold (x : score) : bool := negb (Qle_bool x threshold).

(** One iteration of the inner loop of [migrate_similarity_matrix],
    lines 169-211. *)
Definition pair_step (sim : Matrix) (id_map : gmap string nat)
    (i : nat) (row1 : CatalogRow) (db : Database) (entry : nat * CatalogRow)
  : Database :=
  let '(j, row2) := entry in
  if bool_decide (j ≤ i) then db
  else
    match get_id id_map (row_title row1), get_id id_map (row_title row2) with
    | Some m1, Some m2 =>
        match existing_similarity db m1 m2 with
        | Some _ => db
        | None =>
            match r ← getitem sim i; getitem r j with
            | Raise _ => db
            | Ok x => if above_threshold x then add_similarity db m1 m2 x else db
            end
        end
    | _, _ => db
    end.

Definition migrate_similarity_matrix (md : DataFrame) (sim : Matrix)
    (db : Database) : Database :=
  let id_map := movie_id_map db in
  foldl (λ db '(i, row1), foldl (pair_step sim id_map i row1) db (enumerate md))
    db (enumerate md).

(** [main], lines 223-266, after the pickles are loaded: the flag it
    returns and the database it leaves.  A failed movie pass ends the
    run (lines 243-245). *)
Definition main (fits : CatalogRow → bool) (md : DataFrame) (sim : Matrix)
    (db : Database) : bool * Database :=
  let movies_pass := migrate_movies fits md db in
  if mm_ok movies_pass then
    (true,
     migrate_similarity_matrix md sim
       (migrate_similarity_data md sim (mm_db movies_pass)))
  else (false, mm_db movies_pass).

(** ** Sample data *)

Definition toy_catalog : DataFrame :=
  [ {| row_id := Some 1%Z; row_title := "entry0"; row_tags := "a" |};
    {| row_id := Some 2%Z; row_title := "entry1"; row_tags := "b" |};
    {| row_id := Some 3%Z; row_title := "entry2"; row_tags := "c" |} ].

Definition toy_matrix : Matrix :=
  [ [1; 8 # 10; 2 # 10]; [8 # 10; 1; 5 # 10]; [2 # 10; 5 # 10; 1] ]%Q.

Definition toy_pickle : Pickle := loaded toy_catalog toy_matrix.

(** What the toy catalog answers for "entry0". *)
Definition toy_items : list Item :=
  [ {| item_title := "entry1"; item_score := (8000 # 10000)%Q |};
    {| item_title := "entry2"; item_score := (2000 # 10000)%Q |} ].


(** Three movies of which the last two are equally similar to the
    first. *)
Definition tie_matrix : Matrix :=
  [ [1; 1 # 2; 1 # 2]; [1 # 2; 1; 1 # 4]; [1 # 2; 1 # 4; 1] ]%Q.

(** Twelve movies "A" to "L" on a line; similarity decays with the
    distance between two movies. *)
Definition line_catalog : DataFrame :=
  (λ i, {| row_id := Some (Z.of_nat (100 + i));
           row_title := String (Ascii.ascii_of_nat (65 + i)) EmptyString;
           row_tags := "" |}) <$> seq 0 12.

Definition line_matrix : Matrix :=
  (λ i, (λ j, (1 # Pos.of_nat (1 + (i `max` j - i `min` j)))%Q) <$> seq 0 12)
    <$> seq 0 12.

(** Two movies with the same tags: their cosine similarity is 1, the
    same as each one's similarity to itself. *)
Definition twin_catalog : DataFrame :=
  [ {| row_id := Some 1%Z; row_title := "A"; row_tags := "drama crime" |};
    {| row_id := Some 2%Z; row_title := "B"; row_tags := "drama crime" |};
    {| row_id := Some 3%Z; row_title := "C"; row_tags := "drama war" |} ].

Definition twin_matrix : Matrix :=
  [ [1; 1; 1 # 2]; [1; 1; 1 # 2]; [1 # 2; 1 # 2; 1] ]%Q.

Definition ask (t : string) : Request :=
  {| json_movie := Some t; req_session_id := None;
     req_user_agent := None; req_remote_addr := None |}.

(** An engine whose INTEGER column holds 32 bits. *)
Definition int32 (row : CatalogRow) : bool :=
  match row_id row with
  | Some z => bool_decide (-2147483648 ≤ z ≤ 2147483647)%Z
  | None => true
  end.

(** Four movies of which three carry the same [id]. *)
Definition clash_catalog : DataFrame :=
  [ {| row_id := Some 1%Z; row_title := "A"; row_tags := "" |};
    {| row_id := Some 1%Z; row_title := "B"; row_tags := "" |};
    {| row_id := Some 5%Z; row_title := "C"; row_tags := "" |};
    {| row_id := Some 1%Z; row_title := "D"; row_tags := "" |} ].

(** Five movies of which the first two carry the same [id], with a
    matrix of pairwise distinct scores. *)
Definition shared_key_catalog : DataFrame :=
  [ {| row_id := Some 1%Z; row_title := "X"; row_tags := "" |};
    {| row_id := Some 1%Z; row_title := "Y"; row_tags := "" |};
    {| row_id := Some 2%Z; row_title := "Z"; row_tags := "" |};
    {| row_id := Some 3%Z; row_title := "W"; row_tags := "" |};
    {| row_id := Some 4%Z; row_title := "V"; row_tags := "" |} ].

Definition shared_key_matrix : Matrix :=
  [ [1; 9 # 10; 8 # 10; 7 # 10; 6 # 10];
    [9 # 10; 1; 5 # 10; 4 # 10; 3 # 10];
    [8 # 10; 5 # 10; 1; 2 # 10; 1 # 10];
    [7 # 10; 4 # 10; 2 # 10; 1; 15 # 100];
    [6 # 10; 3 # 10; 1 # 10; 15 # 100; 1] ]%Q.

(** One movie whose [id] does not fit 32 bits. *)
Definition wide_key_catalog : DataFrame :=
  [ {| row_id := Some 4294967296%Z; row_title := "A"; row_tags := "" |} ].

(** ** Vocabulary of the properties *)

(** The order of the ranking: strictly greater score first, and among
    equal scores the smaller matrix index first. *)
Definition ranked_before (a b : nat * score) : Prop :=
  (b.2 < a.2)%Q ∨ ((a.2 == b.2)%Q ∧ a.1 < b.1).

(** The neighbours the ranking keeps: positions 1 to 10 of the sorted
    row, the expression shared by [recommend_movies] (line 175) and
    [migrate_similarity_data] (line 107). *)
Definition ranked_neighbours (row : list score) : list (nat * score) :=
  slice 1 11 (sorted_by_score_desc (enumerate row)).

(** [row] is the row of the similarity matrix for the movie titled [t]. *)
Definition source_row (md : DataFrame) (sim : Matrix) (t : string)
    (row : list score) : Prop :=
  ∃ i r0, list_find (λ r, row_title r = t) md = Some (i, r0) ∧
          sim !! i = Some row.

(** [it] names the movie at matrix index [p.1] and reports the rounded
    [p.2]. *)
Definition item_for (md : DataFrame) (p : nat * score) (it : Item) : Prop :=
  ∃ r, md !! p.1 = Some r ∧
       it = {| item_title := row_title r; item_score := round4 p.2 |}.

(** The response [recommend_movies] gives and the database it leaves. *)
Definition response (r : Response * Database * list log_entry) : Response :=
  r.1.1.
Definition database_after (r : Response * Database * list log_entry)
  : Database := r.1.2.

(** The titles the [movies] table holds. *)
Definition titles (db : Database) : list string := movie_title <$> movies db.

(** The database after [migrate_movies] ran on an empty database. *)
Definition ingested (fits : CatalogRow → bool) (md : DataFrame) : Database :=
  mm_db (migrate_movies fits md empty_db).

(** The rows of the catalog whose title the table does not hold: the
    only ones that [migrate_movies] tries to insert. *)
Definition new_rows (db : Database) (md : DataFrame) : DataFrame :=
  filter (λ row, row_title row ∉ titles db) md.

(** The storage accepts what the catalog brings: its new rows fit the
    columns of the engine, no two of them carry the same [id], and no
    movie of the table carries the [id] of one of them. *)
Definition insertable (fits : CatalogRow → bool) (db : Database)
    (md : DataFrame) : Prop :=
  Forall (λ row, fits row = true) (new_rows db md) ∧
  NoDup (omap row_id (new_rows db md)) ∧
  Forall (λ m, ∀ z, tmdb_id m = Some z → z ∉ omap row_id (new_rows db md))
    (movies db).

(** The movies that a flush makes of the queued rows, from the key
    [S base] on. *)
Definition as_movies (base : nat) (rows : list CatalogRow) : list Movie :=
  imap (λ k, movie_of_row (S (base + k))) rows.

(** *** The movie pass when no insert is refused

    Not a model of the code: the table and the counters that the pass
    reaches when the engine accepts every row.  A row whose title the
    table holds is skipped, any other row is stored under the next key.
    Lemma [migrate_movies_accepted] shows that [migrate_movies] computes
    this on an [insertable] catalog. *)
Record Accepted : Type := {
  acc_db : Database;
  acc_migrated : nat;
  acc_skipped : nat;
}.

Definition store_movie (db : Database) (row : CatalogRow) : Database :=
  {| movies := movies db ++ [movie_of_row (S (length (movies db))) row];
     recommendations := recommendations db;
     similarity_pairs := similarity_pairs db;
     recommendation_history := recommendation_history db |}.

Definition accept_step (st : Accepted) (row : CatalogRow) : Accepted :=
  match movie_by_title (acc_db st) (row_title row) with
  | Some _ =>
      {| acc_db := acc_db st;
         acc_migrated := acc_migrated st;
         acc_skipped := S (acc_skipped st) |}
  | None =>
      {| acc_db := store_movie (acc_db st) row;
         acc_migrated := S (acc_migrated st);
         acc_skipped := acc_skipped st |}
  end.

Definition accepted (md : DataFrame) (db : Database) : Accepted :=
  foldl accept_step {| acc_db := db; acc_migrated := 0; acc_skipped := 0 |} md.

(** The rows still to come, [rest], and the queued ones can all be
    inserted into the table that the session sees. *)
Definition acceptable (fits : CatalogRow → bool) (s : Session)
    (rest : DataFrame) : Prop :=
  Forall (λ row, fits row = true) (pending s ++ rest) ∧
  NoDup (omap row_id (pending s ++ rest)) ∧
  Forall (λ m, ∀ z, tmdb_id m = Some z → z ∉ omap row_id (pending s ++ rest))
    (visible s).

(** The loop of [migrate_movies] and the pass without refusals are at
    the same point: the table that the session sees, with the queued
    rows inserted, is the table of the latter. *)
Definition tracks (st : MovieLoop) (ist : Accepted) : Prop :=
  acc_db ist =
    {| movies := visible (session st) ++
                 as_movies (length (visible (session st)))
                   (pending (session st));
       recommendations := recommendations (committed (session st));
       similarity_pairs := similarity_pairs (committed (session st));
       recommendation_history :=
         recommendation_history (committed (session st)) |} ∧
  acc_migrated ist = migrated_count st ∧
  acc_skipped ist = skipped_count st.

(** [m] was made of a row of the catalog. *)
Definition from_catalog (md : DataFrame) (m : Movie) : Prop :=
  ∃ row, row ∈ md ∧ m = movie_of_row (movie_id m) row.

(** What holds of the session of [migrate_movies], started on [db], at
    every point of the loop and whatever the engine refuses: the
    committed table is the one of [db] with movies of the catalog
    appended, the other tables are untouched, every inserted or queued
    movie is among the [counted] ones, and titles stay distinct. *)
Definition session_inv (md : DataFrame) (db : Database) (s : Session)
    (counted : nat) : Prop :=
  (∃ new,
     movies (committed s) = movies db ++ new ∧
     Forall (from_catalog md) (new ++ flushed s) ∧
     length new + length (flushed s) + length (pending s) ≤ counted) ∧
  recommendations (committed s) = recommendations db ∧
  similarity_pairs (committed s) = similarity_pairs db ∧
  recommendation_history (committed s) = recommendation_history db ∧
  Forall (λ row, row ∈ md) (pending s) ∧
  (NoDup (titles db) →
   NoDup ((movie_title <$> visible s) ++ (row_title <$> pending s))).

(** The row the migration writes for the [j]-th neighbour [p] of source
    [s], when movie ids follow the catalog order: [base] is the first
    free primary key and [start] the first rank. *)
Definition rec_of (base s start j : nat) (p : nat * score) : Recommendation :=
  {| rec_id := base + j;
     source_movie_id := s;
     recommended_movie_id := S p.1;
     similarity_score := p.2;
     rank := start + j |}.

(** The rows of the [recommendations] table that belong to source [s]. *)
Definition rows_of (db : Database) (s : nat) : list Recommendation :=
  filter (λ r, source_movie_id r = s) (recommendations db).

(** The rows the migration writes for the source at matrix index [i]. *)
Definition persisted_block (sim : Matrix) (base i : nat)
  : list Recommendation :=
  match sim !! i with
  | Some row => imap (rec_of base (S i) 1) (ranked_neighbours row)
  | None => []
  end.

(** The state of the database after the outer loop of
    [migrate_similarity_data] has handled the first [n] catalog rows. *)
Definition similarity_data_inv (fits : CatalogRow → bool) (md : DataFrame)
    (sim : Matrix) (n : nat) (db : Database) : Prop :=
  movies db = movies (ingested fits md) ∧
  similarity_pairs db = [] ∧
  recommendation_history db = [] ∧
  (∀ i, i < n → ∃ base, rows_of db (S i) = persisted_block sim base i) ∧
  (∀ r, r ∈ recommendations db → ∃ i, i < n ∧ source_movie_id r = S i).

(** [similarity_matrix[i][j]], when both indices are in range. *)
Definition sim_at (sim : Matrix) (i j : nat) : option score :=
  row ← sim !! i; row !! j.

(** The [similarity_matrix] table holds the pair [(a, b)] with score [x]. *)
Definition stored (db : Database) (a b : nat) (x : score) : Prop :=
  ∃ r, r ∈ similarity_pairs db ∧
       movie1_id r = a ∧ movie2_id r = b ∧ sim_score r = x.


(** [db] carries the catalog tables that [main] wrote from [md] and
    [sim] on an empty database; the requests served since then may have
    appended analytics rows. *)
Definition migrated (fits : CatalogRow → bool) (md : DataFrame) (sim : Matrix)
    (db : Database) : Prop :=
  movies db = movies (main fits md sim empty_db).2 ∧
  recommendations db = recommendations (main fits md sim empty_db).2.

(** ** Vocabulary of the further properties *)

(** [db'] is [db] with rows appended to the two migration tables: the
    movies and the analytics history are the same, every appended
    recommendation satisfies [Qr] and every appended similarity pair
    satisfies [Qp]. *)
Definition grows (Qr : Recommendation → Prop) (Qp : SimilarityMatrix → Prop)
    (db db' : Database) : Prop :=
  movies db' = movies db ∧
  recommendation_history db' = recommendation_history db ∧
  (∃ new, recommendations db' = recommendations db ++ new ∧ Forall Qr new) ∧
  (∃ new, similarity_pairs db' = similarity_pairs db ++ new ∧ Forall Qp new).

(** A row of the [recommendations] table that [migrate_similarity_data]
    can write from the catalog [md] and the matrix [sim] with the
    identifier map [id_map]: it joins the identifiers of two catalog
    titles, stores the matrix entry of that pair of positions, and ranks
    it between 1 and 10. *)
Definition from_matrix (md : DataFrame) (sim : Matrix)
    (id_map : gmap string nat) (r : Recommendation) : Prop :=
  1 ≤ rank r ≤ 10 ∧
  ∃ i row idx target_row,
    md !! i = Some row ∧
    get_id id_map (row_title row) = Some (source_movie_id r) ∧
    md !! idx = Some target_row ∧
    get_id id_map (row_title target_row) = Some (recommended_movie_id r) ∧
    sim_at sim i idx = Some (similarity_score r).

(** A row of the [similarity_matrix] table that
    [migrate_similarity_matrix] can write. *)
Definition pair_from_matrix (md : DataFrame) (sim : Matrix)
    (id_map : gmap string nat) (r : SimilarityMatrix) : Prop :=
  (threshold < sim_score r)%Q ∧
  algorithm r = "cosine_similarity" ∧
  ∃ i j row1 row2,
    i < j ∧
    md !! i = Some row1 ∧ get_id id_map (row_title row1) = Some (movie1_id r) ∧
    md !! j = Some row2 ∧ get_id id_map (row_title row2) = Some (movie2_id r) ∧
    sim_at sim i j = Some (sim_score r).

(** The columns of the constraint [unique_recommendation] of
    [models.py]. *)
Definition rec_key (r : Recommendation) : nat * nat :=
  (source_movie_id r, recommended_movie_id r).

(** The columns of the constraint [unique_movie_pair] of [models.py]. *)
Definition pair_key (r : SimilarityMatrix) : nat * nat :=
  (movie1_id r, movie2_id r).

(** No iteration of [migrate_similarity_data] over [md] and [sim] would
    add a row to [db]. *)
Definition data_settled (md : DataFrame) (sim : Matrix)
    (id_map : gmap string nat) (db : Database) : Prop :=
  ∀ i row s sim_row e,
    (i, row) ∈ enumerate md →
    get_id id_map (row_title row) = Some s →
    sim !! i = Some sim_row →
    e ∈ enumerate_from 1
          (slice 1 11 (sorted_by_score_desc (enumerate sim_row))) →
    recommendation_step md id_map s db e = db.

(** No iteration of [migrate_similarity_matrix] over [md] and [sim] would
    add a row to [db]. *)
Definition pairs_settled (md : DataFrame) (sim : Matrix)
    (id_map : gmap string nat) (db : Database) : Prop :=
  ∀ i row1 e,
    (i, row1) ∈ enumerate md → e ∈ enumerate md →
    pair_step sim id_map i row1 db e = db.

(** ** The [/api/movies] handler of [app.py]

    The queries of the read-only handlers are taken to succeed; the
    [except] branches that only a storage failure reaches are left
    out. *)

(** [sorted] on a list of [str]: [y] goes strictly before [x] when it is
    smaller in code-point order, which on UTF-8 strings is the order of
    their bytes. *)
Definition sorted_titles (l : list string) : list string :=
  stable_sort String.ltb l.

(** [Movie.query.order_by(Movie.title).all()].  Which title goes strictly
    before which is the storage engine's matter: [collate].  Rows whose
    titles it does not separate are kept in table order here. *)
Definition order_by_title (collate : string → string → bool)
    (l : list Movie) : list Movie :=
  stable_sort (λ y x, collate (movie_title y) (movie_title x)) l.

Inductive MoviesResponse : Type :=
| MovieList (movie_list : list string) (count : nat) (source : provenance)
| MovieDataNotAvailable.                                         (* 500 *)

(** [get_movies], lines 75-106. *)
Definition get_movies (collate : string → string → bool) (env : Pickle)
    (db : Database) : MoviesResponse :=
  match order_by_title collate (movies db) with
  | [] =>
      if negb (data_loaded env) then MovieDataNotAvailable
      else match movie_data env with
           | None => MovieDataNotAvailable
           | Some md =>
               let movie_titles := sorted_titles (row_title <$> md) in
               MovieList movie_titles (length movie_titles) FromPickle
           end
  | ms =>
      let movie_list := movie_title <$> ms in
      MovieList movie_list (length movie_list) FromDatabase
  end.

(** ** The [/api/health] handler *)

Record Health : Type := {
  health_status : string;
  database_status : string;
  movie_data_loaded : bool;
  similarity_matrix_loaded : bool;
  movies_in_database : nat;
  recommendations_in_database : nat;
  pickle_movies_count : option nat;
  similarity_matrix_shape : option (nat * nat);
}.

(** [similarity_matrix.shape] of a two-dimensional array. *)
Definition shape (sim : Matrix) : nat * nat :=
  (length sim, from_option length 0 (head sim)).

(** [health_check], lines 198-233. *)
Definition health_check (env : Pickle) (db : Database) : Health :=
  {| health_status := "healthy";
     database_status := "healthy";
     movie_data_loaded := bool_decide (is_Some (movie_data env));
     similarity_matrix_loaded := bool_decide (is_Some (similarity_matrix env));
     movies_in_database := length (movies db);
     recommendations_in_database := length (recommendations db);
     pickle_movies_count := length <$> movie_data env;
     similarity_matrix_shape := shape <$> similarity_matrix env |}.

(** ** The [/api/movies/<int:movie_id>] handler *)

(** [Movie.to_dict], lines 40-50 of [models.py].  The columns
    [release_date], [poster_url], [imdb_rating] and [popularity] are set
    by no code of the repository and hold [NULL]. *)
Record MovieDict : Type := {
  dict_id : nat;
  dict_tmdb_id : option Z;
  dict_title : string;
  dict_genre : string;
  dict_overview : string;
  dict_release_date : option string;
  dict_poster_url : option string;
  dict_imdb_rating : option score;
  dict_popularity : option score;
}.

Definition to_dict (m : Movie) : MovieDict :=
  {| dict_id := movie_id m;
     dict_tmdb_id := tmdb_id m;
     dict_title := movie_title m;
     dict_genre := genre m;
     dict_overview := overview m;
     dict_release_date := None;
     dict_poster_url := None;
     dict_imdb_rating := None;
     dict_popularity := None |}.

(** [werkzeug.exceptions.NotFound], which [abort(404)] raises; it is a
    subclass of [Exception]. *)
Inductive HTTPException : Set := NotFound.

(** [Movie.query.get_or_404(movie_id)] *)
Definition get_or_404 (db : Database) (id : nat) : Movie + HTTPException :=
  match movie_by_id db id with
  | Some m => inl m
  | None => inr NotFound
  end.

Inductive DetailsResponse : Type :=
| Details (d : MovieDict)                                        (* 200 *)
| FailedToRetrieveDetails.                                       (* 500 *)

(** [get_movie_details], lines 236-243: the [except Exception] clause
    catches what [get_or_404] raises. *)
Definition get_movie_details (db : Database) (id : nat) : DetailsResponse :=
  match get_or_404 db id with
  | inl movie => Details (to_dict movie)
  | inr _ => FailedToRetrieveDetails
  end.

(** ** The [/api/stats] handler *)

(** [count(Recommendation.id)] of the group of movie [m] in the join on
    [Movie.id == Recommendation.recommended_movie_id]. *)
Definition recommendation_count (db : Database) (m : Movie) : nat :=
  length (filter (λ r, recommended_movie_id r = movie_id m)
            (recommendations db)).

(** The query of lines 258-267: one group per movie row ([Movie.id] is the
    primary key), only for movies that the join matches with at least one
    recommendation, greatest count first, five at most.  Groups of equal
    count are kept in table order here; the engine may order them
    otherwise. *)
Definition popular_movies (db : Database) : list (string * nat) :=
  take 5
    (stable_sort (λ y x : string * nat, x.2 <? y.2)
       (filter (λ p : string * nat, 0 < p.2)
          ((λ m, (movie_title m, recommendation_count db m)) <$> movies db))).

Record Stats : Type := {
  total_movies : nat;
  total_recommendations : nat;
  total_users : nat;
  total_ratings : nat;
  recommendation_requests : nat;
  most_recommended_movies : list (string * nat);
}.

(** [get_stats], lines 246-278.  The tables [users] and [user_ratings]
    are written by no code of the repository and are only counted here:
    [users] and [ratings] are their sizes. *)
Definition get_stats (users ratings : nat) (db : Database) : Stats :=
  {| total_movies := length (movies db);
     total_recommendations := length (recommendations db);
     total_users := users;
     total_ratings := ratings;
     recommendation_requests := length (recommendation_history db);
     most_recommended_movies := popular_movies db |}.

(** ** The foreign keys of [models.py] *)

(** [i] is the primary key of a row of the [movies] table. *)
Definition known_movie (db : Database) (i : nat) : Prop :=
  i ∈ movie_id <$> movies db.

(** Every [db.ForeignKey('movies.id')] column that the repository writes
    holds the key of a movie: the two columns of [recommendations], the
    two of [similarity_matrix], and [source_movie_id] of
    [recommendation_history]. *)
Definition references_ok (db : Database) : Prop :=
  Forall (λ r, known_movie db (source_movie_id r) ∧
               known_movie db (recommended_movie_id r)) (recommendations db) ∧
  Forall (λ p, known_movie db (movie1_id p) ∧
               known_movie db (movie2_id p)) (similarity_pairs db) ∧
  Forall (λ h, known_movie db (hist_source_movie_id h))
    (recommendation_history db).

(** ** The script [migrate_data.py] as a whole *)

(** [load_pickle_data], lines 18-35, from the content of the two pickle
    files; [None] stands for a file that cannot be read.  Opening it
    raises, and the [except] clause returns [(None, None)]. *)
Definition load_pickle_data (movie_list : option DataFrame)
    (similarity : option Matrix) : option DataFrame * option Matrix :=
  match movie_list, similarity with
  | Some md, Some sim => (Some md, Some sim)
  | _, _ => (None, None)
  end.

(** The script from the content of the two files: [main], lines 223-266,
    with [load_pickle_data].  It returns false without touching the
    database when a file cannot be read, and otherwise goes on as [main]
    above. *)
Definition migrate_data_main (fits : CatalogRow → bool)
    (movie_list : option DataFrame) (similarity : option Matrix)
    (db : Database) : bool * Database :=
  match load_pickle_data movie_list similarity with
  | (Some movie_data, Some similarity_matrix) =>
      main fits movie_data similarity_matrix db
  | _ => (false, db)
  end.

(** ** The dataset of [create_sample_data.py] *)

(** An entry of the list [movies_data]. *)
Record RawMovie : Type := {
  raw_id : Z;
  raw_title : string;
  raw_genre : string;
  raw_overview : string;
}.

(** [create_movie_dataset], lines 47-61, on the list [movies_data]. *)
Definition create_movie_dataset (movies_data : list RawMovie) : DataFrame :=
  (λ m, {| row_id := Some (raw_id m);
           row_title := raw_title m;
           row_tags := String.append (raw_genre m) (raw_overview m) |})
    <$> movies_data.

(** * Properties *)

(** ** The [result] monad *)

Lemma bind_Ok {A B} (f : A → result B) (m : result A) (b : B) :
  m ≫= f = Ok b ↔ ∃ a, m = Ok a ∧ f a = Ok b.
Proof.
  destruct m as [a|e]; simpl; split.
  - eauto.
  - by intros (a' & [= ->] & ?).
  - done.
  - by intros (a' & ? & ?).
Qed.

Lemma getitem_Ok {A} (l : list A) (i : nat) (a : A) :
  getitem l i = Ok a ↔ l !! i = Some a.
Proof. unfold getitem. destruct (l !! i); split; congruence. Qed.

Lemma mapM_Ok {A B} (f : A → result B) (l : list A) (k : list B) :
  mapM f l = Ok k ↔ Forall2 (λ x y, f x = Ok y) l k.
Proof.
  revert k. induction l as [|x l IH]; intros k; simpl.
  - split.
    + intros [= <-]. constructor.
    + by inversion 1.
  - rewrite bind_Ok. split.
    + intros (y & Hy & Hrest). apply bind_Ok in Hrest as (k' & Hk' & [= <-]).
      constructor; [done|]. by apply IH.
    + inversion 1 as [|? y ? k' Hy Hk']; simplify_eq.
      exists y. split; [done|]. apply bind_Ok. exists k'.
      split; [by apply IH|done].
Qed.

Lemma mapM_Ok_total {A B} (f : A → result B) (l : list A) :
  Forall (λ x, ∃ y, f x = Ok y) l → ∃ k, mapM f l = Ok k.
Proof.
  induction 1 as [|x l [y Hy] _ [k Hk]].
  - by exists [].
  - exists (y :: k). apply mapM_Ok. constructor; [done|]. by apply mapM_Ok.
Qed.

(** ** Rounding *)

Lemma round_half_even_bounds (x : Q) :
  (Qfloor x <= round_half_even x <= Qfloor x + 1)%Z.
Proof.
  unfold round_half_even.
  destruct (Qcompare _ _); [destruct (Z.even _)|..]; lia.
Qed.

Lemma round_half_even_mono (x y : Q) :
  (x <= y)%Q → (round_half_even x <= round_half_even y)%Z.
Proof.
  intros Hxy. pose proof (Qfloor_resp_le x y Hxy) as Hfloor.
  pose proof (round_half_even_bounds x) as Hx.
  pose proof (round_half_even_bounds y) as Hy.
  destruct (Z.eq_dec (Qfloor x) (Qfloor y)) as [Heq|Hne]; [|lia].
  unfold round_half_even in *. rewrite <-Heq in *.
  assert (x - inject_Z (Qfloor x) <= y - inject_Z (Qfloor x))%Q as Hfrac.
  { by apply Qplus_le_l. }
  destruct (Qcompare_spec (x - inject_Z (Qfloor x)) (1 # 2)) as [Hcx|Hcx|Hcx];
    destruct (Qcompare_spec (y - inject_Z (Qfloor x)) (1 # 2)) as [Hcy|Hcy|Hcy];
    try lia; try (destruct (Z.even (Qfloor x)); lia); exfalso.
  - rewrite Hcx in Hfrac. by apply (Qlt_not_le _ _ Hcy).
  - rewrite Hcy in Hfrac. by apply (Qlt_not_le _ _ Hcx).
  - apply (Qlt_not_le _ _ Hcy). by apply Qle_trans with (x - inject_Z (Qfloor x))%Q;
      [apply Qlt_le_weak|].
Qed.

Lemma round4_mono (x y : score) : (x <= y)%Q → (round4 x <= round4 y)%Q.
Proof.
  intros Hxy. unfold round4, Qle. simpl.
  apply Z.mul_le_mono_nonneg_r; [lia|].
  apply round_half_even_mono. apply Qmult_le_compat_r; [done|].
  by vm_compute.
Qed.

(** ** List primitives *)

Lemma length_enumerate {A} (l : list A) : length (enumerate l) = length l.
Proof. apply length_imap. Qed.

Lemma lookup_enumerate {A} (l : list A) (i : nat) :
  enumerate l !! i = pair i <$> l !! i.
Proof. apply list_lookup_imap. Qed.

Lemma lookup_enumerate_from {A} (start : nat) (l : list A) (i : nat) :
  enumerate_from start l !! i = pair (start + i) <$> l !! i.
Proof. unfold enumerate_from. by rewrite list_lookup_imap. Qed.

Lemma lookup_slice {A} (a b : nat) (l : list A) (i : nat) :
  slice a b l !! i = if decide (i < b - a) then l !! (a + i) else None.
Proof.
  unfold slice. case_decide.
  - by rewrite lookup_take_lt, lookup_drop.
  - apply lookup_take_ge. lia.
Qed.

Lemma length_slice {A} (a b : nat) (l : list A) :
  length (slice a b l) = (b - a) `min` (length l - a).
Proof. unfold slice. by rewrite length_take, length_drop. Qed.

(** A loop over [enumerate(l)] establishes [P (len(l))] when each
    iteration takes [P n] to [P (n + 1)]. *)
Lemma foldl_enumerate_inv {A S} (f : S → nat * A → S) (P : nat → S → Prop)
    (l : list A) (s : S) :
  P 0 s →
  (∀ n x s, l !! n = Some x → P n s → P (Datatypes.S n) (f s (n, x))) →
  P (length l) (foldl f s (enumerate l)).
Proof.
  intros H0 Hstep.
  assert (∀ n, n ≤ length l → P n (foldl f s (take n (enumerate l)))) as Htake.
  { induction n as [|n IH]; intros Hn; [done|].
    destruct (lookup_lt_is_Some_2 l n) as [x Hx]; [lia|].
    rewrite (take_S_r _ _ (n, x)) by (by rewrite lookup_enumerate, Hx).
    rewrite foldl_app. simpl. apply Hstep; [done|]. apply IH. lia. }
  rewrite <-(take_ge (enumerate l) (length l))
    by (by rewrite length_enumerate).
  by apply Htake.
Qed.

Lemma enumerate_from_sorted {A} (start : nat) (l : list A) :
  StronglySorted (λ a b : nat * A, a.1 < b.1) (enumerate_from start l).
Proof.
  unfold enumerate_from. revert start.
  induction l as [|x l IH]; intros start; simpl; constructor.
  - erewrite imap_ext; [apply (IH (S start))|].
    intros i y _. simpl. f_equal. lia.
  - apply Forall_forall. intros [j y] Hin.
    apply elem_of_lookup_imap in Hin as (i & z & [= -> ->] & _). simpl. lia.
Qed.

Lemma enumerate_sorted {A} (l : list A) :
  StronglySorted (λ a b : nat * A, a.1 < b.1) (enumerate l).
Proof. apply (enumerate_from_sorted 0). Qed.

Lemma StronglySorted_lookup_lt {A} (R : relation A) (l : list A)
    (i j : nat) (x y : A) :
  StronglySorted R l → l !! i = Some x → l !! j = Some y → i < j → R x y.
Proof.
  intros Hl. revert i j.
  induction Hl as [|z l Hl IH Hz]; intros i j Hi Hj Hlt; [done|].
  destruct j as [|j]; [lia|]. simpl in Hj. destruct i as [|i]; simpl in Hi.
  - injection Hi as ->.
    by apply (proj1 (Forall_forall _ _) Hz), list_elem_of_lookup_2 with j.
  - apply (IH i j); [done..|lia].
Qed.

Lemma StronglySorted_slice {A} (R : relation A) (a b : nat) (l : list A) :
  StronglySorted R l → StronglySorted R (slice a b l).
Proof.
  intros Hl. unfold slice.
  rewrite <-(take_drop a l) in Hl. apply StronglySorted_app_1_r in Hl.
  rewrite <-(take_drop (b - a) (drop a l)) in Hl.
  by apply StronglySorted_app_1_l in Hl.
Qed.

(** ** The stable sort *)

Section stable_sort.
Context {A : Type} (before : A → A → bool).

Lemma insert_by_Permutation (x : A) (l : list A) :
  insert_by before x l ≡ₚ x :: l.
Proof.
  induction l as [|y l IH]; simpl; [done|].
  destruct (before y x); [|done].
  rewrite IH. apply Permutation_swap.
Qed.

Lemma stable_sort_Permutation (l : list A) : stable_sort before l ≡ₚ l.
Proof.
  induction l as [|x l IH]; simpl; [done|].
  unfold stable_sort in *. simpl.
  by rewrite insert_by_Permutation, IH.
Qed.

Lemma length_stable_sort (l : list A) :
  length (stable_sort before l) = length l.
Proof. by rewrite stable_sort_Permutation. Qed.

(** A list that is already in order is returned as it is. *)
Lemma stable_sort_id (l : list A) :
  Sorted (λ a b, before b a = false) l → stable_sort before l = l.
Proof.
  induction 1 as [|x l Hl IH Hhd]; [done|].
  unfold stable_sort in *. simpl. rewrite IH.
  destruct Hhd as [|y l' Hyx]; simpl; [done|]. by rewrite Hyx.
Qed.
End stable_sort.

Lemma score_gt_true (y x : nat * score) : score_gt y x = true ↔ (x.2 < y.2)%Q.
Proof.
  unfold score_gt. rewrite negb_true_iff, <-not_true_iff_false, Qle_bool_iff.
  split; [apply Qnot_le_lt|apply Qlt_not_le].
Qed.

Lemma score_gt_false (y x : nat * score) : score_gt y x = false ↔ (y.2 <= x.2)%Q.
Proof. unfold score_gt. by rewrite negb_false_iff, Qle_bool_iff. Qed.

Lemma ranked_before_le (a b : nat * score) : ranked_before a b → (b.2 <= a.2)%Q.
Proof.
  intros [?|[Heq _]]; [by apply Qlt_le_weak|].
  rewrite Heq. apply Qle_refl.
Qed.

Lemma insert_by_score_sorted (x : nat * score) (l : list (nat * score)) :
  StronglySorted ranked_before l →
  Forall (λ y, x.1 < y.1) l →
  StronglySorted ranked_before (insert_by score_gt x l).
Proof.
  induction 1 as [|y l Hl IH Hy]; intros Hx; simpl.
  - repeat constructor.
  - apply Forall_cons in Hx as [Hxy Hx].
    destruct (score_gt y x) eqn:Hgt.
    + apply score_gt_true in Hgt. constructor; [by apply IH|].
      rewrite insert_by_Permutation. constructor; [by left|done].
    + apply score_gt_false in Hgt. constructor; [by constructor|].
      assert (ranked_before x y) as Hxy'.
      { apply Qle_lt_or_eq in Hgt as [?|Heq]; [by left|].
        right. split; [by symmetry|done]. }
      constructor; [done|].
      apply Forall_forall. intros z Hz.
      pose proof (proj1 (Forall_forall _ _) Hy z Hz) as Hyz.
      pose proof (proj1 (Forall_forall _ _) Hx z Hz) as Hxz.
      apply ranked_before_le in Hyz.
      destruct (Qle_lt_or_eq _ _ (Qle_trans _ _ _ Hyz Hgt)) as [?|Heq];
        [by left|].
      right. split; [by symmetry|done].
Qed.

Lemma sorted_by_score_desc_sorted (l : list (nat * score)) :
  StronglySorted (λ a b, a.1 < b.1) l →
  StronglySorted ranked_before (sorted_by_score_desc l).
Proof.
  unfold sorted_by_score_desc, stable_sort.
  induction 1 as [|x l Hl IH Hx]; simpl; [constructor|].
  apply insert_by_score_sorted; [done|].
  by rewrite (stable_sort_Permutation score_gt l).
Qed.

Lemma ranked_before_asym (a b : nat * score) :
  ranked_before a b → ranked_before b a → False.
Proof.
  intros [Hab|[Heq Hab]] [Hba|[Heq' Hba]].
  - by apply (Qlt_irrefl a.2), Qlt_trans with b.2.
  - rewrite Heq' in Hab. by apply Qlt_irrefl in Hab.
  - rewrite Heq in Hba. by apply Qlt_irrefl in Hba.
  - lia.
Qed.

(** The order of the result leaves no freedom: any arrangement of
    [enumerate(row)] in which a greater score comes first and equal
    scores keep the index order is the list the model of [sorted]
    returns. *)
Lemma sorted_by_score_desc_unique (row : list score) (l : list (nat * score)) :
  l ≡ₚ enumerate row →
  StronglySorted ranked_before l →
  l = sorted_by_score_desc (enumerate row).
Proof.
  intros Hperm Hsorted. apply (StronglySorted_unique_strong ranked_before).
  - intros p q _ _ Hpq Hqp. by destruct (ranked_before_asym p q).
  - done.
  - apply sorted_by_score_desc_sorted, enumerate_sorted.
  - unfold sorted_by_score_desc. by rewrite stable_sort_Permutation.
Qed.

(** ** The in-memory path *)

(** The loop of lines 179-185 reads the index from [recommended_indices]
    and the score from [similarity_scores[i + 1]]: both come from the same
    pair of the sorted row. *)
Lemma items_loop_Forall2 (md : DataFrame) (ss : list (nat * score))
    (items : list Item) :
  mapM (λ '(i, idx),
      r ← getitem md idx;
      s ← getitem ss (i + 1);
      Ok {| item_title := row_title r; item_score := round4 s.2 |})
    (enumerate (fst <$> slice 1 11 ss)) = Ok items
  ↔ Forall2 (item_for md) (slice 1 11 ss) items.
Proof.
  rewrite mapM_Ok, !Forall2_lookup.
  apply forall_proper. intros i.
  rewrite lookup_enumerate, list_lookup_fmap.
  pose proof (lookup_slice 1 11 ss i) as Hsl.
  destruct (slice 1 11 ss !! i) as [[idx s]|] eqn:Hi; simpl.
  - case_decide; [|done].
    replace (1 + i) with (i + 1) in Hsl by lia.
    destruct (items !! i) as [it|]; [|split; inversion 1].
    split; inversion 1 as [? ? Hit|]; constructor.
    + apply bind_Ok in Hit as (r & Hr%getitem_Ok & Hit).
      apply bind_Ok in Hit as (s' & Hs'%getitem_Ok & [= <-]).
      rewrite <-Hsl in Hs'. injection Hs' as <-. by exists r.
    + destruct Hit as (r & Hr & ->). simpl in Hr.
      apply bind_Ok. exists r. split; [by apply getitem_Ok|].
      apply bind_Ok. exists (idx, s). split; [by apply getitem_Ok|done].
  - destruct (items !! i); split; inversion 1; constructor.
Qed.

Lemma recommend_from_pickle_Ok (md : DataFrame) (sim : Matrix)
    (t sel : string) (items : list Item) (src : provenance) :
  recommend_from_pickle md sim t = Ok (Recommended sel items src) ↔
  ∃ i r0 row,
    list_find (λ r, row_title r = t) md = Some (i, r0) ∧
    sim !! i = Some row ∧ sel = t ∧ src = FromPickle ∧
    Forall2 (item_for md) (ranked_neighbours row) items.
Proof.
  unfold recommend_from_pickle, ranked_neighbours.
  destruct (list_find _ md) as [[i r0]|].
  - rewrite bind_Ok. split.
    + intros (row & Hrow%getitem_Ok & Hbody).
      apply bind_Ok in Hbody as (items' & Hitems & [= <- <- <-]).
      exists i, r0, row. by rewrite <-items_loop_Forall2.
    + intros (i' & r0' & row & [= <- <-] & Hrow & -> & -> & Hitems).
      exists row. split; [by apply getitem_Ok|].
      apply bind_Ok. exists items. by rewrite items_loop_Forall2.
  - split; [done|]. by intros (? & ? & ? & ? & _).
Qed.

Lemma Forall2_item_for_total (md : DataFrame) (l : list (nat * score)) :
  Forall (λ p, p.1 < length md) l → ∃ items, Forall2 (item_for md) l items.
Proof.
  induction 1 as [|p l Hp _ [items IH]]; [by exists []|].
  destruct (lookup_lt_is_Some_2 md p.1 Hp) as [r Hr].
  eexists (_ :: items). constructor; [|done]. by exists r.
Qed.

Lemma ranked_neighbours_bound (row : list score) :
  Forall (λ p, p.1 < length row) (ranked_neighbours row).
Proof.
  apply Forall_forall. intros p Hp. unfold ranked_neighbours, slice in Hp.
  eapply subseteq_take, subseteq_drop in Hp.
  unfold sorted_by_score_desc in Hp.
  rewrite stable_sort_Permutation in Hp.
  apply elem_of_lookup_imap in Hp as (i & x & Hp & Hx). subst p.
  by apply lookup_lt_Some in Hx.
Qed.

Lemma ranked_neighbours_scores (row : list score) (p : nat * score) :
  p ∈ ranked_neighbours row → row !! p.1 = Some p.2.
Proof.
  intros Hp. unfold ranked_neighbours, slice in Hp.
  eapply subseteq_take, subseteq_drop in Hp. destruct p as [idx x].
  unfold sorted_by_score_desc in Hp. rewrite stable_sort_Permutation in Hp.
  by apply elem_of_lookup_imap in Hp as (i & y & [= -> ->] & Hy).
Qed.

Lemma length_ranked_neighbours (row : list score) :
  length (ranked_neighbours row) = 10 `min` (length row - 1).
Proof.
  unfold ranked_neighbours, sorted_by_score_desc.
  by rewrite length_slice, length_stable_sort, length_enumerate.
Qed.

Lemma ranked_neighbours_sorted (row : list score) :
  StronglySorted ranked_before (ranked_neighbours row).
Proof.
  apply StronglySorted_slice, sorted_by_score_desc_sorted, enumerate_sorted.
Qed.

Lemma recommend_from_pickle_total (md : DataFrame) (sim : Matrix) (t : string)
    (i : nat) (r0 : CatalogRow) (row : list score) :
  list_find (λ r, row_title r = t) md = Some (i, r0) →
  sim !! i = Some row →
  length row ≤ length md →
  ∃ items,
    recommend_from_pickle md sim t = Ok (Recommended t items FromPickle) ∧
    Forall2 (item_for md) (ranked_neighbours row) items.
Proof.
  intros Hfind Hrow Hlen.
  destruct (Forall2_item_for_total md (ranked_neighbours row)) as [items Hitems].
  { eapply Forall_impl; [apply ranked_neighbours_bound|]. simpl. lia. }
  exists items. split; [|done].
  apply recommend_from_pickle_Ok. by exists i, r0, row.
Qed.

(** ** The handler *)

(** The response is computed from the [movies] and [recommendations]
    tables alone, and a request changes neither. *)
Lemma persisted_items_ext (db db' : Database) (recs : list Recommendation) :
  movies db = movies db' → persisted_items db recs = persisted_items db' recs.
Proof.
  intros Hm. unfold persisted_items, movie_by_id. by rewrite Hm.
Qed.

Lemma response_ext (env : Pickle) (req : Request) (a a' : bool)
    (db db' : Database) :
  movies db = movies db' →
  recommendations db = recommendations db' →
  response (recommend_movies env req a db) =
  response (recommend_movies env req a' db').
Proof.
  intros Hm Hr.
  unfold response, recommend_movies, recommend_body, movie_by_title,
    recommendations_for.
  rewrite <-Hm, <-Hr.
  destruct (json_movie req) as [sel|]; [|done].
  destruct (list_find _ (movies db)) as [[? m]|]; unfold fmap, option_fmap, option_map.
  - destruct (take 10 _) as [|rec recs].
    + by destruct (pickle_fallback env sel).
    + rewrite <-(persisted_items_ext db db' (rec :: recs) Hm).
      destruct (persisted_items db (rec :: recs)); simpl; [|done].
      by destruct a, a'.
  - by destruct (pickle_fallback env sel).
Qed.

Lemma database_after_tables (env : Pickle) (req : Request) (a : bool)
    (db : Database) :
  movies (database_after (recommend_movies env req a db)) = movies db ∧
  recommendations (database_after (recommend_movies env req a db)) =
    recommendations db.
Proof.
  unfold database_after, recommend_movies, recommend_body.
  destruct (json_movie req) as [sel|]; [|done].
  destruct (movie_by_title db sel) as [m|].
  - destruct (recommendations_for db (movie_id m)) as [|rec recs].
    + by destruct (pickle_fallback env sel).
    + destruct (persisted_items db (rec :: recs)); simpl; [|done].
      by destruct a.
  - by destruct (pickle_fallback env sel).
Qed.

(** C8: [recommend_movies] is deterministic.  The response is a function
    of the request, the loaded pickles and the database; the only trace a
    request leaves in the database is an analytics row, so a second
    invocation over the same catalog and matrix, run on the database the
    first one left behind and whatever the fate of either analytics
    write, returns the identical response: same titles, same rounded
    scores, same order. *)
Theorem recommend_deterministic (env : Pickle) (req : Request)
    (a1 a2 : bool) (db : Database) :
  response (recommend_movies env req a2
              (database_after (recommend_movies env req a1 db))) =
  response (recommend_movies env req a1 db).
Proof.
  destruct (database_after_tables env req a1 db) as [Hm Hr].
  by apply response_ext.
Qed.

(** How a successful response came about: from the pickles through the
    fallback, or from a non-empty list of persisted rows. *)
Lemma pickle_fallback_Ok (env : Pickle) (t sel : string) (items : list Item)
    (src : provenance) :
  pickle_fallback env t = Ok (Recommended sel items src) →
  sel = t ∧ src = FromPickle ∧
  ∃ md sim,
    movie_data env = Some md ∧ similarity_matrix env = Some sim ∧
    recommend_from_pickle md sim t = Ok (Recommended sel items src).
Proof.
  unfold pickle_fallback. destruct (data_loaded env); simpl; [|done].
  destruct (movie_data env) as [md|]; [|done].
  destruct (similarity_matrix env) as [sim|]; [|done].
  intros H. pose proof H as (_ & _ & _ & _ & _ & -> & -> & _)%recommend_from_pickle_Ok.
  repeat split. by exists md, sim.
Qed.

Lemma response_inv (env : Pickle) (req : Request) (a : bool) (db : Database)
    (sel : string) (items : list Item) (src : provenance) :
  response (recommend_movies env req a db) = Recommended sel items src →
  json_movie req = Some sel ∧
  match src with
  | FromPickle => pickle_fallback env sel = Ok (Recommended sel items FromPickle)
  | FromDatabase =>
      ∃ m, movie_by_title db sel = Some m ∧
           recommendations_for db (movie_id m) ≠ [] ∧
           persisted_items db (recommendations_for db (movie_id m)) = Ok items
  end.
Proof.
  unfold response, recommend_movies, recommend_body.
  destruct (json_movie req) as [sel'|]; [|done].
  assert ((match pickle_fallback env sel' ≫= (λ r, Ok (r, db, [])) with
           | Ok r => r
           | Raise e => (Failure FailedToGenerate, db, [GenerationFailed e])
           end).1.1 = Recommended sel items src →
    Some sel' = Some sel ∧
    match src with
    | FromPickle =>
        pickle_fallback env sel = Ok (Recommended sel items FromPickle)
    | FromDatabase =>
        ∃ m, movie_by_title db sel = Some m ∧
             recommendations_for db (movie_id m) ≠ [] ∧
             persisted_items db (recommendations_for db (movie_id m)) = Ok items
    end) as Hfallback.
  { destruct (pickle_fallback env sel') as [r|e] eqn:Hfb; simpl; [|done].
    intros ->. by pose proof Hfb as (-> & -> & _)%pickle_fallback_Ok. }
  destruct (movie_by_title db sel') as [m|] eqn:Hm; [|done].
  destruct (recommendations_for db (movie_id m)) as [|rec recs] eqn:Hrecs;
    [done|].
  destruct (persisted_items db (rec :: recs)) as [items'|] eqn:Hpers; simpl;
    [|done].
  destruct a; simpl; intros [= <- <- <-]; (split; [done|]); exists m;
    by rewrite Hrecs.
Qed.

Lemma response_FromPickle (env : Pickle) (req : Request) (a : bool)
    (db : Database) (sel : string) (items : list Item) :
  response (recommend_movies env req a db) = Recommended sel items FromPickle →
  ∃ md sim,
    movie_data env = Some md ∧ similarity_matrix env = Some sim ∧
    recommend_from_pickle md sim sel = Ok (Recommended sel items FromPickle).
Proof.
  intros [_ Hfb]%response_inv.
  by apply pickle_fallback_Ok in Hfb as (_ & _ & ?).
Qed.

(** C7: on the persisted path a failed analytics write changes nothing
    the caller sees.  Whenever the request is answered from the database
    with the write accepted, the same request with the write refused gets
    the identical response; the refusal only leaves a warning in the log
    and the database as it was. *)
Theorem analytics_failure_not_surfaced (env : Pickle) (req : Request)
    (db : Database) (sel : string) (items : list Item) :
  response (recommend_movies env req true db) =
    Recommended sel items FromDatabase →
  recommend_movies env req false db =
    (Recommended sel items FromDatabase, db,
     [HistoryWriteFailed DatabaseError]).
Proof.
  intros (Hsel & m & Hm & Hne & Hpers)%response_inv.
  unfold recommend_movies, recommend_body. rewrite Hsel, Hm.
  destruct (recommendations_for db (movie_id m)) as [|rec recs]; [done|].
  by rewrite Hpers.
Qed.

Lemma analytics_failure_not_surfaced_witness :
  recommend_movies toy_pickle (ask "entry0") false
    (main int32 toy_catalog toy_matrix empty_db).2 =
  (Recommended "entry0"
     [ {| item_title := "entry1"; item_score := (8000 # 10000)%Q |};
       {| item_title := "entry2"; item_score := (2000 # 10000)%Q |} ]
     FromDatabase,
   (main int32 toy_catalog toy_matrix empty_db).2,
   [HistoryWriteFailed DatabaseError]).
Proof.
  apply (analytics_failure_not_surfaced toy_pickle (ask "entry0")
           (main int32 toy_catalog toy_matrix empty_db).2).
  vm_compute. reflexivity.
Defined.

Lemma elem_of_sorted_enumerate (row : list score) (idx : nat) (x : score) :
  (idx, x) ∈ sorted_by_score_desc (enumerate row) ↔ row !! idx = Some x.
Proof.
  unfold sorted_by_score_desc. rewrite stable_sort_Permutation.
  unfold enumerate. rewrite elem_of_lookup_imap. split.
  - by intros (i & y & [= -> ->] & ?).
  - intros ?. by exists idx, x.
Qed.

Lemma NoDup_sorted_enumerate (row : list score) :
  NoDup (fst <$> sorted_by_score_desc (enumerate row)).
Proof.
  unfold sorted_by_score_desc. rewrite stable_sort_Permutation.
  unfold enumerate. rewrite fmap_imap.
  rewrite (imap_ext _ (λ i _, id i)) by done.
  rewrite imap_seq_0, list_fmap_id. apply NoDup_seq.
Qed.

Lemma NoDup_ranked_neighbours (row : list score) :
  NoDup (fst <$> ranked_neighbours row).
Proof.
  unfold ranked_neighbours, slice.
  eapply sublist_NoDup; [apply NoDup_sorted_enumerate|].
  apply fmap_sublist. etrans; [apply sublist_take|apply sublist_drop].
Qed.

(** Where the positional exclusion does remove the source: when the
    source's own score is strictly greater than every other score of its
    row, its entry is the first of the sorted row and no neighbour is the
    source. *)
Lemma strict_best_is_first (row : list score) (i : nat) (x : score) :
  row !! i = Some x →
  (∀ j y, row !! j = Some y → j ≠ i → (y < x)%Q) →
  sorted_by_score_desc (enumerate row) !! 0 = Some (i, x) ∧
  ∀ p, p ∈ ranked_neighbours row → p.1 ≠ i.
Proof.
  intros Hi Hbest.
  pose proof (NoDup_sorted_enumerate row) as Hnodup.
  pose proof (sorted_by_score_desc_sorted _ (enumerate_sorted row)) as Hsorted.
  set (ss := sorted_by_score_desc (enumerate row)) in *.
  assert (∀ k q, ss !! k = Some q → q.1 = i → q = (i, x)) as Hself.
  { intros k [j y] Hk%list_elem_of_lookup_2%elem_of_sorted_enumerate Hj.
    simpl in Hj. subst j. congruence. }
  assert (ss !! 0 = Some (i, x)) as Hfirst.
  { pose proof (proj2 (elem_of_sorted_enumerate row i x) Hi)
      as [k Hk]%list_elem_of_lookup.
    fold ss in Hk. destruct k as [|k]; [done|]. exfalso.
    destruct (lookup_lt_is_Some_2 ss 0) as [[j y] Hhd].
    { pose proof (lookup_lt_Some _ _ _ Hk). lia. }
    pose proof (StronglySorted_lookup_lt _ _ 0 (S k) _ _ Hsorted Hhd Hk)
      as Hle%ranked_before_le; [|lia]. simpl in Hle.
    destruct (decide (j = i)) as [->|Hne].
    - pose proof (Hself 0 _ Hhd eq_refl) as [= ->].
      assert (0 = S k); [|lia].
      apply (NoDup_lookup _ _ _ i Hnodup);
        by rewrite list_lookup_fmap, ?Hhd, ?Hk.
    - apply list_elem_of_lookup_2, elem_of_sorted_enumerate in Hhd.
      by apply (Qlt_not_le _ _ (Hbest j y Hhd Hne)). }
  split; [done|].
  intros p [k Hk]%list_elem_of_lookup Hp. unfold ranked_neighbours in Hk.
  rewrite lookup_slice in Hk. case_decide; [|done]. fold ss in Hk.
  pose proof (Hself _ _ Hk Hp) as ->.
  assert (0 = 1 + k); [|lia].
  apply (NoDup_lookup _ _ _ i Hnodup); by rewrite list_lookup_fmap, ?Hfirst, ?Hk.
Qed.

(** C1, at the input where it fails.  The handler drops the first entry
    of the sorted row, whatever movie it is.  In a catalog where "A" and
    "B" carry the same tags, asking for "B" returns "B" itself with score
    1 and leaves out "A", the distinct movie whose score against "B" is
    1; the migration pass persists the same list for "B". *)
Theorem self_exclusion_is_positional :
  response (recommend_movies (loaded twin_catalog twin_matrix) (ask "B")
              true empty_db) =
    Recommended "B"
      [ {| item_title := "B"; item_score := (10000 # 10000)%Q |};
        {| item_title := "C"; item_score := (5000 # 10000)%Q |} ]
      FromPickle ∧
  recommended_movie_id <$>
    recommendations_for (main int32 twin_catalog twin_matrix empty_db).2 2 = [2; 3].
Proof. split; vm_compute; reflexivity. Qed.

(** C9: every item of the in-memory path is internally consistent.  The
    item at position [k] of the response takes its title and its score
    from one and the same pair [(idx, x)], the one at position [k + 1] of
    the sorted row: the title is the title of the movie at matrix index
    [idx], and the score is [round4] of
    [similarity_matrix[source_index][idx]]. *)
Theorem dense_items_consistent (env : Pickle) (req : Request) (a : bool)
    (db : Database) (sel : string) (items : list Item) :
  response (recommend_movies env req a db) = Recommended sel items FromPickle →
  ∃ md sim source_index r0 row,
    movie_data env = Some md ∧ similarity_matrix env = Some sim ∧
    list_find (λ r, row_title r = sel) md = Some (source_index, r0) ∧
    sim !! source_index = Some row ∧
    ∀ k it, items !! k = Some it →
      ∃ idx x r,
        sorted_by_score_desc (enumerate row) !! (k + 1) = Some (idx, x) ∧
        row !! idx = Some x ∧
        md !! idx = Some r ∧
        it = {| item_title := row_title r; item_score := round4 x |}.
Proof.
  intros (md & sim & Hmd & Hsim & Hrec)%response_FromPickle.
  apply recommend_from_pickle_Ok in Hrec as (i & r0 & row & Hfind & Hrow & _ & _ & Hitems).
  exists md, sim, i, r0, row. repeat split; try done.
  intros k it Hk.
  destruct (Forall2_lookup_r _ _ _ _ _ Hitems Hk) as ([idx x] & Hp & r & Hr & ->).
  unfold ranked_neighbours in Hp. rewrite lookup_slice in Hp.
  case_decide; [|done]. replace (1 + k) with (k + 1) in Hp by lia.
  exists idx, x, r. repeat split; try done.
  by apply elem_of_sorted_enumerate, list_elem_of_lookup_2 with (k + 1).
Qed.

Lemma dense_items_consistent_witness :
  ∃ md sim source_index r0 row,
    movie_data toy_pickle = Some md ∧ similarity_matrix toy_pickle = Some sim ∧
    list_find (λ r, row_title r = "entry0") md = Some (source_index, r0) ∧
    sim !! source_index = Some row ∧
    ∀ k it,
      [ {| item_title := "entry1"; item_score := (8000 # 10000)%Q |};
        {| item_title := "entry2"; item_score := (2000 # 10000)%Q |} ] !! k
        = Some it →
      ∃ idx x r,
        sorted_by_score_desc (enumerate row) !! (k + 1) = Some (idx, x) ∧
        row !! idx = Some x ∧
        md !! idx = Some r ∧
        it = {| item_title := row_title r; item_score := round4 x |}.
Proof.
  apply (dense_items_consistent toy_pickle (ask "entry0") true empty_db).
  vm_compute. reflexivity.
Defined.

(** ** The movie-ingestion pass

    *** When no insert is refused *)

Lemma movie_by_title_None (db : Database) (t : string) :
  movie_by_title db t = None ↔ t ∉ titles db.
Proof.
  unfold movie_by_title, titles. rewrite fmap_None, list_find_None.
  rewrite list_elem_of_fmap, Forall_forall. split.
  - intros H (m & -> & Hm). by apply (H m).
  - intros H m Hm Heq. apply H. by exists m.
Qed.

Lemma movie_by_title_is_Some (db : Database) (t : string) :
  is_Some (movie_by_title db t) ↔ t ∈ titles db.
Proof.
  rewrite <-not_eq_None_Some, movie_by_title_None.
  split; [apply dec_stable|by intros ? ?].
Qed.

Lemma accept_step_titles (st : Accepted) (row : CatalogRow) (t : string) :
  t ∈ titles (acc_db (accept_step st row)) ↔
  t ∈ titles (acc_db st) ∨ t = row_title row.
Proof.
  unfold accept_step.
  destruct (movie_by_title (acc_db st) (row_title row)) as [m|] eqn:Hm; simpl.
  - split; [by left|]. intros [?| ->]; [done|].
    by apply movie_by_title_is_Some.
  - unfold titles, store_movie. simpl.
    rewrite fmap_app, elem_of_app. simpl.
    by rewrite list_elem_of_singleton.
Qed.

Lemma foldl_accept_step_titles (md : DataFrame) (st : Accepted)
    (t : string) :
  t ∈ titles (acc_db (foldl accept_step st md)) ↔
  t ∈ titles (acc_db st) ∨ t ∈ row_title <$> md.
Proof.
  revert st. induction md as [|row md IH]; intros st; simpl.
  - rewrite elem_of_nil. tauto.
  - rewrite IH, accept_step_titles, elem_of_cons. tauto.
Qed.

(** On a table that holds none of the titles, a catalog without
    duplicate titles is inserted row by row, with consecutive ids. *)
Lemma foldl_accept_step_fresh (md : DataFrame) (st : Accepted) :
  NoDup (row_title <$> md) →
  Forall (λ row, row_title row ∉ titles (acc_db st)) md →
  movies (acc_db (foldl accept_step st md)) =
    movies (acc_db st) ++
    imap (λ i, movie_of_row (S (length (movies (acc_db st)) + i))) md.
Proof.
  revert st. induction md as [|row md IH]; intros st Hnd Hfresh; simpl.
  - by rewrite app_nil_r.
  - apply NoDup_cons in Hnd as [Hrow Hnd].
    apply Forall_cons in Hfresh as [Hnew Hfresh].
    assert (accept_step st row =
      {| acc_db := store_movie (acc_db st) row;
         acc_migrated := S (acc_migrated st);
         acc_skipped := acc_skipped st |}) as Hstep.
    { unfold accept_step.
      by apply movie_by_title_None in Hnew as ->. }
    rewrite IH; [|done|].
    + rewrite Hstep. simpl. rewrite <-app_assoc. f_equal. simpl.
      rewrite Nat.add_0_r. f_equal. apply imap_ext. intros i r _. simpl.
      f_equal. rewrite length_app. simpl. lia.
    + apply Forall_forall. intros r Hr.
      rewrite accept_step_titles. intros [Hin| Heq].
      * by apply (proj1 (Forall_forall _ _) Hfresh r).
      * apply Hrow. rewrite <-Heq. by apply list_elem_of_fmap_2.
Qed.



(** *** The session *)

Lemma Database_eq (db db' : Database) :
  movies db = movies db' →
  recommendations db = recommendations db' →
  similarity_pairs db = similarity_pairs db' →
  recommendation_history db = recommendation_history db' →
  db = db'.
Proof. destruct db, db'. simpl. by intros -> -> -> ->. Qed.

Lemma foldl_inv {S A} (P : S → Prop) (f : S → A → S) (l : list A) (s : S) :
  (∀ s x, x ∈ l → P s → P (f s x)) → P s → P (foldl f s l).
Proof.
  revert s. induction l as [|x l IH]; intros s Hstep Hs; simpl; [done|].
  apply IH; [|apply Hstep; [by left|done]].
  intros s' y Hy. apply Hstep. by right.
Qed.

Lemma as_movies_cons (base : nat) (row : CatalogRow) (rows : list CatalogRow) :
  as_movies base (row :: rows) =
  movie_of_row (S base) row :: as_movies (S base) rows.
Proof.
  unfold as_movies. simpl. rewrite Nat.add_0_r. f_equal.
  apply imap_ext. intros k r _. simpl. f_equal. lia.
Qed.

Lemma length_as_movies (base : nat) (rows : list CatalogRow) :
  length (as_movies base rows) = length rows.
Proof. unfold as_movies. apply length_imap. Qed.

Lemma as_movies_titles (base : nat) (rows : list CatalogRow) :
  movie_title <$> as_movies base rows = row_title <$> rows.
Proof.
  unfold as_movies. rewrite fmap_imap.
  by rewrite <-(imap_const row_title rows).
Qed.

Lemma elem_of_as_movies (base : nat) (rows : list CatalogRow) (m : Movie) :
  m ∈ as_movies base rows →
  ∃ row, row ∈ rows ∧ m = movie_of_row (movie_id m) row.
Proof.
  unfold as_movies. intros (k & row & -> & Hk)%elem_of_lookup_imap.
  exists row. split; [by eapply list_elem_of_lookup_2|done].
Qed.

(** What a flush that does not raise has done. *)
Lemma insert_all_Ok (fits : CatalogRow → bool) (rows : list CatalogRow)
    (s s' : Session) :
  insert_all fits s rows = Ok s' →
  committed s' = committed s ∧ pending s' = pending s ∧
  flushed s' = flushed s ++ as_movies (length (visible s)) rows.
Proof.
  revert s. induction rows as [|row rows IH]; intros s; simpl.
  - intros [= <-]. by rewrite app_nil_r.
  - unfold insert at 1.
    destruct (fits row && unique_tmdb_id (visible s) row); simpl; [|done].
    intros (Hc & Hp & Hf)%IH. simpl in *.
    split; [done|]. split; [done|].
    rewrite Hf, as_movies_cons, <-app_assoc. simpl. do 3 f_equal.
    unfold visible. simpl. rewrite !length_app. simpl. lia.
Qed.

Lemma flush_Ok (fits : CatalogRow → bool) (s s' : Session) :
  flush fits s = Ok s' →
  committed s' = committed s ∧ pending s' = [] ∧
  flushed s' = flushed s ++ as_movies (length (visible s)) (pending s).
Proof.
  unfold flush. intros (s1 & Hs1 & [= <-])%bind_Ok. simpl.
  by apply insert_all_Ok in Hs1 as (-> & _ & ->).
Qed.

Lemma visible_flush (fits : CatalogRow → bool) (s s' : Session) :
  flush fits s = Ok s' →
  visible s' = visible s ++ as_movies (length (visible s)) (pending s).
Proof.
  intros (Hc & _ & Hf)%flush_Ok. unfold visible.
  by rewrite Hc, Hf, app_assoc.
Qed.

Lemma commit_Ok (fits : CatalogRow → bool) (s s' : Session) :
  commit fits s = Ok s' →
  flushed s' = [] ∧ pending s' = [] ∧
  movies (committed s') =
    visible s ++ as_movies (length (visible s)) (pending s) ∧
  recommendations (committed s') = recommendations (committed s) ∧
  similarity_pairs (committed s') = similarity_pairs (committed s) ∧
  recommendation_history (committed s') =
    recommendation_history (committed s).
Proof.
  unfold commit. intros (s1 & Hs1 & [= <-])%bind_Ok. simpl.
  pose proof (visible_flush _ _ _ Hs1) as Hv.
  apply flush_Ok in Hs1 as (-> & _ & _). done.
Qed.

(** A session with nothing queued and nothing inserted. *)
Lemma flush_clean (fits : CatalogRow → bool) (db : Database) :
  flush fits {| committed := db; flushed := []; pending := [] |} =
    Ok {| committed := db; flushed := []; pending := [] |}.
Proof. done. Qed.

Lemma view_clean (db : Database) :
  view {| committed := db; flushed := []; pending := [] |} = db.
Proof.
  apply Database_eq; try done. unfold view, visible. simpl.
  apply app_nil_r.
Qed.

(** *** A catalog whose rows the engine accepts *)

Lemma omap_row_id_cons (row : CatalogRow) (rows : list CatalogRow) (z : Z) :
  z ∈ omap row_id rows → z ∈ omap row_id (row :: rows).
Proof.
  rewrite !list_elem_of_omap. intros (x & Hx & Hz).
  exists x. split; [by right|done].
Qed.

Lemma insert_all_accepts (fits : CatalogRow → bool)
    (rows rest : list CatalogRow) (s : Session) :
  Forall (λ row, fits row = true) (rows ++ rest) →
  NoDup (omap row_id (rows ++ rest)) →
  Forall (λ m, ∀ z, tmdb_id m = Some z → z ∉ omap row_id (rows ++ rest))
    (visible s) →
  ∃ s', insert_all fits s rows = Ok s' ∧
        Forall (λ m, ∀ z, tmdb_id m = Some z → z ∉ omap row_id rest)
          (visible s').
Proof.
  revert s. induction rows as [|row rows IH]; intros s Hfits Hids Hvis.
  { by exists s. }
  simpl in Hfits. apply Forall_cons in Hfits as [Hrow Hfits].
  assert (unique_tmdb_id (visible s) row = true) as Hunique.
  { unfold unique_tmdb_id. destruct (row_id row) as [z|] eqn:Hz; [|done].
    apply bool_decide_eq_true. intros (m & Hm & Hin)%list_elem_of_fmap.
    apply (proj1 (Forall_forall _ _) Hvis m Hin z); [done|].
    apply list_elem_of_omap. exists row. split; [by left|done]. }
  simpl. unfold insert at 1. rewrite Hrow, Hunique. simpl.
  apply IH; [done| |].
  - simpl in Hids. destruct (row_id row); [|done].
    by apply NoDup_cons in Hids as [_ ?].
  - unfold visible. simpl. rewrite app_assoc. apply Forall_app. split.
    + eapply Forall_impl; [exact Hvis|]. intros m Hm z Hz Hin.
      apply (Hm z Hz). by apply (omap_row_id_cons row) in Hin.
    + constructor; [|done]. simpl. intros z Hz.
      simpl in Hids. rewrite Hz in Hids. by apply NoDup_cons in Hids as [? _].
Qed.

Lemma flush_accepts (fits : CatalogRow → bool) (s : Session)
    (rest : DataFrame) :
  acceptable fits s rest →
  ∃ s', flush fits s = Ok s' ∧ acceptable fits s' rest.
Proof.
  intros (Hfits & Hids & Hvis).
  destruct (insert_all_accepts fits (pending s) rest s) as (s1 & Hs1 & Hvis1);
    [done..|].
  unfold flush. rewrite Hs1. simpl. eexists. split; [done|].
  unfold acceptable, visible. simpl.
  apply Forall_app in Hfits as [_ Hfits].
  rewrite omap_app in Hids. apply NoDup_app in Hids as (_ & _ & Hids).
  done.
Qed.

(** One iteration on an acceptable session does what the pass without
    refusals does. *)
Lemma migrate_movie_step_accepted (fits : CatalogRow → bool) (st : MovieLoop)
    (ist : Accepted) (row : CatalogRow) (rest : DataFrame) :
  acceptable fits (session st) (row :: rest) →
  tracks st ist →
  acceptable fits (session (migrate_movie_step fits st row)) rest ∧
  tracks (migrate_movie_step fits st row) (accept_step ist row).
Proof.
  intros Hacc (Hdb & Hmig & Hskip).
  destruct (flush_accepts fits _ _ Hacc) as (s1 & Hs1 & Hacc1).
  pose proof (visible_flush _ _ _ Hs1) as Hv1.
  pose proof Hs1 as (Hc1 & Hp1 & _)%flush_Ok.
  assert (acc_db ist = view s1) as Hview.
  { rewrite Hdb. unfold view. by rewrite Hv1, Hc1. }
  unfold migrate_movie_step, accept_step. rewrite Hs1, Hview.
  destruct Hacc1 as (Hfits & Hids & Hvis). rewrite Hp1 in Hfits, Hids, Hvis.
  simpl in Hfits, Hids, Hvis.
  apply Forall_cons in Hfits as [Hrow Hfits].
  assert (NoDup (omap row_id rest)) as Hids'.
  { simpl in Hids. destruct (row_id row); [|done].
    by apply NoDup_cons in Hids as [_ ?]. }
  assert (Forall (λ m, ∀ z, tmdb_id m = Some z → z ∉ omap row_id rest)
            (visible s1)) as Hvis'.
  { eapply Forall_impl; [exact Hvis|]. intros m Hm z Hz Hin.
    apply (Hm z Hz). by apply (omap_row_id_cons row) in Hin. }
  destruct (movie_by_title (view s1) (row_title row)); simpl.
  - split.
    + unfold acceptable. by rewrite Hp1.
    + split; [|by rewrite Hmig, Hskip]. simpl.
      unfold view. rewrite Hp1. simpl. by rewrite app_nil_r.
  - assert (acceptable fits (add_movie s1 row) rest) as Hacc2.
    { unfold acceptable, add_movie, visible. simpl. rewrite Hp1. simpl.
      split; [by constructor|]. split; [done|]. exact Hvis. }
    assert (store_movie (view s1) row =
      {| movies := visible (add_movie s1 row) ++
                   as_movies (length (visible (add_movie s1 row)))
                     (pending (add_movie s1 row));
         recommendations := recommendations (committed (add_movie s1 row));
         similarity_pairs := similarity_pairs (committed (add_movie s1 row));
         recommendation_history :=
           recommendation_history (committed (add_movie s1 row)) |}) as Hstore.
    { unfold store_movie, add_movie, view, visible. simpl. rewrite Hp1.
      simpl. by rewrite as_movies_cons. }
    case_bool_decide as Hbatch.
    + destruct (flush_accepts fits _ _ Hacc2) as (s2 & Hs2 & Hacc3).
      pose proof (visible_flush _ _ _ Hs2) as Hv2.
      pose proof Hs2 as (Hc2 & Hp2 & _)%flush_Ok.
      unfold commit. rewrite Hs2. simpl. split.
      * destruct Hacc3 as (Hf3 & Hi3 & Hv3). rewrite Hp2 in Hf3, Hi3, Hv3.
        unfold acceptable, visible. simpl. rewrite app_nil_r. done.
      * split; [|by rewrite Hmig, Hskip].
        rewrite Hstore. simpl. unfold visible at 3. simpl.
        rewrite !app_nil_r. by rewrite Hv2, Hc2.
    + split; [done|]. split; [done|by rewrite Hmig, Hskip].
Qed.

(** A row whose title the table of the pass without refusals holds is
    skipped by both. *)
Lemma migrate_movie_step_accepted_skip (fits : CatalogRow → bool)
    (st : MovieLoop) (ist : Accepted) (row : CatalogRow) (rest : DataFrame) :
  row_title row ∈ titles (acc_db ist) →
  acceptable fits (session st) rest →
  tracks st ist →
  acceptable fits (session (migrate_movie_step fits st row)) rest ∧
  tracks (migrate_movie_step fits st row) (accept_step ist row).
Proof.
  intros [m Hm]%movie_by_title_is_Some Hacc (Hdb & Hmig & Hskip).
  destruct (flush_accepts fits _ _ Hacc) as (s1 & Hs1 & Hacc1).
  pose proof (visible_flush _ _ _ Hs1) as Hv1.
  pose proof Hs1 as (Hc1 & Hp1 & _)%flush_Ok.
  assert (acc_db ist = view s1) as Hview.
  { rewrite Hdb. unfold view. by rewrite Hv1, Hc1. }
  unfold migrate_movie_step, accept_step. rewrite Hs1, Hview.
  rewrite Hview in Hm. rewrite Hm. simpl.
  split; [done|]. split; [|by rewrite Hmig, Hskip]. simpl.
  unfold view. rewrite Hp1. simpl. by rewrite app_nil_r.
Qed.

Lemma foldl_migrate_movie_step_accepted (fits : CatalogRow → bool)
    (db : Database) (md : DataFrame) (st : MovieLoop) (ist : Accepted) :
  acceptable fits (session st) (new_rows db md) →
  tracks st ist →
  (∀ t, t ∈ titles db → t ∈ titles (acc_db ist)) →
  acceptable fits (session (foldl (migrate_movie_step fits) st md)) [] ∧
  tracks (foldl (migrate_movie_step fits) st md) (foldl accept_step ist md).
Proof.
  revert st ist. induction md as [|row md IH]; intros st ist Hacc Htr Hdb;
    [done|].
  assert (∀ t, t ∈ titles db → t ∈ titles (acc_db (accept_step ist row)))
    as Hdb'.
  { intros t Ht. apply accept_step_titles. left. by apply Hdb. }
  simpl. unfold new_rows in Hacc. rewrite filter_cons in Hacc.
  destruct (decide (row_title row ∉ titles db)) as [Hnew|Hold].
  - destruct (migrate_movie_step_accepted fits st ist row _ Hacc Htr).
    by apply IH.
  - apply dec_stable in Hold.
    destruct (migrate_movie_step_accepted_skip fits st ist row _
                (Hdb _ Hold) Hacc Htr).
    by apply IH.
Qed.

(** On an insertable catalog [migrate_movies] succeeds, and it leaves
    the table and the counters of the pass without refusals. *)
Lemma migrate_movies_accepted (fits : CatalogRow → bool) (md : DataFrame)
    (db : Database) :
  insertable fits db md →
  migrate_movies fits md db =
    {| mm_ok := true;
       mm_db := acc_db (accepted md db);
       mm_migrated := acc_migrated (accepted md db);
       mm_skipped := acc_skipped (accepted md db) |}.
Proof.
  intros (Hfits & Hids & Hdb).
  destruct (foldl_migrate_movie_step_accepted fits db md
    {| session := {| committed := db; flushed := []; pending := [] |};
       migrated_count := 0; skipped_count := 0 |}
    {| acc_db := db; acc_migrated := 0; acc_skipped := 0 |})
    as (Hacc & Hdb' & Hmig & Hskip).
  { unfold acceptable, visible. simpl. by rewrite app_nil_r. }
  { split; [|done]. simpl. apply Database_eq; try done. simpl.
    unfold visible. simpl. by rewrite !app_nil_r. }
  { done. }
  unfold migrate_movies, accepted.
  destruct (flush_accepts fits _ _ Hacc) as (s1 & Hs1 & _).
  pose proof (visible_flush _ _ _ Hs1) as Hv1.
  pose proof Hs1 as (Hc1 & _ & _)%flush_Ok.
  unfold commit. rewrite Hs1. simpl. rewrite <-Hmig, <-Hskip. f_equal.
  rewrite Hdb'. unfold view. by rewrite Hv1, Hc1.
Qed.

(** Of an empty table every row of the catalog is a new row. *)
Lemma new_rows_empty (db : Database) (md : DataFrame) :
  movies db = [] → new_rows db md = md.
Proof.
  intros Hdb. unfold new_rows, titles. rewrite Hdb.
  induction md as [|row md IH]; [done|].
  rewrite filter_cons, decide_True by apply not_elem_of_nil. by rewrite IH.
Qed.

(** *** Whatever the engine refuses *)

Lemma session_inv_rollback (md : DataFrame) (db : Database) (s : Session)
    (n : nat) :
  session_inv md db s n → session_inv md db (rollback s) n.
Proof.
  intros ((new & Hm & Hnew & Hlen) & Hr & Hp & Hh & _ & Hnd).
  unfold session_inv, rollback, visible. simpl.
  split; [|repeat split; try done].
  - exists new. split; [done|]. rewrite app_nil_r.
    apply Forall_app in Hnew as [? _]. split; [done|lia].
  - intros Hdb. specialize (Hnd Hdb). rewrite !app_nil_r.
    unfold visible in Hnd. rewrite fmap_app in Hnd.
    by apply NoDup_app in Hnd as [(? & _)%NoDup_app _].
Qed.

Lemma session_inv_flush (fits : CatalogRow → bool) (md : DataFrame)
    (db : Database) (s s' : Session) (n : nat) :
  flush fits s = Ok s' →
  session_inv md db s n → session_inv md db s' n.
Proof.
  intros Hflush ((new & Hm & Hnew & Hlen) & Hr & Hp & Hh & Hpend & Hnd).
  pose proof (visible_flush _ _ _ Hflush) as Hv.
  apply flush_Ok in Hflush as (Hc & Hp' & Hf).
  unfold session_inv. rewrite Hc, Hp', Hf, Hv.
  split; [|repeat split; try done].
  - exists new. split; [done|]. split.
    + rewrite app_assoc. apply Forall_app. split; [done|].
      apply Forall_forall. intros m (row & Hrow & Hmrow)%elem_of_as_movies.
      exists row. split; [|done].
      by apply (proj1 (Forall_forall _ _) Hpend).
    + rewrite length_app, length_as_movies. simpl. lia.
  - intros Hdb. specialize (Hnd Hdb). simpl.
    by rewrite app_nil_r, fmap_app, as_movies_titles.
Qed.

(** The transaction becomes the committed state. *)
Lemma session_inv_commit (fits : CatalogRow → bool) (md : DataFrame)
    (db : Database) (s s' : Session) (n : nat) :
  commit fits s = Ok s' →
  session_inv md db s n → session_inv md db s' n.
Proof.
  unfold commit. intros (s1 & Hs1 & [= <-])%bind_Ok Hinv.
  pose proof Hs1 as (_ & Hp1 & _)%flush_Ok.
  apply (session_inv_flush _ _ _ _ _ _ Hs1) in Hinv
    as ((new & Hm & Hnew & Hlen) & Hr & Hp & Hh & Hpend & Hnd).
  unfold session_inv, view, visible. simpl.
  split; [|repeat split; try done].
  - exists (new ++ flushed s1). rewrite Hm, app_assoc, app_nil_r.
    split; [done|]. split; [done|]. rewrite length_app. lia.
  - intros Hdb. specialize (Hnd Hdb). rewrite Hp1 in Hnd.
    unfold visible in Hnd. by rewrite !app_nil_r in *.
Qed.

Lemma session_inv_add_movie (md : DataFrame) (db : Database) (s : Session)
    (n : nat) (row : CatalogRow) :
  row ∈ md →
  pending s = [] →
  movie_by_title (view s) (row_title row) = None →
  session_inv md db s n → session_inv md db (add_movie s row) (S n).
Proof.
  intros Hrow Hp0 Hnew%movie_by_title_None
    ((new & Hm & Hfrom & Hlen) & Hr & Hp & Hh & Hpend & Hnd).
  unfold session_inv, add_movie, visible. simpl. rewrite Hp0 in *.
  split; [|repeat split; try done].
  - exists new. split; [done|]. split; [done|]. simpl in *. lia.
  - by repeat constructor.
  - intros Hdb. specialize (Hnd Hdb). simpl in *. rewrite app_nil_r in Hnd.
    apply NoDup_app. split; [done|]. split; [|apply NoDup_singleton].
    intros t Ht ->%list_elem_of_singleton. by apply Hnew.
Qed.

Lemma session_inv_mono (md : DataFrame) (db : Database) (s : Session)
    (n n' : nat) :
  n ≤ n' → session_inv md db s n → session_inv md db s n'.
Proof.
  intros Hle ((new & Hm & Hfrom & Hlen) & Hrest).
  split; [|done]. exists new. split; [done|]. split; [done|lia].
Qed.

Lemma migrate_movie_step_inv (fits : CatalogRow → bool) (md : DataFrame)
    (db : Database) (st : MovieLoop) (row : CatalogRow) :
  row ∈ md →
  session_inv md db (session st) (migrated_count st) →
  session_inv md db (session (migrate_movie_step fits st row))
    (migrated_count (migrate_movie_step fits st row)).
Proof.
  intros Hrow Hinv. unfold migrate_movie_step.
  destruct (flush fits (session st)) as [s1|e] eqn:Hs1; simpl;
    [|by apply session_inv_rollback].
  pose proof Hs1 as (_ & Hp1 & _)%flush_Ok.
  apply (session_inv_flush _ _ _ _ _ _ Hs1) in Hinv.
  destruct (movie_by_title (view s1) (row_title row)) eqn:Hfind; simpl;
    [done|].
  pose proof (session_inv_add_movie md db s1 _ row Hrow Hp1 Hfind Hinv)
    as Hadd.
  case_bool_decide; [|done].
  destruct (commit fits (add_movie s1 row)) as [s2|e] eqn:Hs2.
  - by apply (session_inv_commit _ _ _ _ _ _ Hs2).
  - by apply session_inv_rollback.
Qed.

Lemma migrate_movie_step_counts (fits : CatalogRow → bool) (st : MovieLoop)
    (row : CatalogRow) :
  migrated_count (migrate_movie_step fits st row) +
    skipped_count (migrate_movie_step fits st row) ≤
  S (migrated_count st + skipped_count st).
Proof.
  unfold migrate_movie_step.
  destruct (flush fits (session st)); simpl; [|lia].
  destruct (movie_by_title _ _); simpl; lia.
Qed.

Lemma foldl_migrate_movie_step_counts (fits : CatalogRow → bool)
    (md : DataFrame) (st : MovieLoop) :
  migrated_count (foldl (migrate_movie_step fits) st md) +
    skipped_count (foldl (migrate_movie_step fits) st md) ≤
  migrated_count st + skipped_count st + length md.
Proof.
  revert st. induction md as [|row md IH]; intros st; simpl; [lia|].
  pose proof (IH (migrate_movie_step fits st row)).
  pose proof (migrate_movie_step_counts fits st row). lia.
Qed.

(** The frame of [migrate_movies]: what it leaves, whether it succeeds or
    not. *)
Lemma migrate_movies_frame (fits : CatalogRow → bool) (md : DataFrame)
    (db : Database) :
  (∃ new,
     movies (mm_db (migrate_movies fits md db)) = movies db ++ new ∧
     Forall (from_catalog md) new ∧
     length new ≤ mm_migrated (migrate_movies fits md db)) ∧
  recommendations (mm_db (migrate_movies fits md db)) = recommendations db ∧
  similarity_pairs (mm_db (migrate_movies fits md db)) = similarity_pairs db ∧
  recommendation_history (mm_db (migrate_movies fits md db)) =
    recommendation_history db ∧
  mm_migrated (migrate_movies fits md db) +
    mm_skipped (migrate_movies fits md db) ≤ length md ∧
  (NoDup (titles db) → NoDup (titles (mm_db (migrate_movies fits md db)))).
Proof.
  set (st0 := {| session := {| committed := db; flushed := []; pending := [] |};
                 migrated_count := 0; skipped_count := 0 |}).
  assert (session_inv md db
            (session (foldl (migrate_movie_step fits) st0 md))
            (migrated_count (foldl (migrate_movie_step fits) st0 md))) as Hinv.
  { apply (foldl_inv
      (λ st, session_inv md db (session st) (migrated_count st))).
    - intros st row Hrow. by apply migrate_movie_step_inv.
    - unfold session_inv, visible. simpl.
      split; [exists []; by rewrite app_nil_r|].
      repeat split; try done. intros ?. by rewrite !app_nil_r. }
  pose proof (foldl_migrate_movie_step_counts fits md st0) as Hcount.
  unfold migrate_movies. fold st0.
  set (st := foldl (migrate_movie_step fits) st0 md) in *.
  assert (∀ s, session_inv md db s (migrated_count st) →
               flushed s = [] → pending s = [] →
    (∃ new, movies (committed s) = movies db ++ new ∧
            Forall (from_catalog md) new ∧
            length new ≤ migrated_count st) ∧
    recommendations (committed s) = recommendations db ∧
    similarity_pairs (committed s) = similarity_pairs db ∧
    recommendation_history (committed s) = recommendation_history db ∧
    (NoDup (titles db) → NoDup (titles (committed s)))) as Hfinal.
  { intros s ((new & Hm & Hfrom & Hlen) & Hr & Hp & Hh & _ & Hnd) Hf0 Hp0.
    rewrite Hf0, Hp0 in *. rewrite app_nil_r in Hfrom.
    split; [exists new; split; [done|]; split; [done|simpl in Hlen; lia]|].
    repeat split; try done. intros Hdb. specialize (Hnd Hdb).
    unfold visible in Hnd. rewrite Hf0 in Hnd. by rewrite !app_nil_r in Hnd. }
  destruct (commit fits (session st)) as [s|e] eqn:Hs; simpl.
  - pose proof Hs as (Hf0 & Hp0 & _)%commit_Ok.
    apply (session_inv_commit _ _ _ _ _ _ Hs) in Hinv.
    destruct (Hfinal s Hinv Hf0 Hp0) as (? & ? & ? & ? & ?).
    repeat split; try done; simpl in Hcount; lia.
  - destruct (Hfinal (rollback (session st))) as (? & ? & ? & ? & ?);
      [by apply session_inv_rollback|done..|].
    repeat split; try done; simpl in Hcount; lia.
Qed.

(** *** Runs with refused rows *)

(** A refused insert loses the rows queued since the last commit, and
    the row at whose query the flush failed is neither migrated nor
    skipped.  Of the five rows of [shared_key_catalog], "Y" carries the
    [id] of "X": the flush before the query for "Z" fails, "X", "Y" and
    "Z" are lost, and four rows are counted as migrated.  The table holds
    "W" and "V" only, and the ranks stored for the two are their ranks
    among all five rows of the matrix: "V" is fourth for "W", and "W" is
    third for "V". *)
Example shared_key_run :
  (main int32 shared_key_catalog shared_key_matrix empty_db).1 = true ∧
  titles (main int32 shared_key_catalog shared_key_matrix empty_db).2 =
    ["W"; "V"] ∧
  rank <$> recommendations
             (main int32 shared_key_catalog shared_key_matrix empty_db).2 =
    [4; 3] ∧
  mm_migrated (migrate_movies int32 shared_key_catalog empty_db) = 4 ∧
  mm_skipped (migrate_movies int32 shared_key_catalog empty_db) = 0.
Proof. by vm_compute. Qed.

(** Rows refused one by one are counted as migrated: the six rows of the
    doubled toy catalog bring the [id]s of the three movies stored, every
    flush fails, and the pass returns true with three rows migrated, none
    skipped and the table as it was. *)
Example refused_rows_are_counted :
  migrate_movies int32 (toy_catalog ++ toy_catalog)
    (ingested int32 twin_catalog) =
  {| mm_ok := true; mm_db := ingested int32 twin_catalog;
     mm_migrated := 3; mm_skipped := 0 |}.
Proof. by vm_compute. Qed.

(** A value that the column cannot hold fails the final commit: the pass
    returns false and the table stays empty. *)
Example wide_key_fails :
  migrate_movies int32 wide_key_catalog empty_db =
  {| mm_ok := false; mm_db := empty_db; mm_migrated := 1; mm_skipped := 0 |} ∧
  main int32 wide_key_catalog [[1%Q]] empty_db = (false, empty_db).
Proof. by vm_compute. Qed.

(** *** A second run *)

Lemma migrate_movie_step_skip (fits : CatalogRow → bool) (db : Database)
    (n k : nat) (row : CatalogRow) :
  row_title row ∈ titles db →
  migrate_movie_step fits
    {| session := {| committed := db; flushed := []; pending := [] |};
       migrated_count := n; skipped_count := k |} row =
    {| session := {| committed := db; flushed := []; pending := [] |};
       migrated_count := n; skipped_count := S k |}.
Proof.
  intros [m Hm]%movie_by_title_is_Some. unfold migrate_movie_step.
  cbn [session migrated_count skipped_count].
  by rewrite flush_clean, view_clean, Hm.
Qed.

(** When the table holds every title of the catalog, the pass skips
    every row and leaves the database as it is. *)
Lemma migrate_movies_settled (fits : CatalogRow → bool) (md : DataFrame)
    (db : Database) :
  (∀ row, row ∈ md → row_title row ∈ titles db) →
  migrate_movies fits md db =
    {| mm_ok := true; mm_db := db;
       mm_migrated := 0; mm_skipped := length md |}.
Proof.
  intros Hin.
  assert (∀ k, foldl (migrate_movie_step fits)
      {| session := {| committed := db; flushed := []; pending := [] |};
         migrated_count := 0; skipped_count := k |} md =
      {| session := {| committed := db; flushed := []; pending := [] |};
         migrated_count := 0; skipped_count := k + length md |}) as Hloop.
  { induction md as [|row md IH]; intros k; simpl.
    { by rewrite Nat.add_0_r. }
    rewrite migrate_movie_step_skip by (apply Hin; by left).
    rewrite IH; [f_equal; lia|].
    intros r Hr. apply Hin. by right. }
  unfold migrate_movies. rewrite (Hloop 0).
  cbn [session migrated_count skipped_count].
  unfold commit. rewrite flush_clean. simpl. by rewrite view_clean.
Qed.

(** C10 (amended): the movie-ingestion pass is idempotent on a catalog
    whose new rows the storage accepts.  When the rows whose title the
    table does not hold fit the columns, no two of them carry the same
    [id], and no movie of the table carries the [id] of one of them, the
    first run succeeds and a second run over the same data inserts
    nothing: it migrates no row, skips every row of the catalog and
    leaves the database exactly as the first run left it. *)
Theorem migrate_movies_idempotent (fits : CatalogRow → bool) (md : DataFrame)
    (db : Database) :
  insertable fits db md →
  mm_ok (migrate_movies fits md db) = true ∧
  migrate_movies fits md (mm_db (migrate_movies fits md db)) =
    {| mm_ok := true;
       mm_db := mm_db (migrate_movies fits md db);
       mm_migrated := 0;
       mm_skipped := length md |}.
Proof.
  intros Hmd. rewrite (migrate_movies_accepted fits md db Hmd). simpl.
  split; [done|]. apply migrate_movies_settled. intros row Hrow.
  unfold accepted. apply foldl_accept_step_titles.
  right. by apply list_elem_of_fmap_2.
Qed.

Lemma migrate_movies_idempotent_witness :
  mm_ok (migrate_movies int32 line_catalog (ingested int32 twin_catalog))
    = true ∧
  migrate_movies int32 line_catalog
    (mm_db (migrate_movies int32 line_catalog (ingested int32 twin_catalog))) =
    {| mm_ok := true;
       mm_db :=
         mm_db (migrate_movies int32 line_catalog (ingested int32 twin_catalog));
       mm_migrated := 0;
       mm_skipped := length line_catalog |}.
Proof.
  apply (migrate_movies_idempotent int32 line_catalog
           (ingested int32 twin_catalog)).
  split; [by apply (bool_decide_unpack _); vm_compute|].
  split; [by apply (bool_decide_unpack _); vm_compute|].
  repeat constructor; intros z [= <-];
    by apply (bool_decide_unpack _); vm_compute.
Defined.

(** For every catalog the claim fails.  Of the four rows of
    [clash_catalog] three carry the same [id].  On an empty database the
    first run loses "A" and "B" to the rollback that the refused insert
    of "B" brings about, skips "C", whose query met the refusal, and
    stores "D".  The second run is refused "A" at the query for "B",
    because "D" now holds the [id], and so reaches "C" with a session
    that can store it: it adds a movie. *)
Lemma migrate_movies_second_run_adds :
  titles (mm_db (migrate_movies int32 clash_catalog empty_db)) = ["D"] ∧
  titles (mm_db (migrate_movies int32 clash_catalog
                   (mm_db (migrate_movies int32 clash_catalog empty_db)))) =
    ["D"; "C"] ∧
  mm_migrated (migrate_movies int32 clash_catalog
                 (mm_db (migrate_movies int32 clash_catalog empty_db))) = 2 ∧
  migrate_movies int32 clash_catalog
    (mm_db (migrate_movies int32 clash_catalog empty_db)) ≠
    {| mm_ok := true;
       mm_db := mm_db (migrate_movies int32 clash_catalog empty_db);
       mm_migrated := 0;
       mm_skipped := length clash_catalog |}.
Proof.
  split; [by vm_compute|]. split; [by vm_compute|]. split; [by vm_compute|].
  intros Heq%(f_equal mm_migrated). vm_compute in Heq. discriminate.
Qed.


(** ** The identifier map *)

Lemma foldl_insert_title_notin (ms : list Movie) (m0 : gmap string nat)
    (t : string) :
  t ∉ movie_title <$> ms →
  foldl (λ m mv, <[movie_title mv := movie_id mv]> m) m0 ms !! t = m0 !! t.
Proof.
  revert m0. induction ms as [|mv ms IH]; intros m0 Hnotin; simpl; [done|].
  rewrite fmap_cons, not_elem_of_cons in Hnotin. destruct Hnotin as [Hne Hnotin].
  rewrite IH by done. by apply lookup_insert_ne.
Qed.

Lemma foldl_insert_title_lookup (ms : list Movie) (m0 : gmap string nat)
    (i : nat) (mv : Movie) :
  NoDup (movie_title <$> ms) →
  ms !! i = Some mv →
  foldl (λ m mv, <[movie_title mv := movie_id mv]> m) m0 ms !! movie_title mv
    = Some (movie_id mv).
Proof.
  revert m0 i. induction ms as [|mv' ms IH]; intros m0 i Hnd Hi; [done|].
  rewrite fmap_cons in Hnd. apply NoDup_cons in Hnd as [Hhd Hnd]. simpl.
  destruct i as [|i]; simpl in Hi.
  - injection Hi as ->. rewrite foldl_insert_title_notin by done.
    apply lookup_insert_eq.
  - by apply IH with i.
Qed.

(** ** A catalog of pairwise distinct titles and keys, ingested into an
    empty database

    The catalog of the data model: titles are unique, keys are unique,
    and the rows fit the columns of the storage engine. *)

Section fresh_catalog.
Context (fits : CatalogRow → bool) (md : DataFrame).
Context (Hnd : NoDup (row_title <$> md)).
Context (Hcolumns : Forall (λ row, fits row = true) md).
Context (Hkeys : NoDup (omap row_id md)).

Lemma insertable_fresh : insertable fits empty_db md.
Proof.
  unfold insertable. rewrite new_rows_empty by done.
  repeat split; [done..|]. constructor.
Qed.

Lemma migrate_movies_fresh :
  migrate_movies fits md empty_db =
    {| mm_ok := true;
       mm_db := acc_db (accepted md empty_db);
       mm_migrated := acc_migrated (accepted md empty_db);
       mm_skipped := acc_skipped (accepted md empty_db) |}.
Proof. apply migrate_movies_accepted, insertable_fresh. Qed.

(** No pass of [main] fails. *)
Lemma main_fresh (sim : Matrix) :
  main fits md sim empty_db =
    (true,
     migrate_similarity_matrix md sim
       (migrate_similarity_data md sim (ingested fits md))).
Proof. unfold main, ingested. by rewrite migrate_movies_fresh. Qed.

Lemma movies_ingested :
  movies (ingested fits md) = imap (λ i, movie_of_row (S i)) md.
Proof.
  unfold ingested. rewrite migrate_movies_fresh. simpl. unfold accepted.
  rewrite foldl_accept_step_fresh; [done|done|].
  apply Forall_forall. intros r _. simpl. unfold titles. simpl.
  apply not_elem_of_nil.
Qed.

Lemma titles_ingested : titles (ingested fits md) = row_title <$> md.
Proof.
  unfold titles. rewrite movies_ingested, fmap_imap.
  rewrite <-(imap_const row_title md). done.
Qed.

Lemma list_find_title (i : nat) (r : CatalogRow) :
  md !! i = Some r →
  list_find (λ r', row_title r' = row_title r) md = Some (i, r).
Proof.
  intros Hi. apply list_find_Some. repeat split; [done..|].
  intros j r' Hj Hlt Heq.
  assert (j = i); [|lia].
  apply (NoDup_lookup _ _ _ (row_title r) Hnd);
    rewrite list_lookup_fmap, ?Hj, ?Hi; simpl; congruence.
Qed.

Lemma movie_by_title_ingested (db : Database) (i : nat) (r : CatalogRow) :
  movies db = movies (ingested fits md) →
  md !! i = Some r →
  movie_by_title db (row_title r) = Some (movie_of_row (S i) r).
Proof.
  intros Hm Hi. unfold movie_by_title. rewrite Hm, movies_ingested.
  apply fmap_Some. exists (i, movie_of_row (S i) r). split; [|done].
  apply list_find_Some. repeat split.
  - by rewrite list_lookup_imap, Hi.
  - intros j m Hj Hlt Heq.
    rewrite list_lookup_imap in Hj.
    destruct (md !! j) as [r'|] eqn:Hj'; [|done]. injection Hj as <-.
    simpl in Heq. assert (j = i); [|lia].
    apply (NoDup_lookup _ _ _ (row_title r) Hnd);
      rewrite list_lookup_fmap, ?Hj', ?Hi; simpl; congruence.
Qed.

Lemma movie_by_id_ingested (db : Database) (i : nat) (r : CatalogRow) :
  movies db = movies (ingested fits md) →
  md !! i = Some r →
  movie_by_id db (S i) = Some (movie_of_row (S i) r).
Proof.
  intros Hm Hi. unfold movie_by_id. rewrite Hm, movies_ingested.
  apply fmap_Some. exists (i, movie_of_row (S i) r). split; [|done].
  apply list_find_Some. repeat split.
  - by rewrite list_lookup_imap, Hi.
  - intros j m Hj Hlt Heq.
    rewrite list_lookup_imap in Hj.
    destruct (md !! j) as [r'|]; [|done]. injection Hj as <-.
    simpl in Heq. lia.
Qed.

Lemma get_id_ingested (db : Database) (i : nat) (r : CatalogRow) :
  movies db = movies (ingested fits md) →
  md !! i = Some r →
  get_id (movie_id_map db) (row_title r) = Some (S i).
Proof.
  intros Hm Hi. unfold get_id, movie_id_map.
  rewrite Hm.
  rewrite (foldl_insert_title_lookup _ _ i (movie_of_row (S i) r)).
  - done.
  - fold (titles (ingested fits md)). by rewrite titles_ingested.
  - by rewrite movies_ingested, list_lookup_imap, Hi.
Qed.

(** *** The inner loop of [migrate_similarity_data] *)

Lemma enumerate_from_cons {A} (k : nat) (x : A) (l : list A) :
  enumerate_from k (x :: l) = (k, x) :: enumerate_from (S k) l.
Proof.
  unfold enumerate_from. simpl. rewrite Nat.add_0_r. f_equal.
  apply imap_ext. intros i y _. simpl. f_equal. lia.
Qed.

Lemma existing_recommendation_None (db : Database) (s t : nat) :
  existing_recommendation db s t = None ↔
  ∀ r, r ∈ recommendations db → source_movie_id r = s →
       recommended_movie_id r ≠ t.
Proof.
  unfold existing_recommendation.
  rewrite fmap_None, list_find_None, Forall_forall. split.
  - intros H r Hr Hs Ht. by apply (H r).
  - intros H r Hr [Hs Ht]. by apply (H r).
Qed.

Lemma recommendation_loop (id_map : gmap string nat)
    (l : list (nat * score)) (db : Database) (s k : nat) :
  (∀ i r, md !! i = Some r → get_id id_map (row_title r) = Some (S i)) →
  Forall (λ p, p.1 < length md) l →
  NoDup (fst <$> l) →
  (∀ r p, r ∈ recommendations db → p ∈ l → source_movie_id r = s →
          recommended_movie_id r ≠ S p.1) →
  let db' := foldl (recommendation_step md id_map s) db (enumerate_from k l) in
  movies db' = movies db ∧
  recommendations db' = recommendations db ++
    imap (rec_of (S (length (recommendations db))) s k) l ∧
  similarity_pairs db' = similarity_pairs db ∧
  recommendation_history db' = recommendation_history db.
Proof.
  intros Hids. revert db k.
  induction l as [|[idx x] l IH]; intros db k Hbound Hnodup Hfresh; cbv zeta.
  { simpl. by rewrite app_nil_r. }
  rewrite enumerate_from_cons. simpl.
  apply Forall_cons in Hbound as [Hidx Hbound]. simpl in Hidx.
  rewrite fmap_cons in Hnodup. apply NoDup_cons in Hnodup as [Hhd Hnodup].
  destruct (lookup_lt_is_Some_2 md idx Hidx) as [target_row Htarget].
  unfold getitem. rewrite Htarget, (Hids idx target_row Htarget).
  assert (existing_recommendation db s (S idx) = None) as ->.
  { apply existing_recommendation_None. intros r Hr Hs.
    apply (Hfresh r (idx, x)); [done|left|done]. }
  set (db1 := add_recommendation db s (S idx) x k).
  destruct (IH db1 (S k)) as (Hm & Hr & Hs & Hh); [done|done| |].
  { intros r p [Hr| ->%list_elem_of_singleton]%elem_of_app Hp Hs.
    - apply (Hfresh r p); [done|by right|done].
    - simpl. intros [= Heq]. apply Hhd. simpl. rewrite Heq.
      by apply list_elem_of_fmap_2. }
  rewrite Hm, Hr, Hs, Hh. simpl. repeat split; try done.
  rewrite <-app_assoc. f_equal. simpl. f_equal.
  - unfold rec_of. simpl. f_equal; lia.
  - apply imap_ext. intros j p _. unfold rec_of. simpl.
    rewrite length_app. simpl. f_equal; lia.
Qed.

(** *** The outer loop of [migrate_similarity_data] *)

Lemma filter_none {A} (P : A → Prop) `{!∀ x, Decision (P x)} (l : list A) :
  Forall (λ x, ¬ P x) l → filter P l = [].
Proof.
  induction 1 as [|x l Hx _ IH]; [done|].
  by rewrite filter_cons_False.
Qed.

Lemma rows_of_app (db db' : Database) (l : list Recommendation) (s : nat) :
  recommendations db' = recommendations db ++ l →
  rows_of db' s = rows_of db s ++ filter (λ r, source_movie_id r = s) l.
Proof. intros Hr. unfold rows_of. by rewrite Hr, filter_app. Qed.

Lemma filter_source_block (base s start s' : nat) (l : list (nat * score)) :
  filter (λ r, source_movie_id r = s') (imap (rec_of base s start) l) =
  if decide (s = s') then imap (rec_of base s start) l else [].
Proof.
  revert base start. induction l as [|p l IH]; intros base start; simpl.
  { by case_decide. }
  erewrite imap_ext; [|intros j q _; simpl;
    by instantiate (1 := λ j q, rec_of (S base) s (S start) j q);
    unfold rec_of; f_equal; lia].
  rewrite filter_cons, IH. simpl.
  repeat case_decide; done.
Qed.

Context (sim : Matrix) (Hrows : Forall (λ row, length row ≤ length md) sim).

Lemma row_length_bound (i : nat) (row : list score) :
  sim !! i = Some row → length row ≤ length md.
Proof.
  intros Hrow%list_elem_of_lookup_2.
  by apply (proj1 (Forall_forall _ _) Hrows row).
Qed.

Lemma ranked_neighbours_in_catalog (i : nat) (row : list score) :
  sim !! i = Some row →
  Forall (λ p, p.1 < length md) (ranked_neighbours row).
Proof.
  intros Hrow%row_length_bound.
  eapply Forall_impl; [apply ranked_neighbours_bound|]. simpl. lia.
Qed.

Lemma ingested_tables :
  recommendations (ingested fits md) = [] ∧
  similarity_pairs (ingested fits md) = [] ∧
  recommendation_history (ingested fits md) = [].
Proof.
  unfold ingested.
  by destruct (migrate_movies_frame fits md empty_db) as (_ & -> & -> & -> & _).
Qed.

Lemma similarity_data_inv_0 :
  similarity_data_inv fits md sim 0 (ingested fits md).
Proof.
  unfold similarity_data_inv.
  destruct ingested_tables as (Hr & -> & ->). rewrite Hr.
  repeat split; [lia|]. by intros r ?%elem_of_nil.
Qed.

Lemma similarity_data_inv_step (db : Database) (n : nat) (r : CatalogRow) :
  md !! n = Some r →
  similarity_data_inv fits md sim n db →
  similarity_data_inv fits md sim (S n)
    (source_step md sim (movie_id_map (ingested fits md)) db (n, r)).
Proof.
  intros Hn (Hmovies & Hpairs & Hhist & Hdone & Hsrc).
  assert (rows_of db (S n) = []) as Hnone.
  { unfold rows_of. apply filter_none, Forall_forall.
    intros rec (i & Hi & Heq)%Hsrc. lia. }
  unfold source_step. rewrite (get_id_ingested (ingested fits md) n r) by done.
  unfold getitem. destruct (sim !! n) as [row|] eqn:Hrow.
  - destruct (recommendation_loop (movie_id_map (ingested fits md))
      (ranked_neighbours row) db (S n) 1) as (Hm' & Hr' & Hs' & Hh').
    + intros i r'. by apply get_id_ingested.
    + by apply (ranked_neighbours_in_catalog n).
    + apply NoDup_ranked_neighbours.
    + intros rec p (i & Hi & Heq)%Hsrc _ Hs. lia.
    + fold (ranked_neighbours row).
      set (db' := foldl _ db _) in *.
      split; [congruence|]. split; [congruence|]. split; [congruence|]. split.
      * intros i Hi.
        rewrite (rows_of_app db db' _ (S i) Hr'), filter_source_block.
        destruct (decide (i = n)) as [->|Hne].
        -- rewrite Hnone, decide_True by done.
           eexists. unfold persisted_block. by rewrite Hrow.
        -- rewrite decide_False by lia. rewrite app_nil_r.
           apply Hdone. lia.
      * intros rec. rewrite Hr', elem_of_app.
        intros [(i & Hi & Heq)%Hsrc|Hin].
        -- exists i. split; [lia|done].
        -- exists n. split; [lia|].
           apply elem_of_lookup_imap in Hin as (j & p & -> & _). done.
  - split; [done|]. split; [done|]. split; [done|]. split.
    + intros i Hi. destruct (decide (i = n)) as [->|Hne].
      * exists 0. unfold persisted_block. by rewrite Hrow.
      * apply Hdone. lia.
    + intros rec (i & Hi & Heq)%Hsrc. exists i. split; [lia|done].
Qed.

Lemma similarity_data_inv_final :
  similarity_data_inv fits md sim (length md)
    (migrate_similarity_data md sim (ingested fits md)).
Proof.
  unfold migrate_similarity_data.
  apply (foldl_enumerate_inv _ (similarity_data_inv fits md sim)).
  - apply similarity_data_inv_0.
  - intros n r db Hn Hdb. by apply similarity_data_inv_step.
Qed.

(** *** The similarity-matrix pass leaves the other tables alone *)

Lemma pair_step_tables (id_map : gmap string nat) (i : nat)
    (row1 : CatalogRow) (db : Database) (entry : nat * CatalogRow) :
  movies (pair_step sim id_map i row1 db entry) = movies db ∧
  recommendations (pair_step sim id_map i row1 db entry) = recommendations db ∧
  recommendation_history (pair_step sim id_map i row1 db entry) =
    recommendation_history db.
Proof.
  unfold pair_step. destruct entry as [j row2].
  case_bool_decide; [done|].
  destruct (get_id id_map (row_title row1)); [|done].
  destruct (get_id id_map (row_title row2)); [|done].
  destruct (existing_similarity db _ _); [done|].
  destruct (_ ≫= _); [|done].
  by destruct (above_threshold _).
Qed.

Lemma foldl_tables {B} (f : Database → B → Database) (l : list B)
    (db : Database) :
  (∀ db b, movies (f db b) = movies db ∧
           recommendations (f db b) = recommendations db ∧
           recommendation_history (f db b) = recommendation_history db) →
  movies (foldl f db l) = movies db ∧
  recommendations (foldl f db l) = recommendations db ∧
  recommendation_history (foldl f db l) = recommendation_history db.
Proof.
  intros Hf. revert db. induction l as [|b l IH]; intros db; simpl; [done|].
  destruct (IH (f db b)) as (-> & -> & ->). apply Hf.
Qed.

Lemma migrate_similarity_matrix_tables (db : Database) :
  movies (migrate_similarity_matrix md sim db) = movies db ∧
  recommendations (migrate_similarity_matrix md sim db) = recommendations db ∧
  recommendation_history (migrate_similarity_matrix md sim db) =
    recommendation_history db.
Proof.
  unfold migrate_similarity_matrix. apply foldl_tables.
  intros db' [i row1]. apply foldl_tables.
  intros db'' entry. apply pair_step_tables.
Qed.

(** *** The persisted rows after [main] *)

Lemma main_movies : movies (main fits md sim empty_db).2 = movies (ingested fits md).
Proof.
  rewrite main_fresh. simpl.
  destruct (migrate_similarity_matrix_tables
              (migrate_similarity_data md sim (ingested fits md))) as (-> & _).
  apply similarity_data_inv_final.
Qed.

Lemma main_recommendations :
  recommendations (main fits md sim empty_db).2 =
  recommendations (migrate_similarity_data md sim (ingested fits md)).
Proof.
  rewrite main_fresh. simpl.
  by destruct (migrate_similarity_matrix_tables
                 (migrate_similarity_data md sim (ingested fits md))) as (_ & -> & _).
Qed.

Lemma rows_of_main (i : nat) :
  i < length md →
  ∃ base, rows_of (main fits md sim empty_db).2 (S i) = persisted_block sim base i.
Proof.
  intros Hi. unfold rows_of. rewrite main_recommendations.
  destruct similarity_data_inv_final as (_ & _ & _ & Hdone & _).
  by apply Hdone.
Qed.


Lemma rec_of_rank_sorted (base s start : nat) (l : list (nat * score)) :
  StronglySorted (λ a b, rank_lt b a = false) (imap (rec_of base s start) l).
Proof.
  revert base start. induction l as [|p l IH]; intros base start; simpl;
    constructor.
  - erewrite imap_ext; [apply (IH (S base) (S start))|].
    intros j q _. unfold rec_of. simpl. f_equal; lia.
  - apply Forall_forall. intros r (j & q & -> & _)%elem_of_lookup_imap.
    unfold rank_lt. apply Nat.ltb_ge. simpl. lia.
Qed.

Lemma stable_sort_rank_block (base s start : nat) (l : list (nat * score)) :
  stable_sort rank_lt (imap (rec_of base s start) l) =
  imap (rec_of base s start) l.
Proof.
  apply stable_sort_id, StronglySorted_Sorted, rec_of_rank_sorted.
Qed.

Lemma recommendations_for_main (i : nat) :
  i < length md →
  ∃ base,
    recommendations_for (main fits md sim empty_db).2 (S i) =
    persisted_block sim base i.
Proof.
  intros Hi. destruct (rows_of_main i Hi) as [base Hrows_of].
  exists base. unfold recommendations_for. fold (rows_of (main fits md sim empty_db).2 (S i)).
  rewrite Hrows_of. unfold persisted_block.
  destruct (sim !! i) as [row|]; [|done].
  rewrite stable_sort_rank_block. apply take_ge.
  rewrite length_imap, length_ranked_neighbours. lia.
Qed.

Lemma persisted_items_block (db : Database) (base s start : nat)
    (l : list (nat * score)) (items : list Item) :
  movies db = movies (ingested fits md) →
  Forall (λ p, p.1 < length md) l →
  persisted_items db (imap (rec_of base s start) l) = Ok items ↔
  Forall2 (item_for md) l items.
Proof.
  intros Hm Hbound. unfold persisted_items. rewrite mapM_Ok.
  revert base start items.
  induction Hbound as [|p l Hp _ IH]; intros base start items; simpl.
  { split; inversion 1; constructor. }
  erewrite imap_ext; [|intros j q _; simpl;
    by instantiate (1 := λ j q, rec_of (S base) s (S start) j q);
    unfold rec_of; f_equal; lia].
  destruct (lookup_lt_is_Some_2 md p.1 Hp) as [r Hr].
  pose proof (movie_by_id_ingested db p.1 r Hm Hr) as Hid.
  split; inversion 1 as [|? it ? rest Hit Hrest]; simplify_eq; constructor.
  - simpl in Hit. rewrite Hid in Hit. injection Hit as <-. by exists r.
  - by apply (IH (S base) (S start)).
  - destruct Hit as (r' & Hr' & ->). simpl. rewrite Hid. simpl. congruence.
  - by apply (IH (S base) (S start)).
Qed.

(** *** The handler on the migrated database *)


Lemma recommend_movies_fallback (env : Pickle) (req : Request) (a : bool)
    (db : Database) (t : string) :
  json_movie req = Some t →
  (movie_by_title db t = None ∨
   ∃ m, movie_by_title db t = Some m ∧ recommendations_for db (movie_id m) = []) →
  recommend_movies env req a db =
    match pickle_fallback env t with
    | Ok r => (r, db, [])
    | Raise e => (Failure FailedToGenerate, db, [GenerationFailed e])
    end.
Proof.
  intros Ht Hdb. unfold recommend_movies, recommend_body. rewrite Ht.
  destruct Hdb as [->|(m & -> & ->)]; by destruct (pickle_fallback env t).
Qed.


Lemma migrated_queries (db : Database) :
  migrated fits md sim db →
  (∀ t, movie_by_title db t = movie_by_title (main fits md sim empty_db).2 t) ∧
  (∀ s, rows_of db s = rows_of (main fits md sim empty_db).2 s) ∧
  (∀ env req a,
     response (recommend_movies env req a db) =
     response (recommend_movies env req a (main fits md sim empty_db).2)).
Proof.
  intros [Hm Hr]. repeat split.
  - intros t. unfold movie_by_title. by rewrite Hm.
  - intros s. unfold rows_of. by rewrite Hr.
  - intros env req a. by apply response_ext.
Qed.



(** What sortedness of the ranked pairs means for the items. *)
Lemma ranked_order_facts (ranked : list (nat * score)) (items : list Item) :
  Forall2 (item_for md) ranked items →
  StronglySorted ranked_before ranked →
  (∀ i j p q, ranked !! i = Some p → ranked !! j = Some q → i < j →
     (q.2 <= p.2)%Q ∧ ((p.2 == q.2)%Q → p.1 < q.1)) ∧
  (∀ i it1 it2, items !! i = Some it1 → items !! S i = Some it2 →
     (item_score it2 <= item_score it1)%Q).
Proof.
  intros Hitems Hsorted.
  assert (∀ i j p q, ranked !! i = Some p → ranked !! j = Some q → i < j →
    ranked_before p q) as Hlt.
  { intros i j p q Hp Hq Hij.
    by apply (StronglySorted_lookup_lt _ _ i j p q Hsorted). }
  split.
  - intros i j p q Hp Hq Hij.
    pose proof (Hlt i j p q Hp Hq Hij) as Hpq.
    split; [by apply ranked_before_le|].
    intros Heq. destruct Hpq as [Hgt|[_ ?]]; [|done].
    rewrite Heq in Hgt. by apply Qlt_irrefl in Hgt.
  - intros i it1 it2 H1 H2.
    destruct (Forall2_lookup_r _ _ _ _ _ Hitems H1) as (p & Hp & r1 & _ & ->).
    destruct (Forall2_lookup_r _ _ _ _ _ Hitems H2) as (q & Hq & r2 & _ & ->).
    simpl. apply round4_mono, ranked_before_le. apply (Hlt i (S i)); [done..|lia].
Qed.

(** C2: the order of every returned list.  The items are the image, in
    order, of a list [ranked] of pairs (matrix index, full-precision score
    of that index in the row of the requested movie) in which an earlier
    pair never has the smaller score and, among pairs of equal score, the
    pair with the smaller matrix index comes first; the rounded scores of
    the items are non-increasing.  This holds for every answer of the
    in-memory path, and for every answer the handler gives on a database
    migrated by [main] from the same catalog (pairwise distinct titles
    and keys, rows that fit the columns of the storage engine) and
    matrix (rows no longer than the catalog) as the loaded pickles. *)
Theorem recommendations_ordered (req : Request) (a : bool) (db : Database)
    (sel : string) (items : list Item) (src : provenance) :
  src = FromPickle ∨ migrated fits md sim db →
  response (recommend_movies (loaded md sim) req a db) =
    Recommended sel items src →
  ∃ ranked,
    (∀ p, p ∈ ranked →
       ∃ row, source_row md sim sel row ∧ row !! p.1 = Some p.2) ∧
    Forall2 (item_for md) ranked items ∧
    (∀ i j p q, ranked !! i = Some p → ranked !! j = Some q → i < j →
       (q.2 <= p.2)%Q ∧ ((p.2 == q.2)%Q → p.1 < q.1)) ∧
    (∀ i it1 it2, items !! i = Some it1 → items !! S i = Some it2 →
       (item_score it2 <= item_score it1)%Q).
Proof.
  intros Hcase Hresp.
  assert (items = [] ∨
          ∃ row, source_row md sim sel row ∧
                 Forall2 (item_for md) (ranked_neighbours row) items)
    as [->|(row & Hsource & Hitems)].
  { destruct src.
    - destruct Hcase as [?|(_ & _ & Hresponse)%migrated_queries]; [done|].
      rewrite Hresponse in Hresp. clear db Hresponse.
      apply response_inv in Hresp as (Hsel & m & Hm & _ & Hpers).
      assert (sel ∈ row_title <$> md)
        as (r & -> & [i Hi]%list_elem_of_lookup)%list_elem_of_fmap.
      { rewrite <-titles_ingested. unfold titles. rewrite <-main_movies.
        apply movie_by_title_is_Some. by rewrite Hm. }
      rewrite (movie_by_title_ingested _ i r main_movies Hi) in Hm.
      injection Hm as <-.
      change (movie_id (movie_of_row (S i) r)) with (S i) in *.
      assert (i < length md) as Hlt by (by eapply lookup_lt_Some).
      destruct (recommendations_for_main i Hlt) as [base Hblock].
      rewrite Hblock in Hpers. unfold persisted_block in Hpers.
      destruct (sim !! i) as [row|] eqn:Hrow.
      + right. exists row. split.
        * exists i, r. split; [by apply list_find_title|done].
        * eapply persisted_items_block; [apply main_movies| |done].
          by apply (ranked_neighbours_in_catalog i).
      + left. by injection Hpers as <-.
    - apply response_FromPickle in Hresp
        as (md' & sim' & [= <-] & [= <-] & Hrec).
      apply recommend_from_pickle_Ok in Hrec
        as (i & r0 & row & Hfind & Hrow & _ & _ & Hitems).
      right. exists row. split; [by exists i, r0|done]. }
  - exists []. split; [by intros p ?%elem_of_nil|].
    split; [constructor|]. split; [by intros i j p q ?|by intros i it1 it2 ?].
  - exists (ranked_neighbours row). split.
    { intros p Hp. exists row. split; [done|].
      by apply ranked_neighbours_scores. }
    split; [done|].
    apply ranked_order_facts; [done|apply ranked_neighbours_sorted].
Qed.

(** *** The similarity-matrix pass *)

Lemma above_threshold_true (x : score) :
  above_threshold x = true ↔ (threshold < x)%Q.
Proof.
  unfold above_threshold.
  rewrite negb_true_iff, <-not_true_iff_false, Qle_bool_iff.
  split; [apply Qnot_le_lt|apply Qlt_not_le].
Qed.

Lemma existing_similarity_None (db : Database) (a b : nat) :
  existing_similarity db a b = None ↔ ∀ x, ¬ stored db a b x.
Proof.
  unfold existing_similarity, stored.
  rewrite fmap_None, list_find_None, Forall_forall. split.
  - intros H x (r & Hr & Ha & Hb & _). by apply (H r).
  - intros H r Hr [Ha Hb]. apply (H (sim_score r)). by exists r.
Qed.

Lemma stored_add_similarity (db : Database) (a b : nat) (x : score)
    (a' b' : nat) (x' : score) :
  stored (add_similarity db a b x) a' b' x' ↔
  stored db a' b' x' ∨ (a' = a ∧ b' = b ∧ x' = x).
Proof.
  unfold stored, add_similarity. simpl. split.
  - intros (r & [Hr| ->%list_elem_of_singleton]%elem_of_app & Ha & Hb & Hx).
    + left. by exists r.
    + right. by simpl in *.
  - intros [(r & Hr & H)|(-> & -> & ->)].
    + exists r. split; [|done]. apply elem_of_app. by left.
    + eexists. split; [apply elem_of_app; right; by apply list_elem_of_singleton|].
      done.
Qed.






End fresh_catalog.


(** ** The sample catalogs *)

Example round_trip :
  response (recommend_movies toy_pickle (ask "entry0") true empty_db) =
    Recommended "entry0" toy_items FromPickle.
Proof. vm_compute. reflexivity. Qed.

Example round_trip_persisted :
  response (recommend_movies toy_pickle (ask "entry0") true
              (main int32 toy_catalog toy_matrix empty_db).2) =
    Recommended "entry0" toy_items FromDatabase.
Proof. vm_compute. reflexivity. Qed.

Example tie_break :
  item_title <$>
    match response (recommend_movies (loaded toy_catalog tie_matrix)
                      (ask "entry0") true empty_db) with
    | Recommended _ items _ => items
    | Failure _ => []
    end = ["entry1"; "entry2"].
Proof. vm_compute. reflexivity. Qed.

Example unknown_title :
  response (recommend_movies toy_pickle (ask "Nonexistent Movie XYZ") true
              (main int32 toy_catalog toy_matrix empty_db).2) =
    Failure MovieNotFound.
Proof. vm_compute. reflexivity. Qed.

Example round4_ties_to_even :
  round4 (12345 # 100000) = (1234 # 10000)%Q ∧
  round4 (12355 # 100000) = (1236 # 10000)%Q ∧
  round4 (-(12345 # 100000)) = (-1234 # 10000)%Q.
Proof. vm_compute. done. Qed.

Example line_catalog_ten :
  match response (recommend_movies (loaded line_catalog line_matrix)
                    (ask "C") true empty_db) with
  | Recommended _ items _ => item_title <$> items
  | Failure _ => []
  end = ["B"; "D"; "A"; "E"; "F"; "G"; "H"; "I"; "J"; "K"].
Proof. vm_compute. reflexivity. Qed.

Lemma toy_titles_unique : NoDup (row_title <$> toy_catalog).
Proof. by apply (bool_decide_unpack _); vm_compute. Qed.

Lemma toy_rows_fit : Forall (λ row, int32 row = true) toy_catalog.
Proof. by apply (bool_decide_unpack _); vm_compute. Qed.

Lemma toy_keys_unique : NoDup (omap row_id toy_catalog).
Proof. by apply (bool_decide_unpack _); vm_compute. Qed.

Lemma toy_rows_bounded (sim : Matrix) :
  bool_decide (Forall (λ row, length row ≤ length toy_catalog) sim) = true →
  Forall (λ row, length row ≤ length toy_catalog) sim.
Proof. intros H. by apply (bool_decide_unpack _), Is_true_eq_left. Qed.

Lemma recommendations_ordered_witness :
  ∃ ranked,
    (∀ p, p ∈ ranked →
       ∃ row, source_row toy_catalog toy_matrix "entry0" row ∧
              row !! p.1 = Some p.2) ∧
    Forall2 (item_for toy_catalog) ranked toy_items ∧
    (∀ i j p q, ranked !! i = Some p → ranked !! j = Some q → i < j →
       (q.2 <= p.2)%Q ∧ ((p.2 == q.2)%Q → p.1 < q.1)) ∧
    (∀ i it1 it2, toy_items !! i = Some it1 → toy_items !! S i = Some it2 →
       (item_score it2 <= item_score it1)%Q).
Proof.
  apply (recommendations_ordered int32 toy_catalog toy_titles_unique
           toy_rows_fit toy_keys_unique toy_matrix
           (toy_rows_bounded toy_matrix eq_refl)
           (ask "entry0") true (main int32 toy_catalog toy_matrix empty_db).2
           "entry0" toy_items FromDatabase).
  - right. split; reflexivity.
  - vm_compute. reflexivity.
Defined.





(** * Further properties of the migration and of the handlers *)

(** ** Loops *)

Lemma foldl_fixed {S A} (f : S → A → S) (l : list A) (s : S) :
  (∀ x, x ∈ l → f s x = s) → foldl f s l = s.
Proof.
  induction l as [|x l IH]; intros Hfix; simpl; [done|].
  rewrite (Hfix x) by left. apply IH. intros y Hy. apply Hfix. by right.
Qed.

Lemma foldl_rel {S A} (R : relation S) `{!PreOrder R} (f : S → A → S)
    (l : list A) (s : S) :
  (∀ s x, x ∈ l → R s (f s x)) → R s (foldl f s l).
Proof.
  revert s. induction l as [|x l IH]; intros s Hstep; simpl; [done|].
  etrans; [apply (Hstep s x); by left|].
  apply IH. intros s' y Hy. apply Hstep. by right.
Qed.

(** When every iteration settles its own element ([D]), and what is
    settled stays settled as the state grows ([R]), the loop leaves every
    element settled. *)
Lemma foldl_settles {S A} (R : relation S) `{!PreOrder R} (D : S → A → Prop)
    (f : S → A → S) (l : list A) (s : S) :
  (∀ s x, R s (f s x)) →
  (∀ s x, D (f s x) x) →
  (∀ s s' x, R s s' → D s x → D s' x) →
  ∀ x, x ∈ l → D (foldl f s l) x.
Proof.
  intros Hgrow Hest Hpres. revert s.
  induction l as [|y l IH]; intros s x Hx; [by apply elem_of_nil in Hx|].
  simpl. apply elem_of_cons in Hx as [->|Hx]; [|by apply IH].
  apply (Hpres (f s y)); [|apply Hest]. by apply foldl_rel.
Qed.

#[local] Instance grows_preorder Qr Qp : PreOrder (grows Qr Qp).
Proof.
  split.
  - intros db. repeat split; exists []; by rewrite app_nil_r.
  - intros db1 db2 db3 (Hm & Hh & (r1 & Hr1 & HQ1) & (p1 & Hp1 & HP1))
      (Hm' & Hh' & (r2 & Hr2 & HQ2) & (p2 & Hp2 & HP2)).
    split; [congruence|]. split; [congruence|]. split.
    + exists (r1 ++ r2). rewrite Hr2, Hr1, app_assoc.
      split; [done|]. by apply Forall_app.
    + exists (p1 ++ p2). rewrite Hp2, Hp1, app_assoc.
      split; [done|]. by apply Forall_app.
Qed.

Lemma grows_impl (Qr Qr' : Recommendation → Prop)
    (Qp Qp' : SimilarityMatrix → Prop) (db db' : Database) :
  (∀ r, Qr r → Qr' r) → (∀ r, Qp r → Qp' r) →
  grows Qr Qp db db' → grows Qr' Qp' db db'.
Proof.
  intros Hr Hp (Hm & Hh & (r1 & Hr1 & HQ1) & (p1 & Hp1 & HP1)).
  repeat split; [done|done|exists r1|exists p1];
    (split; [done|]); by eapply Forall_impl.
Qed.

(** ** [migrate_movies] on any catalog and any database *)

Lemma foldl_accept_step_counts (md : DataFrame) (st : Accepted) :
  acc_migrated (foldl accept_step st md) + acc_skipped (foldl accept_step st md)
    = acc_migrated st + acc_skipped st + length md.
Proof.
  revert st. induction md as [|row md IH]; intros st; simpl; [lia|].
  rewrite IH. unfold accept_step.
  destruct (movie_by_title (acc_db st) (row_title row)); simpl; lia.
Qed.

(** X1: on a catalog whose new rows the storage accepts (the rows whose
    title the table does not hold fit the columns, no two of them carry
    the same [id], and no movie of the table carries the [id] of one of
    them) [migrate_movies] succeeds,
    every row is counted as migrated or as skipped, and the table then
    holds exactly the titles it held before and the titles of the
    catalog. *)
Theorem migrate_movies_titles (fits : CatalogRow → bool) (md : DataFrame)
    (db : Database) :
  insertable fits db md →
  mm_ok (migrate_movies fits md db) = true ∧
  mm_migrated (migrate_movies fits md db) +
    mm_skipped (migrate_movies fits md db) = length md ∧
  ∀ t, t ∈ titles (mm_db (migrate_movies fits md db)) ↔
       t ∈ titles db ∨ t ∈ row_title <$> md.
Proof.
  intros Hmd. rewrite (migrate_movies_accepted fits md db Hmd). simpl.
  split; [done|]. unfold accepted. split.
  - by rewrite foldl_accept_step_counts.
  - intros t. by rewrite foldl_accept_step_titles.
Qed.

Lemma migrate_movies_titles_witness :
  mm_ok (migrate_movies int32 line_catalog (ingested int32 twin_catalog))
    = true ∧
  mm_migrated (migrate_movies int32 line_catalog (ingested int32 twin_catalog))
    + mm_skipped
        (migrate_movies int32 line_catalog (ingested int32 twin_catalog))
    = length line_catalog ∧
  ∀ t, t ∈ titles (mm_db (migrate_movies int32 line_catalog
                            (ingested int32 twin_catalog))) ↔
       t ∈ titles (ingested int32 twin_catalog) ∨
       t ∈ row_title <$> line_catalog.
Proof.
  apply (migrate_movies_titles int32 line_catalog
           (ingested int32 twin_catalog)).
  split; [by apply (bool_decide_unpack _); vm_compute|].
  split; [by apply (bool_decide_unpack _); vm_compute|].
  repeat constructor; intros z [= <-];
    by apply (bool_decide_unpack _); vm_compute.
Defined.

(** X2: what [migrate_movies] leaves, whatever the engine refuses and
    whether the pass succeeds or not.  The rows that were in the table
    stay where they are; the rows appended are made of catalog rows, with
    empty [genre] and [overview], and are no more than the pass counted
    as migrated (a rollback loses counted rows); the two counters
    together do not exceed the number of catalog rows (a row whose query
    met a refusal is in neither); the other tables are untouched. *)
Theorem migrate_movies_counts (fits : CatalogRow → bool) (md : DataFrame)
    (db : Database) :
  mm_migrated (migrate_movies fits md db) +
    mm_skipped (migrate_movies fits md db) ≤ length md ∧
  (∃ new,
     movies (mm_db (migrate_movies fits md db)) = movies db ++ new ∧
     length new ≤ mm_migrated (migrate_movies fits md db) ∧
     Forall (λ m, ∃ row, row ∈ md ∧ movie_title m = row_title row ∧
                         tmdb_id m = row_id row ∧ tags m = row_tags row ∧
                         genre m = "" ∧ overview m = "") new) ∧
  recommendations (mm_db (migrate_movies fits md db)) = recommendations db ∧
  similarity_pairs (mm_db (migrate_movies fits md db)) = similarity_pairs db ∧
  recommendation_history (mm_db (migrate_movies fits md db)) =
    recommendation_history db.
Proof.
  destruct (migrate_movies_frame fits md db)
    as ((new & Hm & Hfrom & Hlen) & Hr & Hp & Hh & Hcount & _).
  split; [done|]. split; [|done].
  exists new. split; [done|]. split; [done|].
  eapply Forall_impl; [exact Hfrom|]. intros m (row & Hrow & ->).
  by exists row.
Qed.

(** X3: [migrate_movies] never makes two movies of one title.  If the
    titles of the table are pairwise distinct before the pass, they are
    so after it, whatever the catalog holds (also duplicate titles) and
    whatever the engine refuses. *)
Theorem migrate_movies_keeps_titles_unique (fits : CatalogRow → bool)
    (md : DataFrame) (db : Database) :
  NoDup (titles db) → NoDup (titles (mm_db (migrate_movies fits md db))).
Proof.
  intros Hnd.
  destruct (migrate_movies_frame fits md db) as (_ & _ & _ & _ & _ & Hkeep).
  by apply Hkeep.
Qed.

Lemma migrate_movies_keeps_titles_unique_witness :
  NoDup (titles (mm_db (migrate_movies int32 (toy_catalog ++ toy_catalog)
                          (ingested int32 twin_catalog)))).
Proof.
  apply (migrate_movies_keeps_titles_unique int32 (toy_catalog ++ toy_catalog)
           (ingested int32 twin_catalog)).
  by apply (bool_decide_unpack _); vm_compute.
Defined.

(** ** [migrate_similarity_data] on any catalog, matrix and database *)

Section data_pass.
Context (md : DataFrame) (sim : Matrix) (id_map : gmap string nat).

Lemma existing_recommendation_grows (Qr : Recommendation → Prop)
    (Qp : SimilarityMatrix → Prop) (db db' : Database) (s t : nat) :
  grows Qr Qp db db' →
  is_Some (existing_recommendation db s t) →
  is_Some (existing_recommendation db' s t).
Proof.
  intros (_ & _ & (new & Hnew & _) & _) Hsome.
  destruct (existing_recommendation db' s t) eqn:Hdb'; [done|].
  rewrite existing_recommendation_None in Hdb'.
  assert (existing_recommendation db s t = None) as Hnone.
  { apply existing_recommendation_None. intros r Hr. apply Hdb'.
    rewrite Hnew. apply elem_of_app. by left. }
  rewrite Hnone in Hsome. by destruct Hsome.
Qed.

Lemma existing_recommendation_added (db : Database) (s t : nat) (x : score)
    (k : nat) :
  is_Some (existing_recommendation (add_recommendation db s t x k) s t).
Proof.
  destruct (existing_recommendation _ s t) eqn:Hnone; [done|].
  rewrite existing_recommendation_None in Hnone.
  exfalso.
  eapply (Hnone _);
    [simpl; apply elem_of_app; right; by apply list_elem_of_singleton|done..].
Qed.

Lemma add_recommendation_neq (db : Database) (s t : nat) (x : score) (k : nat) :
  add_recommendation db s t x k ≠ db.
Proof.
  intros Heq%(f_equal (length ∘ recommendations)). simpl in Heq.
  rewrite length_app in Heq. simpl in Heq. lia.
Qed.

(** The two outcomes of one iteration of the inner loop. *)
Lemma recommendation_step_cases (s : nat) (db : Database)
    (k idx : nat) (x : score) :
  (recommendation_step md id_map s db (k, (idx, x)) = db ∧
   ¬ ∃ target_row t,
       md !! idx = Some target_row ∧
       get_id id_map (row_title target_row) = Some t ∧
       existing_recommendation db s t = None) ∨
  (∃ target_row t,
     md !! idx = Some target_row ∧
     get_id id_map (row_title target_row) = Some t ∧
     existing_recommendation db s t = None ∧
     recommendation_step md id_map s db (k, (idx, x)) =
       add_recommendation db s t x k).
Proof.
  unfold recommendation_step, getitem.
  destruct (md !! idx) as [target_row|] eqn:Hidx.
  - destruct (get_id id_map (row_title target_row)) as [t|] eqn:Ht.
    + destruct (existing_recommendation db s t) eqn:Hex.
      * left. split; [done|]. intros (? & ? & [= <-] & ? & ?). congruence.
      * right. by exists target_row, t.
    + left. split; [done|]. intros (? & ? & [= <-] & ? & ?). congruence.
  - left. split; [done|]. by intros (? & ? & ? & _).
Qed.

Lemma recommendation_step_fixed_grows (Qr : Recommendation → Prop)
    (Qp : SimilarityMatrix → Prop) (s : nat) (db db' : Database)
    (e : nat * (nat * score)) :
  grows Qr Qp db db' →
  recommendation_step md id_map s db e = db →
  recommendation_step md id_map s db' e = db'.
Proof.
  destruct e as [k [idx x]]. intros Hgrows Hfix.
  destruct (recommendation_step_cases s db' k idx x)
    as [[? _]|(target_row & t & Hidx & Ht & Hex & _)]; [done|].
  exfalso.
  destruct (recommendation_step_cases s db k idx x)
    as [[_ Hno]|(? & ? & _ & _ & _ & Hadd)].
  - destruct (existing_recommendation db s t) eqn:Hdb.
    + assert (is_Some (existing_recommendation db' s t)) as [? Hsome]
        by (by eapply existing_recommendation_grows).
      congruence.
    + apply Hno. by exists target_row, t.
  - rewrite Hadd in Hfix. by apply add_recommendation_neq in Hfix.
Qed.

Lemma recommendation_step_settled (s : nat) (db : Database)
    (e : nat * (nat * score)) :
  recommendation_step md id_map s (recommendation_step md id_map s db e) e =
  recommendation_step md id_map s db e.
Proof.
  destruct e as [k [idx x]].
  destruct (recommendation_step_cases s db k idx x)
    as [[Hfix _]|(target_row & t & Hidx & Ht & Hex & ->)];
    [by rewrite !Hfix|].
  destruct (recommendation_step_cases s (add_recommendation db s t x k) k idx x)
    as [[? _]|(? & t' & Hidx' & Ht' & Hex' & _)]; [done|].
  assert (t' = t) as -> by congruence.
  destruct (existing_recommendation_added db s t x k). congruence.
Qed.

(** What one iteration of the inner loop appends, for an entry of the
    list the outer loop hands to it. *)
Lemma recommendation_step_grows (i : nat) (row : CatalogRow)
    (sim_row : list score) (s : nat) (db : Database)
    (e : nat * (nat * score)) :
  md !! i = Some row →
  get_id id_map (row_title row) = Some s →
  sim !! i = Some sim_row →
  e ∈ enumerate_from 1 (slice 1 11 (sorted_by_score_desc (enumerate sim_row))) →
  grows (from_matrix md sim id_map) (λ _, False) db
    (recommendation_step md id_map s db e).
Proof.
  intros Hi Hs Hrow He. destruct e as [k [idx x]].
  destruct (recommendation_step_cases s db k idx x)
    as [[-> _]|(target_row & t & Hidx & Ht & Hex & ->)]; [done|].
  split; [done|]. split; [done|]. split; [|exists []; by rewrite app_nil_r].
  eexists. split; [done|]. constructor; [|done].
  apply list_elem_of_lookup in He as [j Hj].
  rewrite lookup_enumerate_from in Hj.
  destruct (slice 1 11 _ !! j) as [p|] eqn:Hp; [|done].
  injection Hj as <- ->.
  rewrite lookup_slice in Hp. case_decide; [|done].
  apply list_elem_of_lookup_2, elem_of_sorted_enumerate in Hp.
  split; [simpl; lia|]. exists i, row, idx, target_row. simpl.
  repeat split; [done..|]. unfold sim_at. by rewrite Hrow.
Qed.

Lemma source_step_grows (db : Database) (i : nat) (row : CatalogRow) :
  md !! i = Some row →
  grows (from_matrix md sim id_map) (λ _, False) db
    (source_step md sim id_map db (i, row)).
Proof.
  intros Hi. unfold source_step, getitem.
  destruct (get_id id_map (row_title row)) as [s|] eqn:Hs; [|done].
  destruct (sim !! i) as [sim_row|] eqn:Hrow; [|done].
  apply (foldl_rel (grows (from_matrix md sim id_map) (λ _, False))).
  intros db' e He. by apply (recommendation_step_grows i row sim_row).
Qed.

Lemma recommendation_step_grows_any (s : nat) (db : Database)
    (e : nat * (nat * score)) :
  grows (λ _, True) (λ _, True) db (recommendation_step md id_map s db e).
Proof.
  destruct e as [k [idx x]].
  destruct (recommendation_step_cases s db k idx x)
    as [[-> _]|(target_row & t & Hidx & Ht & Hex & ->)]; [done|].
  split; [done|]. split; [done|].
  split; [eexists; split; [done|by constructor]|].
  exists []. by rewrite app_nil_r.
Qed.

Lemma source_step_grows_any (db : Database) (e : nat * CatalogRow) :
  grows (λ _, True) (λ _, True) db (source_step md sim id_map db e).
Proof.
  destruct e as [i row]. unfold source_step, getitem.
  destruct (get_id id_map (row_title row)) as [s|] eqn:Hs; [|done].
  destruct (sim !! i) as [sim_row|] eqn:Hrow; [|done].
  apply (foldl_rel (grows (λ _, True) (λ _, True))).
  intros db' e _. apply recommendation_step_grows_any.
Qed.

Lemma data_settled_after (db : Database) :
  data_settled md sim id_map
    (foldl (source_step md sim id_map) db (enumerate md)).
Proof.
  set (D := λ (db : Database) (x : nat * CatalogRow), ∀ s sim_row e,
       get_id id_map (row_title x.2) = Some s →
       sim !! x.1 = Some sim_row →
       e ∈ enumerate_from 1
             (slice 1 11 (sorted_by_score_desc (enumerate sim_row))) →
       recommendation_step md id_map s db e = db).
  assert (∀ x, x ∈ enumerate md →
            D (foldl (source_step md sim id_map) db (enumerate md)) x) as Hall.
  2:{ intros i row s sim_row e Hin. apply (Hall (i, row) Hin). }
  apply (foldl_settles (grows (λ _, True) (λ _, True)) D); unfold D.
  - apply source_step_grows_any.
  - clear. intros db [i row] s sim_row e Hs Hrow He. simpl in Hs, Hrow.
    unfold source_step, getitem. rewrite Hs, Hrow.
    revert e He.
    apply (foldl_settles (grows (λ _, True) (λ _, True))
      (λ db e, recommendation_step md id_map s db e = db)).
    + apply recommendation_step_grows_any.
    + intros. apply recommendation_step_settled.
    + intros ???. apply recommendation_step_fixed_grows.
  - clear. intros db db' [i row] Hgrows Hfix s sim_row e Hs Hrow He.
    eapply recommendation_step_fixed_grows; [done|]. by eapply Hfix.
Qed.

Lemma data_settled_grows (Qr : Recommendation → Prop)
    (Qp : SimilarityMatrix → Prop) (db db' : Database) :
  grows Qr Qp db db' →
  data_settled md sim id_map db → data_settled md sim id_map db'.
Proof.
  intros Hgrows Hfix i row s sim_row e Hin Hs Hrow He.
  eapply recommendation_step_fixed_grows; [done|]. by eapply Hfix.
Qed.

Lemma data_settled_fixed (db : Database) :
  data_settled md sim id_map db →
  foldl (source_step md sim id_map) db (enumerate md) = db.
Proof.
  intros Hfix. apply foldl_fixed. intros [i row] Hin.
  unfold source_step, getitem.
  destruct (get_id id_map (row_title row)) as [s|] eqn:Hs; [|done].
  destruct (sim !! i) as [sim_row|] eqn:Hrow; [|done].
  apply foldl_fixed. intros e He. by eapply Hfix.
Qed.

Lemma data_pass_grows (db : Database) :
  grows (from_matrix md sim id_map) (λ _, False) db
    (foldl (source_step md sim id_map) db (enumerate md)).
Proof.
  apply (foldl_rel (grows (from_matrix md sim id_map) (λ _, False))).
  intros db' [i row] Hin.
  apply list_elem_of_lookup in Hin as [n Hn].
  rewrite lookup_enumerate in Hn.
  destruct (md !! n) as [r|] eqn:Hr; [|done]. injection Hn as <- <-.
  by apply source_step_grows.
Qed.

Lemma recommendation_step_keys (s : nat) (db : Database)
    (e : nat * (nat * score)) :
  NoDup (rec_key <$> recommendations db) →
  NoDup (rec_key <$> recommendations (recommendation_step md id_map s db e)).
Proof.
  intros Hnd. destruct e as [k [idx x]].
  destruct (recommendation_step_cases s db k idx x)
    as [[-> _]|(target_row & t & Hidx & Ht & Hex & ->)]; [done|].
  simpl. rewrite fmap_app. apply NoDup_app. split; [done|].
  split; [|apply NoDup_singleton].
  intros key [r [-> Hr]]%list_elem_of_fmap [= Hs Hd]%list_elem_of_singleton.
  rewrite existing_recommendation_None in Hex. by eapply Hex.
Qed.

End data_pass.

Lemma movie_id_map_movies (db db' : Database) :
  movies db' = movies db → movie_id_map db' = movie_id_map db.
Proof. unfold movie_id_map. by intros ->. Qed.

(** X4: [migrate_similarity_data] only appends to the [recommendations]
    table: movies, similarity pairs and the analytics history are left as
    they were, the rows already stored stay in place, and every row it
    appends has a rank between 1 and 10, joins the identifiers of two
    catalog titles and stores the matrix entry of their two positions. *)
Theorem migrate_similarity_data_appends (md : DataFrame) (sim : Matrix)
    (db : Database) :
  let db' := migrate_similarity_data md sim db in
  movies db' = movies db ∧
  similarity_pairs db' = similarity_pairs db ∧
  recommendation_history db' = recommendation_history db ∧
  ∃ new,
    recommendations db' = recommendations db ++ new ∧
    Forall (from_matrix md sim (movie_id_map db)) new.
Proof.
  destruct (data_pass_grows md sim (movie_id_map db) db)
    as (Hm & Hh & Hr & (new & Hp & Hnew)).
  destruct new as [|? ? ]; [|by apply Forall_cons in Hnew as [[] _]].
  rewrite app_nil_r in Hp. done.
Qed.

(** X5: running [migrate_similarity_data] a second time on its own result
    changes nothing, whatever the catalog, the matrix and the database
    are: every pair it would write is found by the
    [existing_recommendation] query. *)
Theorem migrate_similarity_data_idempotent (md : DataFrame) (sim : Matrix)
    (db : Database) :
  migrate_similarity_data md sim (migrate_similarity_data md sim db) =
  migrate_similarity_data md sim db.
Proof.
  unfold migrate_similarity_data at 1.
  rewrite (movie_id_map_movies db).
  - apply data_settled_fixed, data_settled_after.
  - apply (data_pass_grows md sim (movie_id_map db) db).
Qed.

(** X6: [migrate_similarity_data] keeps the uniqueness constraint
    [unique_recommendation] of [models.py]: when no two stored rows share
    the pair (source, recommended), no two rows do afterwards. *)
Theorem migrate_similarity_data_keeps_unique (md : DataFrame) (sim : Matrix)
    (db : Database) :
  NoDup (rec_key <$> recommendations db) →
  NoDup (rec_key <$> recommendations (migrate_similarity_data md sim db)).
Proof.
  unfold migrate_similarity_data.
  apply (foldl_inv (λ db, NoDup (rec_key <$> recommendations db))).
  intros db' [i row] _ Hnd. unfold source_step, getitem.
  destruct (get_id (movie_id_map db) (row_title row)) as [s|]; [|done].
  destruct (sim !! i) as [sim_row|]; [|done].
  revert Hnd.
  apply (foldl_inv (λ db, NoDup (rec_key <$> recommendations db))).
  intros db'' e _. apply recommendation_step_keys.
Qed.

Lemma migrate_similarity_data_keeps_unique_witness :
  NoDup (rec_key <$> recommendations
           (migrate_similarity_data line_catalog line_matrix
              (mm_db (migrate_movies int32 line_catalog
                 (main int32 toy_catalog toy_matrix empty_db).2)))).
Proof.
  apply (migrate_similarity_data_keeps_unique line_catalog line_matrix
           (mm_db (migrate_movies int32 line_catalog
              (main int32 toy_catalog toy_matrix empty_db).2))).
  by apply (bool_decide_unpack _); vm_compute.
Defined.

(** ** [migrate_similarity_matrix] on any catalog, matrix and database *)

Section pair_pass.
Context (md : DataFrame) (sim : Matrix) (id_map : gmap string nat).

Lemma existing_similarity_grows (Qr : Recommendation → Prop)
    (Qp : SimilarityMatrix → Prop) (db db' : Database) (a b : nat) :
  grows Qr Qp db db' →
  existing_similarity db' a b = None → existing_similarity db a b = None.
Proof.
  intros (_ & _ & _ & (new & Hnew & _)).
  rewrite !existing_similarity_None. intros Hnone x (r & Hr & Hkey).
  apply (Hnone x). exists r. split; [|done].
  rewrite Hnew. apply elem_of_app. by left.
Qed.

Lemma existing_similarity_added (db : Database) (a b : nat) (x : score) :
  existing_similarity (add_similarity db a b x) a b ≠ None.
Proof.
  rewrite existing_similarity_None. intros Hnone. apply (Hnone x).
  apply stored_add_similarity. by right.
Qed.

Lemma add_similarity_neq (db : Database) (a b : nat) (x : score) :
  add_similarity db a b x ≠ db.
Proof.
  intros Heq%(f_equal (length ∘ similarity_pairs)). simpl in Heq.
  rewrite length_app in Heq. simpl in Heq. lia.
Qed.

(** The two outcomes of one iteration of the inner loop. *)
Lemma pair_step_cases (i : nat) (row1 : CatalogRow) (db : Database)
    (j : nat) (row2 : CatalogRow) :
  pair_step sim id_map i row1 db (j, row2) = db ∨
  ∃ m1 m2 x,
    (i < j ∧
     get_id id_map (row_title row1) = Some m1 ∧
     get_id id_map (row_title row2) = Some m2 ∧
     sim_at sim i j = Some x ∧
     (threshold < x)%Q) ∧
    existing_similarity db m1 m2 = None ∧
    pair_step sim id_map i row1 db (j, row2) = add_similarity db m1 m2 x.
Proof.
  unfold pair_step, sim_at, getitem. case_bool_decide as Hij; [by left|].
  destruct (get_id id_map (row_title row1)) as [m1|]; [|by left].
  destruct (get_id id_map (row_title row2)) as [m2|]; [|by left].
  destruct (existing_similarity db m1 m2) eqn:Hex; [by left|].
  destruct (sim !! i) as [r|]; simpl; [|by left].
  destruct (r !! j) as [x|]; simpl; [|by left].
  destruct (above_threshold x) eqn:Hx; [|by left].
  right. exists m1, m2, x. apply above_threshold_true in Hx.
  repeat split; [lia|done..].
Qed.

Lemma pair_step_add (i : nat) (row1 : CatalogRow) (db : Database)
    (j : nat) (row2 : CatalogRow) (m1 m2 : nat) (x : score) :
  i < j ∧
  get_id id_map (row_title row1) = Some m1 ∧
  get_id id_map (row_title row2) = Some m2 ∧
  sim_at sim i j = Some x ∧
  (threshold < x)%Q →
  existing_similarity db m1 m2 = None →
  pair_step sim id_map i row1 db (j, row2) = add_similarity db m1 m2 x.
Proof.
  intros (Hij & H1 & H2 & Hx & Hlt) Hex.
  unfold pair_step, getitem. unfold sim_at in Hx.
  rewrite bool_decide_eq_false_2 by lia. rewrite H1, H2, Hex.
  destruct (sim !! i) as [r|]; simpl in *; [|done].
  rewrite Hx. simpl. apply above_threshold_true in Hlt. by rewrite Hlt.
Qed.

Lemma pair_step_fixed_grows (Qr : Recommendation → Prop)
    (Qp : SimilarityMatrix → Prop) (i : nat) (row1 : CatalogRow)
    (db db' : Database) (e : nat * CatalogRow) :
  grows Qr Qp db db' →
  pair_step sim id_map i row1 db e = db →
  pair_step sim id_map i row1 db' e = db'.
Proof.
  destruct e as [j row2]. intros Hgrows Hfix.
  destruct (pair_step_cases i row1 db' j row2)
    as [?|(m1 & m2 & x & Hwrite & Hex & _)]; [done|].
  exfalso. eapply existing_similarity_grows in Hex; [|done].
  rewrite (pair_step_add i row1 db j row2 m1 m2 x) in Hfix by done.
  by apply add_similarity_neq in Hfix.
Qed.

Lemma pair_step_settled (i : nat) (row1 : CatalogRow) (db : Database)
    (e : nat * CatalogRow) :
  pair_step sim id_map i row1 (pair_step sim id_map i row1 db e) e =
  pair_step sim id_map i row1 db e.
Proof.
  destruct e as [j row2].
  destruct (pair_step_cases i row1 db j row2)
    as [Hfix|(m1 & m2 & x & Hwrite & Hex & ->)]; [by rewrite !Hfix|].
  destruct (pair_step_cases i row1 (add_similarity db m1 m2 x) j row2)
    as [?|(m1' & m2' & x' & Hwrite' & Hex' & _)]; [done|].
  destruct Hwrite as (_ & H1 & H2 & _), Hwrite' as (_ & H1' & H2' & _).
  assert (m1' = m1) as -> by congruence.
  assert (m2' = m2) as -> by congruence.
  by apply existing_similarity_added in Hex'.
Qed.

Lemma pair_step_grows (i : nat) (row1 : CatalogRow) (db : Database)
    (e : nat * CatalogRow) :
  (i, row1) ∈ enumerate md → e ∈ enumerate md →
  grows (λ _, False) (pair_from_matrix md sim id_map) db
    (pair_step sim id_map i row1 db e).
Proof.
  destruct e as [j row2]. intros Hi Hj.
  destruct (pair_step_cases i row1 db j row2)
    as [->|(m1 & m2 & x & (Hij & H1 & H2 & Hx & Hlt) & Hex & ->)]; [done|].
  apply list_elem_of_lookup in Hi as [n Hn], Hj as [n' Hn'].
  rewrite lookup_enumerate in Hn, Hn'.
  destruct (md !! n) as [r|] eqn:Hr; [|done]. injection Hn as <- <-.
  destruct (md !! n') as [r'|] eqn:Hr'; [|done]. injection Hn' as <- <-.
  split; [done|]. split; [done|]. split; [exists []; by rewrite app_nil_r|].
  eexists. split; [done|]. constructor; [|done].
  split; [done|]. split; [done|]. by exists n, n', r, r'.
Qed.

Lemma pair_pass_grows (db : Database) :
  grows (λ _, False) (pair_from_matrix md sim id_map) db
    (foldl (λ db '(i, row1),
              foldl (pair_step sim id_map i row1) db (enumerate md))
       db (enumerate md)).
Proof.
  apply (foldl_rel (grows (λ _, False) (pair_from_matrix md sim id_map))).
  intros db' [i row1] Hi.
  apply (foldl_rel (grows (λ _, False) (pair_from_matrix md sim id_map))).
  intros db'' e He. by apply pair_step_grows.
Qed.

Lemma pair_step_grows_any (i : nat) (row1 : CatalogRow) (db : Database)
    (e : nat * CatalogRow) :
  grows (λ _, True) (λ _, True) db (pair_step sim id_map i row1 db e).
Proof.
  destruct e as [j row2].
  destruct (pair_step_cases i row1 db j row2)
    as [->|(m1 & m2 & x & _ & _ & ->)]; [done|].
  split; [done|]. split; [done|]. split; [exists []; by rewrite app_nil_r|].
  eexists. split; [done|]. by constructor.
Qed.

Lemma pairs_settled_after (db : Database) :
  pairs_settled md sim id_map
    (foldl (λ db '(i, row1),
              foldl (pair_step sim id_map i row1) db (enumerate md))
       db (enumerate md)).
Proof.
  set (D := λ (db : Database) (x : nat * CatalogRow), ∀ e,
       e ∈ enumerate md → pair_step sim id_map x.1 x.2 db e = db).
  assert (∀ x, x ∈ enumerate md →
    D (foldl (λ db '(i, row1),
                foldl (pair_step sim id_map i row1) db (enumerate md))
         db (enumerate md)) x) as Hall.
  2:{ intros i row1 e Hin He. by apply (Hall (i, row1) Hin). }
  apply (foldl_settles (grows (λ _, True) (λ _, True)) D); unfold D.
  - clear. intros db [i row1].
    apply (foldl_rel (grows (λ _, True) (λ _, True))).
    intros db' e _. apply pair_step_grows_any.
  - clear. intros db [i row1]. simpl.
    apply (foldl_settles (grows (λ _, True) (λ _, True))
      (λ db e, pair_step sim id_map i row1 db e = db)).
    + apply pair_step_grows_any.
    + intros. apply pair_step_settled.
    + intros ???. apply pair_step_fixed_grows.
  - clear. intros db db' [i row1] Hgrows Hfix e He.
    eapply pair_step_fixed_grows; [done|]. by apply Hfix.
Qed.

Lemma pairs_settled_grows (Qr : Recommendation → Prop)
    (Qp : SimilarityMatrix → Prop) (db db' : Database) :
  grows Qr Qp db db' →
  pairs_settled md sim id_map db → pairs_settled md sim id_map db'.
Proof.
  intros Hgrows Hfix i row1 e Hin He.
  eapply pair_step_fixed_grows; [done|]. by apply Hfix.
Qed.

Lemma pairs_settled_fixed (db : Database) :
  pairs_settled md sim id_map db →
  foldl (λ db '(i, row1),
           foldl (pair_step sim id_map i row1) db (enumerate md))
    db (enumerate md) = db.
Proof.
  intros Hfix. apply foldl_fixed. intros [i row1] Hin.
  apply foldl_fixed. intros e He. by apply Hfix.
Qed.

Lemma pair_step_keys (i : nat) (row1 : CatalogRow) (db : Database)
    (e : nat * CatalogRow) :
  NoDup (pair_key <$> similarity_pairs db) →
  NoDup (pair_key <$> similarity_pairs (pair_step sim id_map i row1 db e)).
Proof.
  intros Hnd. destruct e as [j row2].
  destruct (pair_step_cases i row1 db j row2)
    as [->|(m1 & m2 & x & _ & Hex & ->)]; [done|].
  simpl. rewrite fmap_app. apply NoDup_app. split; [done|].
  split; [|apply NoDup_singleton].
  intros key [r [-> Hr]]%list_elem_of_fmap [= H1 H2]%list_elem_of_singleton.
  rewrite existing_similarity_None in Hex.
  apply (Hex (sim_score r)). by exists r.
Qed.

End pair_pass.

(** X7: [migrate_similarity_matrix] only appends to the
    [similarity_matrix] table: movies, recommendations and the analytics
    history are left as they were, the pairs already stored stay in
    place, and every pair it appends has a score strictly above 0.01,
    the algorithm name cosine_similarity, and joins the identifiers of
    two catalog titles at positions [i < j] with the matrix entry
    [sim[i][j]]. *)
Theorem migrate_similarity_matrix_appends (md : DataFrame) (sim : Matrix)
    (db : Database) :
  let db' := migrate_similarity_matrix md sim db in
  movies db' = movies db ∧
  recommendations db' = recommendations db ∧
  recommendation_history db' = recommendation_history db ∧
  ∃ new,
    similarity_pairs db' = similarity_pairs db ++ new ∧
    Forall (pair_from_matrix md sim (movie_id_map db)) new.
Proof.
  destruct (pair_pass_grows md sim (movie_id_map db) db)
    as (Hm & Hh & (new & Hr & Hnew) & Hp).
  destruct new as [|? ? ]; [|by apply Forall_cons in Hnew as [[] _]].
  rewrite app_nil_r in Hr. done.
Qed.

Lemma pair_pass_idempotent (md : DataFrame) (sim : Matrix) (db : Database) :
  migrate_similarity_matrix md sim (migrate_similarity_matrix md sim db) =
  migrate_similarity_matrix md sim db.
Proof.
  unfold migrate_similarity_matrix at 1. cbv zeta.
  rewrite (movie_id_map_movies db).
  - apply pairs_settled_fixed, pairs_settled_after.
  - apply (pair_pass_grows md sim (movie_id_map db) db).
Qed.

(** X8: running [migrate_similarity_matrix] a second time on its own
    result changes nothing, whatever the catalog, the matrix and the
    database are. *)
Theorem migrate_similarity_matrix_idempotent (md : DataFrame) (sim : Matrix)
    (db : Database) :
  migrate_similarity_matrix md sim (migrate_similarity_matrix md sim db) =
  migrate_similarity_matrix md sim db.
Proof.
  unfold migrate_similarity_matrix at 1. cbv zeta.
  rewrite (movie_id_map_movies db).
  - apply pairs_settled_fixed, pairs_settled_after.
  - apply (pair_pass_grows md sim (movie_id_map db) db).
Qed.

(** X9: [migrate_similarity_matrix] keeps the uniqueness constraint
    [unique_movie_pair] of [models.py]: when no two stored rows share the
    pair (movie1, movie2), no two rows do afterwards. *)
Theorem migrate_similarity_matrix_keeps_unique (md : DataFrame) (sim : Matrix)
    (db : Database) :
  NoDup (pair_key <$> similarity_pairs db) →
  NoDup (pair_key <$> similarity_pairs (migrate_similarity_matrix md sim db)).
Proof.
  unfold migrate_similarity_matrix. cbv zeta.
  apply (foldl_inv (λ db, NoDup (pair_key <$> similarity_pairs db))).
  intros db' [i row1] _.
  apply (foldl_inv (λ db, NoDup (pair_key <$> similarity_pairs db))).
  intros db'' e _. apply pair_step_keys.
Qed.

Lemma migrate_similarity_matrix_keeps_unique_witness :
  NoDup (pair_key <$> similarity_pairs
           (migrate_similarity_matrix line_catalog line_matrix
              (mm_db (migrate_movies int32 line_catalog
                 (main int32 toy_catalog toy_matrix empty_db).2)))).
Proof.
  apply (migrate_similarity_matrix_keeps_unique line_catalog line_matrix
           (mm_db (migrate_movies int32 line_catalog
              (main int32 toy_catalog toy_matrix empty_db).2))).
  by apply (bool_decide_unpack _); vm_compute.
Defined.

(** ** [main]: the three passes in sequence *)

(** X10: [main] is idempotent on a catalog whose new rows the storage
    accepts (the rows whose title the table does not hold fit the
    columns, no two of them carry the same [id], and no movie of the
    table carries the [id] of one of them): the run
    succeeds, and a second run of the whole migration, with the same
    catalog and matrix, succeeds too, skips every movie and writes no
    recommendation and no similarity pair. *)
Theorem main_idempotent (fits : CatalogRow → bool) (md : DataFrame)
    (sim : Matrix) (db : Database) :
  insertable fits db md →
  (main fits md sim db).1 = true ∧
  main fits md sim (main fits md sim db).2 = main fits md sim db.
Proof.
  intros Hmd.
  set (db1 := acc_db (accepted md db)).
  set (db2 := migrate_similarity_data md sim db1).
  set (db3 := migrate_similarity_matrix md sim db2).
  assert (main fits md sim db = (true, db3)) as Hrun.
  { unfold main. by rewrite (migrate_movies_accepted fits md db Hmd). }
  rewrite Hrun. split; [done|]. cbn [snd].
  pose proof (data_pass_grows md sim (movie_id_map db1) db1) as Hg12.
  pose proof (pair_pass_grows md sim (movie_id_map db2) db2) as Hg23.
  fold (migrate_similarity_data md sim db1) in Hg12. fold db2 in Hg12.
  change (foldl _ db2 (enumerate md))
    with (migrate_similarity_matrix md sim db2) in Hg23. fold db3 in Hg23.
  assert (movies db2 = movies db1) as Hm2 by apply Hg12.
  assert (movies db3 = movies db1) as Hm3.
  { destruct Hg23 as [-> _]. done. }
  unfold main. rewrite (migrate_movies_settled fits md db3).
  2:{ intros row Hrow. unfold titles. rewrite Hm3. fold (titles db1).
      unfold db1, accepted. apply foldl_accept_step_titles. right.
      by apply list_elem_of_fmap_2. }
  cbn [mm_ok mm_db]. f_equal.
  assert (migrate_similarity_data md sim db3 = db3) as ->.
  { unfold migrate_similarity_data.
    rewrite (movie_id_map_movies db1 db3) by done.
    apply data_settled_fixed.
    eapply data_settled_grows; [exact Hg23|].
    apply data_settled_after. }
  apply pair_pass_idempotent.
Qed.

Lemma main_idempotent_witness :
  (main int32 line_catalog line_matrix (ingested int32 twin_catalog)).1
    = true ∧
  main int32 line_catalog line_matrix
    (main int32 line_catalog line_matrix (ingested int32 twin_catalog)).2 =
  main int32 line_catalog line_matrix (ingested int32 twin_catalog).
Proof.
  apply (main_idempotent int32 line_catalog line_matrix
           (ingested int32 twin_catalog)).
  split; [by apply (bool_decide_unpack _); vm_compute|].
  split; [by apply (bool_decide_unpack _); vm_compute|].
  repeat constructor; intros z [= <-];
    by apply (bool_decide_unpack _); vm_compute.
Defined.

(** ** The [/api/recommend] handler on any pickles and any database *)

Lemma persisted_items_length (db : Database) (recs : list Recommendation)
    (items : list Item) :
  persisted_items db recs = Ok items → length items = length recs.
Proof.
  unfold persisted_items. rewrite mapM_Ok. intros H.
  symmetry. by eapply Forall2_length.
Qed.

Lemma length_recommendations_for (db : Database) (s : nat) :
  length (recommendations_for db s) ≤ 10.
Proof. unfold recommendations_for. rewrite length_take. lia. Qed.

(** X11: a successful answer of [recommend_movies] echoes the requested
    title and never carries more than ten items, whichever path produced
    it and whatever the database and the pickles hold. *)
Theorem recommend_movies_at_most_ten (env : Pickle) (req : Request)
    (a : bool) (db : Database) (sel : string) (items : list Item)
    (src : provenance) :
  response (recommend_movies env req a db) = Recommended sel items src →
  json_movie req = Some sel ∧ length items ≤ 10.
Proof.
  intros [Hsel Hsrc]%response_inv. split; [done|]. destruct src.
  - destruct Hsrc as (m & _ & _ & Hitems).
    apply persisted_items_length in Hitems. rewrite Hitems.
    apply length_recommendations_for.
  - apply pickle_fallback_Ok in Hsrc as (_ & _ & md & sim & _ & _ & Hrec).
    apply recommend_from_pickle_Ok in Hrec
      as (i & r0 & row & _ & _ & _ & _ & Hitems).
    apply Forall2_length in Hitems. rewrite <-Hitems.
    rewrite length_ranked_neighbours. lia.
Qed.

Lemma recommend_movies_at_most_ten_witness :
  json_movie (ask "entry0") = Some "entry0" ∧ length toy_items ≤ 10.
Proof.
  apply (recommend_movies_at_most_ten toy_pickle (ask "entry0") true empty_db
           "entry0" toy_items FromPickle).
  vm_compute. reflexivity.
Defined.

(** X12: what a request does to the database.  The movies, the
    recommendations and the similarity pairs are never touched.  When the
    answer comes from the database and the storage engine accepts the
    write, the analytics history grows by exactly one row that records the
    source movie and the client of the request; in every other case (a
    failure, an answer from the pickles, a refused write) the database is
    left exactly as it was. *)
Theorem recommend_movies_database_effect (env : Pickle) (req : Request)
    (a : bool) (db : Database) :
  let r := recommend_movies env req a db in
  movies (database_after r) = movies db ∧
  recommendations (database_after r) = recommendations db ∧
  similarity_pairs (database_after r) = similarity_pairs db ∧
  ((∃ sel items m,
      a = true ∧
      response r = Recommended sel items FromDatabase ∧
      movie_by_title db sel = Some m ∧
      recommendation_history (database_after r) =
        recommendation_history db ++
          [ {| hist_id := S (length (recommendation_history db));
               hist_source_movie_id := movie_id m;
               session_id := req_session_id req;
               user_agent := req_user_agent req;
               ip_address := req_remote_addr req |} ]) ∨
   ((a = false ∨
     ∀ sel items, response r ≠ Recommended sel items FromDatabase) ∧
    database_after r = db)).
Proof.
  unfold database_after, response, recommend_movies, recommend_body.
  cbv zeta.
  destruct (json_movie req) as [sel|];
    [|repeat split; right; split; [by right|done]].
  assert (∀ fb : result Response,
    let r := match fb ≫= (λ r, Ok (r, db, [])) with
             | Ok r => r
             | Raise e => (Failure FailedToGenerate, db, [GenerationFailed e])
             end in
    fb = pickle_fallback env sel →
    r.1.2 = db ∧ ∀ sel' items, r.1.1 ≠ Recommended sel' items FromDatabase)
    as Hfallback.
  { intros fb r Hfb. subst r. destruct fb as [resp|e]; simpl; [|done].
    split; [done|]. intros sel' items ->.
    symmetry in Hfb. by apply pickle_fallback_Ok in Hfb as (_ & ? & _). }
  destruct (movie_by_title db sel) as [m|] eqn:Hm.
  - destruct (recommendations_for db (movie_id m)) as [|rec recs].
    + destruct (Hfallback _ eq_refl) as [-> Hne].
      repeat split. right. split; [by right|done].
    + destruct (persisted_items db (rec :: recs)) as [items|e]; simpl;
        [|repeat split; right; split; [by right|done]].
      destruct a; simpl.
      * repeat split. left. by exists sel, items, m.
      * repeat split. right. split; [by left|done].
  - destruct (Hfallback _ eq_refl) as [-> Hne].
    repeat split. right. split; [by right|done].
Qed.

(** X13: a title that is neither in the [movies] table nor in the pickled
    catalog is answered with a 404 failure (movie not found, or pickles
    not available), the database is left as it was and nothing is
    logged. *)
Theorem recommend_movies_unknown_title (env : Pickle) (req : Request)
    (a : bool) (db : Database) (t : string) :
  json_movie req = Some t →
  t ∉ titles db →
  (∀ md, movie_data env = Some md → t ∉ row_title <$> md) →
  ∃ e, recommend_movies env req a db = (Failure e, db, []) ∧
       (e = MovieNotFound ∨ e = PickleNotAvailable).
Proof.
  intros Hreq Hdb%movie_by_title_None Hmd.
  unfold recommend_movies, recommend_body. rewrite Hreq, Hdb. cbv zeta.
  unfold pickle_fallback.
  destruct (data_loaded env); simpl; [|by exists PickleNotAvailable; auto].
  destruct (movie_data env) as [md|]; [|by exists PickleNotAvailable; auto].
  destruct (similarity_matrix env) as [sim|];
    [|by exists PickleNotAvailable; auto].
  unfold recommend_from_pickle.
  destruct (list_find _ md) as [[i r]|] eqn:Hfind;
    [|by exists MovieNotFound; auto].
  apply list_find_Some in Hfind as (Hi & Ht & _).
  exfalso. apply (Hmd md eq_refl). rewrite <-Ht.
  apply list_elem_of_fmap_2. by eapply list_elem_of_lookup_2.
Qed.

Lemma recommend_movies_unknown_title_witness :
  ∃ e, recommend_movies toy_pickle (ask "Nonexistent Movie XYZ") true
         (main int32 toy_catalog toy_matrix empty_db).2 =
       (Failure e, (main int32 toy_catalog toy_matrix empty_db).2, []) ∧
       (e = MovieNotFound ∨ e = PickleNotAvailable).
Proof.
  apply (recommend_movies_unknown_title toy_pickle
           (ask "Nonexistent Movie XYZ") true
           (main int32 toy_catalog toy_matrix empty_db).2 "Nonexistent Movie XYZ").
  - reflexivity.
  - by apply (bool_decide_unpack _); vm_compute.
  - intros md [= <-]. by apply (bool_decide_unpack _); vm_compute.
Defined.

(** X14: the database comes first.  When a request is answered from the
    database, the pickles play no part: the same request gets the same
    answer with any other pickles, or with none at all. *)
Theorem recommend_movies_database_first (env env' : Pickle) (req : Request)
    (a a' : bool) (db : Database) (sel : string) (items : list Item) :
  response (recommend_movies env req a db) =
    Recommended sel items FromDatabase →
  response (recommend_movies env' req a' db) =
    Recommended sel items FromDatabase.
Proof.
  intros (Hsel & m & Hm & Hne & Hitems)%response_inv.
  unfold response, recommend_movies, recommend_body. rewrite Hsel, Hm.
  cbv zeta.
  destruct (recommendations_for db (movie_id m)) as [|rec recs]; [done|].
  rewrite Hitems. simpl. by destruct (write_history _ _ _ _).
Qed.

Lemma recommend_movies_database_first_witness :
  response (recommend_movies (load_data None None) (ask "entry0") false
              (main int32 toy_catalog toy_matrix empty_db).2) =
    Recommended "entry0" toy_items FromDatabase.
Proof.
  apply (recommend_movies_database_first toy_pickle (load_data None None)
           (ask "entry0") true false (main int32 toy_catalog toy_matrix empty_db).2).
  vm_compute. reflexivity.
Defined.

(** X15: a similarity matrix with fewer rows than the catalog.  For a
    title the database does not know and whose catalog position has no
    matrix row, the lookup [similarity_matrix[movie_index]] raises and
    the request ends in the 500 failure, logged as a generation error,
    with the database unchanged. *)
Theorem recommend_movies_short_matrix (md : DataFrame) (sim : Matrix)
    (req : Request) (a : bool) (db : Database) (t : string) (i : nat)
    (r : CatalogRow) :
  json_movie req = Some t →
  movie_by_title db t = None →
  list_find (λ r, row_title r = t) md = Some (i, r) →
  length sim ≤ i →
  recommend_movies (loaded md sim) req a db =
    (Failure FailedToGenerate, db, [GenerationFailed IndexError]).
Proof.
  intros Hreq Hdb Hfind Hlen.
  unfold recommend_movies, recommend_body. rewrite Hreq, Hdb. cbv zeta.
  unfold pickle_fallback, loaded, load_data. simpl.
  unfold recommend_from_pickle. rewrite Hfind.
  unfold getitem. by rewrite (lookup_ge_None_2 sim i).
Qed.

Lemma recommend_movies_short_matrix_witness :
  recommend_movies (loaded toy_catalog (take 2 toy_matrix)) (ask "entry2")
    true empty_db =
  (Failure FailedToGenerate, empty_db, [GenerationFailed IndexError]).
Proof.
  apply (recommend_movies_short_matrix toy_catalog (take 2 toy_matrix)
           (ask "entry2") true empty_db "entry2" 2
           {| row_id := Some 3%Z; row_title := "entry2"; row_tags := "c" |}).
  - reflexivity.
  - reflexivity.
  - vm_compute. reflexivity.
  - simpl. lia.
Defined.

(** ** Sorting in general *)

Section stable_sort_sorted.
Context {A : Type} (before : A → A → bool) (R : relation A).
Context (Hbefore : ∀ y x, before y x = true → R y x).
Context (Hafter : ∀ y x, before y x = false → R x y).
Context (Htrans : ∀ a b c, R a b → R b c → R a c).

Lemma insert_by_sorted (x : A) (l : list A) :
  StronglySorted R l → StronglySorted R (insert_by before x l).
Proof.
  induction 1 as [|y l Hl IH Hy]; simpl.
  - repeat constructor.
  - destruct (before y x) eqn:Hyx.
    + constructor; [done|]. rewrite insert_by_Permutation.
      constructor; [by apply Hbefore|done].
    + constructor; [by constructor|].
      constructor; [by apply Hafter|].
      eapply Forall_impl; [done|]. intros z Hz. simpl in Hz.
      apply (Htrans x y z); [by apply Hafter|done].
Qed.

Lemma stable_sort_sorted (l : list A) : StronglySorted R (stable_sort before l).
Proof.
  unfold stable_sort. induction l as [|x l IH]; simpl; [constructor|].
  by apply insert_by_sorted.
Qed.
End stable_sort_sorted.

(** *** The order of [str] *)

Lemma string_compare_trans (a b c : string) :
  String.compare a b ≠ Gt → String.compare b c ≠ Gt → String.compare a c ≠ Gt.
Proof.
  revert b c. induction a as [|x a IH]; intros [|y b] [|z c]; simpl; try done.
  unfold Ascii.compare.
  destruct (N.compare_spec (Ascii.N_of_ascii x) (Ascii.N_of_ascii y)),
    (N.compare_spec (Ascii.N_of_ascii y) (Ascii.N_of_ascii z)),
    (N.compare_spec (Ascii.N_of_ascii x) (Ascii.N_of_ascii z));
    try done; try lia.
  apply IH.
Qed.

Lemma string_ltb_leb (y x : string) : String.ltb y x = true → String.leb y x = true.
Proof. unfold String.ltb, String.leb. by destruct (String.compare y x). Qed.

Lemma string_ltb_false_leb (y x : string) :
  String.ltb y x = false → String.leb x y = true.
Proof.
  unfold String.ltb, String.leb. rewrite (String.compare_antisym x y).
  by destruct (String.compare y x).
Qed.

Lemma string_leb_trans (a b c : string) :
  String.leb a b = true → String.leb b c = true → String.leb a c = true.
Proof.
  unfold String.leb. intros Hab Hbc.
  pose proof (string_compare_trans a b c) as Hac.
  destruct (String.compare a b), (String.compare b c), (String.compare a c);
    try done; by destruct Hac.
Qed.

Lemma sorted_titles_sorted (l : list string) :
  StronglySorted (λ a b, String.leb a b = true) (sorted_titles l).
Proof.
  apply stable_sort_sorted.
  - apply string_ltb_leb.
  - apply string_ltb_false_leb.
  - apply string_leb_trans.
Qed.

(** ** The [/api/movies] handler *)

Lemma stable_sort_nil {A} (before : A → A → bool) (l : list A) :
  stable_sort before l = [] ↔ l = [].
Proof.
  split; [|by intros ->].
  intros Hs. apply Permutation_nil_r. by rewrite <-Hs, stable_sort_Permutation.
Qed.

(** X16: what [get_movies] answers.  A listing carries the number of its
    titles.  It comes from the database exactly when the [movies] table is
    not empty, and is then an arrangement of all its titles (the pickles
    are not consulted); otherwise it is the catalog's titles in ascending
    code-point order.  The failure needs an empty table together with a
    failed [load_data] or no movie list. *)
Theorem get_movies_lists_all (collate : string → string → bool)
    (env : Pickle) (db : Database) :
  match get_movies collate env db with
  | MovieList ms n src =>
      n = length ms ∧
      match src with
      | FromDatabase => movies db ≠ [] ∧ ms ≡ₚ titles db
      | FromPickle =>
          movies db = [] ∧ data_loaded env = true ∧
          ∃ md, movie_data env = Some md ∧
                ms ≡ₚ row_title <$> md ∧
                StronglySorted (λ a b, String.leb a b = true) ms
      end
  | MovieDataNotAvailable =>
      movies db = [] ∧ (data_loaded env = false ∨ movie_data env = None)
  end.
Proof.
  unfold get_movies, order_by_title.
  destruct (stable_sort _ (movies db)) as [|m ms] eqn:Hs.
  - apply stable_sort_nil in Hs.
    destruct (data_loaded env); simpl; [|by auto].
    destruct (movie_data env) as [md|]; [|by auto].
    split; [done|]. split; [done|]. split; [done|]. exists md.
    split; [done|]. split; [|apply sorted_titles_sorted].
    apply stable_sort_Permutation.
  - cbv zeta. split; [done|]. split.
    + intros Hnil. rewrite Hnil in Hs. done.
    + unfold titles. by rewrite <-Hs, stable_sort_Permutation.
Qed.

(** X17: [movie_list.pkl] without [similarity.pkl].  [load_data] keeps
    the movie list but reports failure, so with an empty [movies] table
    the health check says healthy with the movie data loaded and counted,
    while the listing fails and every recommendation request is refused
    with the pickles-not-available failure. *)
Theorem partial_pickles_unusable (collate : string → string → bool)
    (md : DataFrame) (db : Database) (req : Request) (a : bool) (t : string) :
  movies db = [] →
  json_movie req = Some t →
  let env := load_data (Some md) None in
  health_status (health_check env db) = "healthy" ∧
  movie_data_loaded (health_check env db) = true ∧
  pickle_movies_count (health_check env db) = Some (length md) ∧
  get_movies collate env db = MovieDataNotAvailable ∧
  recommend_movies env req a db = (Failure PickleNotAvailable, db, []).
Proof.
  intros Hm Hreq env. repeat split.
  - unfold get_movies, order_by_title. by rewrite Hm.
  - unfold recommend_movies, recommend_body, movie_by_title.
    by rewrite Hreq, Hm.
Qed.

Lemma partial_pickles_unusable_witness :
  health_status (health_check (load_data (Some toy_catalog) None) empty_db) =
    "healthy" ∧
  movie_data_loaded (health_check (load_data (Some toy_catalog) None) empty_db)
    = true ∧
  pickle_movies_count (health_check (load_data (Some toy_catalog) None)
                         empty_db) = Some (length toy_catalog) ∧
  get_movies String.ltb (load_data (Some toy_catalog) None) empty_db =
    MovieDataNotAvailable ∧
  recommend_movies (load_data (Some toy_catalog) None) (ask "entry0") true
    empty_db = (Failure PickleNotAvailable, empty_db, []).
Proof.
  apply (partial_pickles_unusable String.ltb toy_catalog empty_db
           (ask "entry0") true "entry0"); reflexivity.
Defined.

(** X18: every title that [get_movies] lists from the pickles can be
    asked for.  When the matrix has a row for every catalog position and
    no row is longer than the catalog, a request for a listed title is
    answered from the pickles with a recommendation, and the database is
    left as it was. *)
Theorem listed_titles_are_served (collate : string → string → bool)
    (md : DataFrame) (sim : Matrix) (db : Database) (ms : list string)
    (n : nat) (req : Request) (a : bool) (t : string) :
  length md ≤ length sim →
  Forall (λ row, length row ≤ length md) sim →
  get_movies collate (loaded md sim) db = MovieList ms n FromPickle →
  t ∈ ms →
  json_movie req = Some t →
  ∃ items,
    recommend_movies (loaded md sim) req a db =
      (Recommended t items FromPickle, db, []).
Proof.
  intros Hlen Hrows Hlist Ht Hreq.
  unfold get_movies, order_by_title in Hlist.
  destruct (stable_sort _ (movies db)) as [|m ms'] eqn:Hs; [|done].
  apply stable_sort_nil in Hs. simpl in Hlist. injection Hlist as <- _.
  unfold sorted_titles in Ht. rewrite stable_sort_Permutation in Ht.
  apply list_elem_of_fmap in Ht as (r & -> & Hr).
  destruct (list_find_elem_of (λ r', row_title r' = row_title r) md r Hr eq_refl)
    as [[i r0] Hfind].
  pose proof Hfind as (Hi & _ & _)%list_find_Some.
  apply lookup_lt_Some in Hi.
  destruct (lookup_lt_is_Some_2 sim i) as [row Hrow]; [lia|].
  destruct (recommend_from_pickle_total md sim (row_title r) i r0 row)
    as (items & Hitems & _); [done|done| |].
  { apply (proj1 (Forall_forall _ _) Hrows row).
    by eapply list_elem_of_lookup_2. }
  exists items.
  rewrite (recommend_movies_fallback _ _ _ _ (row_title r) Hreq).
  - unfold pickle_fallback, loaded, load_data.
    cbn [data_loaded movie_data similarity_matrix negb]. by rewrite Hitems.
  - left. unfold movie_by_title. by rewrite Hs.
Qed.

Lemma listed_titles_are_served_witness :
  ∃ items,
    recommend_movies (loaded toy_catalog toy_matrix) (ask "entry1") true
      empty_db = (Recommended "entry1" items FromPickle, empty_db, []).
Proof.
  apply (listed_titles_are_served String.ltb toy_catalog toy_matrix empty_db
           ["entry0"; "entry1"; "entry2"] 3 (ask "entry1") true "entry1").
  - simpl. lia.
  - by apply (bool_decide_unpack _); vm_compute.
  - reflexivity.
  - by apply (bool_decide_unpack _); vm_compute.
  - reflexivity.
Defined.

(** ** The [/api/movies/<int:movie_id>] handler *)

Lemma main_movies_any (fits : CatalogRow → bool) (md : DataFrame)
    (sim : Matrix) (db : Database) :
  movies (main fits md sim db).2 = movies (mm_db (migrate_movies fits md db)).
Proof.
  unfold main. destruct (mm_ok (migrate_movies fits md db)); [|done].
  cbn [snd].
  destruct (pair_pass_grows md sim
    (movie_id_map
       (migrate_similarity_data md sim (mm_db (migrate_movies fits md db))))
    (migrate_similarity_data md sim (mm_db (migrate_movies fits md db))))
    as (Hm & _).
  unfold migrate_similarity_matrix. cbv zeta. rewrite Hm.
  apply (data_pass_grows md sim _ (mm_db (migrate_movies fits md db))).
Qed.

Lemma movie_by_id_imap_None (md : DataFrame) (id : nat) :
  (id = 0 ∨ length md < id) →
  list_find (λ m, movie_id m = id) (imap (λ i, movie_of_row (S i)) md) = None.
Proof.
  intros Hid. apply list_find_None, Forall_forall.
  intros m (i & r & -> & Hi%lookup_lt_Some)%elem_of_lookup_imap. simpl. lia.
Qed.

(** X19: the details of a movie after a migration into an empty
    database, for a catalog of pairwise distinct titles and keys whose
    rows fit the columns of the storage engine.  The identifier [i + 1]
    gives the [i]-th catalog row: its title and its TMDB id, with empty
    [genre] and [overview] and no other attribute.  Any other identifier
    ends in the 500 failure: the not-found error of [get_or_404] is
    caught by the handler's own [except] clause and never reaches the
    client as a 404. *)
Theorem get_movie_details_after_main (fits : CatalogRow → bool)
    (md : DataFrame) (sim : Matrix) (id : nat) :
  NoDup (row_title <$> md) →
  Forall (λ row, fits row = true) md →
  NoDup (omap row_id md) →
  get_movie_details (main fits md sim empty_db).2 id =
    match id with
    | 0 => FailedToRetrieveDetails
    | S i =>
        match md !! i with
        | Some r =>
            Details {| dict_id := S i;
                       dict_tmdb_id := row_id r;
                       dict_title := row_title r;
                       dict_genre := "";
                       dict_overview := "";
                       dict_release_date := None;
                       dict_poster_url := None;
                       dict_imdb_rating := None;
                       dict_popularity := None |}
        | None => FailedToRetrieveDetails
        end
    end.
Proof.
  intros Hnd Hcol Hkeys. unfold get_movie_details, get_or_404.
  pose proof (main_movies_any fits md sim empty_db) as Hm.
  fold (ingested fits md) in Hm.
  destruct id as [|i].
  - unfold movie_by_id. rewrite Hm, (movies_ingested fits md Hnd Hcol Hkeys).
    rewrite movie_by_id_imap_None; [done|by left].
  - destruct (md !! i) as [r|] eqn:Hi.
    + by rewrite (movie_by_id_ingested fits md Hnd Hcol Hkeys _ i r Hm Hi).
    + unfold movie_by_id.
      rewrite Hm, (movies_ingested fits md Hnd Hcol Hkeys).
      rewrite movie_by_id_imap_None; [done|].
      right. apply lookup_ge_None in Hi. lia.
Qed.

Lemma get_movie_details_after_main_witness :
  get_movie_details (main int32 toy_catalog toy_matrix empty_db).2 2 =
    Details {| dict_id := 2;
               dict_tmdb_id := Some 2%Z;
               dict_title := "entry1";
               dict_genre := "";
               dict_overview := "";
               dict_release_date := None;
               dict_poster_url := None;
               dict_imdb_rating := None;
               dict_popularity := None |}.
Proof.
  apply (get_movie_details_after_main int32 toy_catalog toy_matrix 2).
  - by apply (bool_decide_unpack _); vm_compute.
  - by apply (bool_decide_unpack _); vm_compute.
  - by apply (bool_decide_unpack _); vm_compute.
Defined.

(** ** The [/api/stats] handler *)

(** X20: the most-recommended list of [get_stats] is a top five.  It has
    at most five entries, in order of non-increasing count; every entry
    is the title and the positive count of a movie of the table; and a
    movie with a positive count that is not listed has a count no greater
    than any listed one, the list then being full. *)
Theorem most_recommended_is_top_five (users ratings : nat) (db : Database) :
  let top := most_recommended_movies (get_stats users ratings db) in
  length top ≤ 5 ∧
  StronglySorted (λ a b : string * nat, b.2 ≤ a.2) top ∧
  (∀ p, p ∈ top →
     0 < p.2 ∧
     ∃ m, m ∈ movies db ∧ p = (movie_title m, recommendation_count db m)) ∧
  (∀ m, m ∈ movies db → 0 < recommendation_count db m →
     (movie_title m, recommendation_count db m) ∈ top ∨
     (length top = 5 ∧ ∀ p, p ∈ top → recommendation_count db m ≤ p.2)).
Proof.
  simpl. unfold popular_movies.
  set (groups := filter (λ p : string * nat, 0 < p.2)
         ((λ m, (movie_title m, recommendation_count db m)) <$> movies db)).
  set (ordered := stable_sort (λ y x : string * nat, x.2 <? y.2) groups).
  assert (StronglySorted (λ a b : string * nat, b.2 ≤ a.2) ordered) as Hsorted.
  { apply stable_sort_sorted.
    - intros y x Hlt%Nat.ltb_lt. lia.
    - intros y x Hge%Nat.ltb_ge. lia.
    - intros a b c. lia. }
  assert (∀ p, p ∈ ordered ↔
            0 < p.2 ∧
            ∃ m, m ∈ movies db ∧ p = (movie_title m, recommendation_count db m))
    as Hordered.
  { intros p. unfold ordered. rewrite stable_sort_Permutation.
    unfold groups. rewrite list_elem_of_filter, list_elem_of_fmap.
    split; intros [? (m & ? & ?)]; (split; [done|]); by exists m. }
  split; [rewrite length_take; lia|]. split.
  { rewrite <-(take_drop 5 ordered) in Hsorted.
    by apply StronglySorted_app_1_l in Hsorted. }
  split.
  { intros p Hp%subseteq_take. by apply Hordered. }
  intros m Hm Hpos.
  assert ((movie_title m, recommendation_count db m) ∈ ordered) as Hin.
  { apply Hordered. split; [done|]. by exists m. }
  rewrite <-(take_drop 5 ordered) in Hin, Hsorted.
  apply elem_of_app in Hin as [Hin|Hin]; [by left|]. right. split.
  - rewrite length_take. apply Nat.min_l.
    destruct (decide (5 ≤ length ordered)) as [|Hshort]; [done|].
    rewrite drop_ge in Hin by lia. by apply elem_of_nil in Hin.
  - intros p Hp.
    apply (StronglySorted_app_1_elem_of _ _ _ _ _ Hsorted Hp Hin).
Qed.

(** X21: the statistics after a recommendation request.  Only the
    request counter can move, and it moves by one exactly when the
    request was answered from the database and the analytics write was
    accepted; the totals and the most-recommended list stay the same. *)
Theorem get_stats_after_request (users ratings : nat) (env : Pickle)
    (req : Request) (a : bool) (db : Database) :
  let r := recommend_movies env req a db in
  let before := get_stats users ratings db in
  let counted :=
    match response r with
    | Recommended _ _ FromDatabase => a
    | _ => false
    end in
  get_stats users ratings (database_after r) =
    {| total_movies := total_movies before;
       total_recommendations := total_recommendations before;
       total_users := total_users before;
       total_ratings := total_ratings before;
       recommendation_requests :=
         recommendation_requests before + (if counted then 1 else 0);
       most_recommended_movies := most_recommended_movies before |}.
Proof.
  cbv zeta.
  unfold database_after, response, recommend_movies, recommend_body.
  cbv zeta.
  assert (get_stats users ratings db =
    {| total_movies := total_movies (get_stats users ratings db);
       total_recommendations :=
         total_recommendations (get_stats users ratings db);
       total_users := total_users (get_stats users ratings db);
       total_ratings := total_ratings (get_stats users ratings db);
       recommendation_requests :=
         recommendation_requests (get_stats users ratings db) + 0;
       most_recommended_movies :=
         most_recommended_movies (get_stats users ratings db) |}) as Hsame.
  { simpl. by rewrite Nat.add_0_r. }
  destruct (json_movie req) as [sel|]; [|exact Hsame].
  assert (∀ fb : result Response,
    let r := match fb ≫= (λ r, Ok (r, db, [])) with
             | Ok r => r
             | Raise e => (Failure FailedToGenerate, db, [GenerationFailed e])
             end in
    fb = pickle_fallback env sel →
    r.1.2 = db ∧
    match r.1.1 with Recommended _ _ FromDatabase => a | _ => false end = false)
    as Hfallback.
  { intros fb r Hfb. subst r. destruct fb as [resp|e]; simpl; [|done].
    split; [done|]. destruct resp as [sel' items src|]; [|done].
    symmetry in Hfb. by apply pickle_fallback_Ok in Hfb as (_ & -> & _). }
  destruct (movie_by_title db sel) as [m|] eqn:Hm.
  - destruct (recommendations_for db (movie_id m)) as [|rec recs].
    + destruct (Hfallback _ eq_refl) as [-> ->]. exact Hsame.
    + destruct (persisted_items db (rec :: recs)) as [items|e]; simpl;
        [|by rewrite Nat.add_0_r].
      destruct a; simpl; [|by rewrite Nat.add_0_r].
      unfold get_stats. simpl. by rewrite length_app.
  - destruct (Hfallback _ eq_refl) as [-> ->]. exact Hsame.
Qed.

(** ** The size of the tables after [main] *)

Lemma sum_list_snoc (l : list nat) (x : nat) :
  sum_list (l ++ [x]) = sum_list l + x.
Proof. induction l as [|y l IH]; simpl; lia. Qed.

Lemma length_by_source (n : nat) (l : list Recommendation) :
  (∀ r, r ∈ l → ∃ i, i < n ∧ source_movie_id r = S i) →
  length l =
    sum_list ((λ i, length (filter (λ r, source_movie_id r = S i) l))
                <$> seq 0 n).
Proof.
  revert l. induction n as [|n IH]; intros l Hl.
  - destruct l as [|r l]; [done|].
    destruct (Hl r) as (i & Hi & _); [by left|lia].
  - rewrite seq_S, fmap_app. simpl. rewrite sum_list_snoc.
    rewrite <-(filter_app_complement (λ r, source_movie_id r = S n) l) at 1.
    rewrite length_app, Nat.add_comm. f_equal.
    rewrite (IH (filter (λ r, ¬ source_movie_id r = S n) l)).
    + f_equal. apply list_fmap_ext. intros ? i Hi%lookup_seq.
      rewrite list_filter_filter. f_equal. apply list_filter_iff.
      intros r. simpl in *. split; [by intros [? _]|]. intros Hr.
      split; [done|]. lia.
    + intros r [Hr Hin]%list_elem_of_filter.
      destruct (Hl r Hin) as (i & Hi & Hs). exists i. split; [|done].
      assert (i ≠ n) by congruence. lia.
Qed.

Lemma length_persisted_block (sim : Matrix) (base i : nat) :
  length (persisted_block sim base i) =
    match sim !! i with
    | Some row => 10 `min` (length row - 1)
    | None => 0
    end.
Proof.
  unfold persisted_block. destruct (sim !! i) as [row|]; [|done].
  by rewrite length_imap, length_ranked_neighbours.
Qed.

(** X22: the sizes that the migration summary and the health check
    report after a migration into an empty database.  For a catalog of
    [N] pairwise distinct titles and keys whose rows fit the columns of
    the storage engine, and an [N] by [N] matrix, there are [N] movies
    and [N * min(10, N - 1)] recommendations: ten per movie when the
    catalog has at least eleven entries. *)
Theorem main_summary_counts (fits : CatalogRow → bool) (env : Pickle)
    (md : DataFrame) (sim : Matrix) :
  NoDup (row_title <$> md) →
  Forall (λ row, fits row = true) md →
  NoDup (omap row_id md) →
  length sim = length md →
  Forall (λ row, length row = length md) sim →
  movies_in_database (health_check env (main fits md sim empty_db).2)
    = length md ∧
  recommendations_in_database (health_check env (main fits md sim empty_db).2)
    = length md * (10 `min` (length md - 1)).
Proof.
  intros Hnd Hcol Hkeys Hlen Hsquare. simpl.
  assert (Forall (λ row, length row ≤ length md) sim) as Hrows.
  { eapply Forall_impl; [done|]. simpl. lia. }
  split.
  - rewrite main_movies_any. fold (ingested fits md).
    by rewrite (movies_ingested fits md Hnd Hcol Hkeys), length_imap.
  - rewrite (main_recommendations fits md Hcol Hkeys).
    destruct (similarity_data_inv_final fits md Hnd Hcol Hkeys sim Hrows)
      as (_ & _ & _ & Hblocks & Hsources).
    rewrite (length_by_source (length md)) by done.
    rewrite (sum_list_fmap_same (10 `min` (length md - 1)));
      [by rewrite length_seq|].
    apply Forall_forall. intros i [_ Hi]%elem_of_seq. simpl in Hi.
    destruct (Hblocks i Hi) as [base Hbase]. unfold rows_of in Hbase.
    rewrite Hbase, length_persisted_block.
    destruct (lookup_lt_is_Some_2 sim i) as [row Hrow]; [lia|].
    rewrite Hrow.
    by rewrite (proj1 (Forall_forall _ _) Hsquare row
                  (list_elem_of_lookup_2 _ _ _ Hrow)).
Qed.

Lemma main_summary_counts_witness :
  movies_in_database
    (health_check toy_pickle (main int32 line_catalog line_matrix empty_db).2)
    = 12 ∧
  recommendations_in_database
    (health_check toy_pickle (main int32 line_catalog line_matrix empty_db).2)
    = 120.
Proof.
  apply (main_summary_counts int32 toy_pickle line_catalog line_matrix).
  - by apply (bool_decide_unpack _); vm_compute.
  - by apply (bool_decide_unpack _); vm_compute.
  - by apply (bool_decide_unpack _); vm_compute.
  - reflexivity.
  - by apply (bool_decide_unpack _); vm_compute.
Defined.

(** ** Referential integrity *)

Lemma movie_by_id_is_Some (db : Database) (i : nat) :
  is_Some (movie_by_id db i) ↔ known_movie db i.
Proof.
  unfold movie_by_id, known_movie. rewrite fmap_is_Some. split.
  - intros [[k m] (Hk & Hid & _)%list_find_Some]. simpl in Hid. subst i.
    apply list_elem_of_fmap_2. by eapply list_elem_of_lookup_2.
  - intros (m & -> & Hm)%list_elem_of_fmap.
    by apply (list_find_elem_of (λ m', movie_id m' = movie_id m) _ m).
Qed.

Lemma foldl_insert_title_Some (l : list Movie) (m0 : gmap string nat)
    (t : string) (k : nat) :
  foldl (λ m mv, <[movie_title mv := movie_id mv]> m) m0 l !! t = Some k →
  m0 !! t = Some k ∨ ∃ mv, mv ∈ l ∧ movie_title mv = t ∧ movie_id mv = k.
Proof.
  revert m0. induction l as [|mv l IH]; intros m0 Hk; simpl in Hk; [by left|].
  apply IH in Hk as [Hk|(mv' & Hin & Ht & Hid)].
  - destruct (decide (movie_title mv = t)) as [Ht|Ht].
    + subst t. rewrite lookup_insert_eq in Hk. injection Hk as <-.
      right. exists mv. split; [by left|done].
    + rewrite lookup_insert_ne in Hk by done. by left.
  - right. exists mv'. split; [by right|done].
Qed.

Lemma get_id_known (db : Database) (t : string) (k : nat) :
  get_id (movie_id_map db) t = Some k → known_movie db k.
Proof.
  unfold get_id, movie_id_map.
  destruct (foldl _ ∅ (movies db) !! t) as [[|n]|] eqn:Hk; [done| |done].
  intros [= <-].
  apply foldl_insert_title_Some in Hk as [Hk|(mv & Hin & _ & Hid)]; [done|].
  unfold known_movie. rewrite <-Hid. by apply list_elem_of_fmap_2.
Qed.

Lemma references_ok_grows (Qr : Recommendation → Prop)
    (Qp : SimilarityMatrix → Prop) (db db' : Database) :
  (∀ r, Qr r → known_movie db (source_movie_id r) ∧
                 known_movie db (recommended_movie_id r)) →
  (∀ p, Qp p → known_movie db (movie1_id p) ∧ known_movie db (movie2_id p)) →
  grows Qr Qp db db' → references_ok db → references_ok db'.
Proof.
  intros HQr HQp (Hm & Hh & (newr & Hr & Hnewr) & (newp & Hp & Hnewp))
    (Hrecs & Hpairs & Hhist).
  unfold references_ok, known_movie in *. rewrite Hm, Hh, Hr, Hp.
  split; [|split; [|done]].
  - apply Forall_app. split; [done|]. eapply Forall_impl; [done|]. apply HQr.
  - apply Forall_app. split; [done|]. eapply Forall_impl; [done|]. apply HQp.
Qed.

Lemma references_ok_more_movies (db db' : Database) :
  movies db `prefix_of` movies db' →
  recommendations db' = recommendations db →
  similarity_pairs db' = similarity_pairs db →
  recommendation_history db' = recommendation_history db →
  references_ok db → references_ok db'.
Proof.
  intros [new Hm] Hr Hp Hh (Hrecs & Hpairs & Hhist).
  assert (∀ i, known_movie db i → known_movie db' i) as Hknown.
  { intros i. unfold known_movie. rewrite Hm, fmap_app, elem_of_app. auto. }
  unfold references_ok. rewrite Hr, Hp, Hh.
  split; [|split]; (eapply Forall_impl; [done|]); simpl; intuition.
Qed.

(** X23: the migration keeps the foreign keys valid.  When every row of
    the database refers to movies of the [movies] table, so does every
    row after [main], whatever the catalog and the matrix are, whatever
    the engine refuses and whether [main] succeeds or not: committed
    movies are never removed, and the identifiers written by the two
    similarity passes are read from the table itself. *)
Theorem main_keeps_references (fits : CatalogRow → bool) (md : DataFrame)
    (sim : Matrix) (db : Database) :
  references_ok db → references_ok (main fits md sim db).2.
Proof.
  intros Hdb. unfold main.
  set (db1 := mm_db (migrate_movies fits md db)).
  assert (references_ok db1) as Hdb1.
  { destruct (migrate_movies_frame fits md db)
      as ((new & Hm & _) & Hr & Hp & Hh & _).
    apply (references_ok_more_movies db); [by exists new|done..]. }
  destruct (mm_ok (migrate_movies fits md db)); [|done]. cbn [snd].
  set (db2 := migrate_similarity_data md sim db1).
  assert (references_ok db2) as Hdb2.
  { eapply references_ok_grows;
      [| |apply (data_pass_grows md sim (movie_id_map db1) db1)|done].
    - intros r (_ & i & row & idx & target_row & _ & Hs & _ & Ht & _).
      split; by eapply get_id_known.
    - done. }
  eapply references_ok_grows;
    [| |apply (pair_pass_grows md sim (movie_id_map db2) db2)|done].
  - done.
  - intros p (_ & _ & i & j & row1 & row2 & _ & _ & H1 & _ & H2 & _).
    split; by eapply get_id_known.
Qed.

Lemma main_keeps_references_witness :
  references_ok (main int32 line_catalog line_matrix
                   (main int32 toy_catalog toy_matrix empty_db).2).2.
Proof.
  apply (main_keeps_references int32 line_catalog line_matrix
           (main int32 toy_catalog toy_matrix empty_db).2).
  unfold references_ok, known_movie.
  repeat split; by apply (bool_decide_unpack _); vm_compute.
Defined.

Lemma database_after_cases (env : Pickle) (req : Request) (a : bool)
    (db : Database) :
  database_after (recommend_movies env req a db) = db ∨
  ∃ sel m, movie_by_title db sel = Some m ∧
           write_history true db m req =
             Ok (database_after (recommend_movies env req a db)).
Proof.
  unfold database_after, recommend_movies, recommend_body.
  destruct (json_movie req) as [sel|]; [|by left].
  destruct (movie_by_title db sel) as [m|] eqn:Hm.
  - destruct (recommendations_for db (movie_id m)) as [|rec recs].
    + destruct (pickle_fallback env sel); by left.
    + destruct (persisted_items db (rec :: recs)); simpl; [|by left].
      destruct a; simpl; [|by left]. right. by exists sel, m.
  - destruct (pickle_fallback env sel); by left.
Qed.

(** X24: a recommendation request keeps the foreign keys valid: the
    analytics row it may write refers to the movie that was found by
    title. *)
Theorem recommend_movies_keeps_references (env : Pickle) (req : Request)
    (a : bool) (db : Database) :
  references_ok db →
  references_ok (database_after (recommend_movies env req a db)).
Proof.
  intros Hdb.
  destruct (database_after_cases env req a db)
    as [->|(sel & m & Hm & Hwrite)]; [done|].
  simpl in Hwrite. injection Hwrite as <-.
  destruct Hdb as (Hrecs & Hpairs & Hhist).
  unfold references_ok, known_movie in *. simpl.
  split; [done|]. split; [done|].
  apply Forall_app. split; [done|]. constructor; [|done]. simpl.
  apply fmap_Some in Hm as ([k m'] & (Hk & _)%list_find_Some & ->).
  apply list_elem_of_fmap_2. by eapply list_elem_of_lookup_2.
Qed.

Lemma recommend_movies_keeps_references_witness :
  references_ok
    (database_after
       (recommend_movies toy_pickle (ask "entry0") true
          (main int32 toy_catalog toy_matrix empty_db).2)).
Proof.
  apply (recommend_movies_keeps_references toy_pickle (ask "entry0") true
           (main int32 toy_catalog toy_matrix empty_db).2).
  unfold references_ok, known_movie.
  repeat split; by apply (bool_decide_unpack _); vm_compute.
Defined.

(** X25: with valid foreign keys the database path cannot fail.  A title
    of the [movies] table that has recommendation rows is answered from
    the database, with one item per row that the query returns, whatever
    the pickles hold and whether or not the analytics write succeeds. *)
Theorem recommend_movies_persisted_total (env : Pickle) (req : Request)
    (a : bool) (db : Database) (t : string) (m : Movie) :
  references_ok db →
  json_movie req = Some t →
  movie_by_title db t = Some m →
  recommendations_for db (movie_id m) ≠ [] →
  ∃ items,
    response (recommend_movies env req a db) =
      Recommended t items FromDatabase ∧
    length items = length (recommendations_for db (movie_id m)).
Proof.
  intros (Hrecs & _) Hreq Hm Hne.
  destruct (mapM_Ok_total
    (λ rec,
       match movie_by_id db (recommended_movie_id rec) with
       | Some m => Ok {| item_title := movie_title m;
                         item_score := round4 (similarity_score rec) |}
       | None => Raise AttributeError
       end) (recommendations_for db (movie_id m))) as [items Hitems].
  { apply Forall_forall. intros rec Hrec.
    unfold recommendations_for in Hrec. apply subseteq_take in Hrec.
    rewrite stable_sort_Permutation in Hrec.
    apply list_elem_of_filter in Hrec as [_ Hrec].
    apply (proj1 (Forall_forall _ _) Hrecs) in Hrec as [_ Hknown].
    apply movie_by_id_is_Some in Hknown as [m' ->]. by eexists. }
  fold (persisted_items db (recommendations_for db (movie_id m))) in Hitems.
  exists items. split; [|by apply persisted_items_length in Hitems].
  unfold response, recommend_movies, recommend_body. rewrite Hreq, Hm.
  cbv zeta.
  destruct (recommendations_for db (movie_id m)) as [|rec recs]; [done|].
  rewrite Hitems. simpl. by destruct (write_history _ _ _ _).
Qed.

Lemma recommend_movies_persisted_total_witness :
  ∃ items,
    response (recommend_movies (load_data None None) (ask "entry1") false
                (main int32 toy_catalog toy_matrix empty_db).2) =
      Recommended "entry1" items FromDatabase ∧
    length items =
      length (recommendations_for (main int32 toy_catalog toy_matrix empty_db).2 2).
Proof.
  apply (recommend_movies_persisted_total (load_data None None)
           (ask "entry1") false (main int32 toy_catalog toy_matrix empty_db).2
           "entry1"
           {| movie_id := 2; tmdb_id := Some 2%Z; movie_title := "entry1";
              genre := ""; overview := ""; tags := "b" |}).
  - unfold references_ok, known_movie.
    repeat split; by apply (bool_decide_unpack _); vm_compute.
  - reflexivity.
  - vm_compute. reflexivity.
  - vm_compute. discriminate.
Defined.

(** ** The migration script and the listing *)

(** X26: the outcome of the migration script.  When the script returns
    true, [load_data] of the web application succeeds on the same two
    files (the converse fails: the movie pass can fail with both files
    read).  When [load_data] fails, the script returns false and leaves
    the database as it was.  After a run on a catalog that is not empty
    and whose new rows the storage accepts, the script has returned true
    and [get_movies] answers from the database, listing the titles the
    table held before together with the titles of the catalog, whatever
    pickles the application has loaded. *)
Theorem migrate_data_main_outcome (collate : string → string → bool)
    (env : Pickle) (fits : CatalogRow → bool) (movie_list : option DataFrame)
    (similarity : option Matrix) (db : Database) :
  ((migrate_data_main fits movie_list similarity db).1 = true →
   data_loaded (load_data movie_list similarity) = true) ∧
  (data_loaded (load_data movie_list similarity) = false →
   migrate_data_main fits movie_list similarity db = (false, db)) ∧
  (∀ md sim,
     movie_list = Some md → similarity = Some sim →
     insertable fits db md → md ≠ [] →
     (migrate_data_main fits movie_list similarity db).1 = true ∧
     ∃ ms n,
       get_movies collate env
         (migrate_data_main fits movie_list similarity db).2 =
         MovieList ms n FromDatabase ∧
       ∀ t, t ∈ ms ↔ t ∈ titles db ∨ t ∈ row_title <$> md).
Proof.
  unfold migrate_data_main, load_pickle_data, load_data.
  split; [|split].
  - by destruct movie_list, similarity.
  - by destruct movie_list, similarity.
  - intros md sim -> -> Hmd Hne.
    assert (∀ t, t ∈ titles (main fits md sim db).2 ↔
                 t ∈ titles db ∨ t ∈ row_title <$> md) as Htitles.
    { intros t. unfold titles at 1. rewrite main_movies_any.
      rewrite (migrate_movies_accepted fits md db Hmd). simpl.
      apply foldl_accept_step_titles. }
    split.
    { unfold main. by rewrite (migrate_movies_accepted fits md db Hmd). }
    unfold get_movies, order_by_title.
    destruct (stable_sort _ (movies (main fits md sim db).2))
      as [|m ms] eqn:Hs.
    + apply stable_sort_nil in Hs.
      assert (∃ t, t ∈ row_title <$> md) as [t Ht].
      { destruct md as [|row md']; [done|]. exists (row_title row). by left. }
      assert (t ∈ titles (main fits md sim db).2) as Hin
        by (apply Htitles; by right).
      unfold titles in Hin. rewrite Hs in Hin. by apply elem_of_nil in Hin.
    + cbv zeta. eexists _, _. split; [done|]. intros t.
      rewrite <-Htitles. unfold titles.
      by rewrite <-Hs, stable_sort_Permutation.
Qed.

Lemma migrate_data_main_outcome_witness :
  (migrate_data_main int32 (Some line_catalog) (Some line_matrix)
     (ingested int32 twin_catalog)).1 = true ∧
  ∃ ms n,
    get_movies String.ltb (load_data None None)
      (migrate_data_main int32 (Some line_catalog) (Some line_matrix)
         (ingested int32 twin_catalog)).2 =
      MovieList ms n FromDatabase ∧
    ∀ t, t ∈ ms ↔
         t ∈ titles (ingested int32 twin_catalog) ∨
         t ∈ row_title <$> line_catalog.
Proof.
  apply (proj2 (proj2 (migrate_data_main_outcome String.ltb
           (load_data None None) int32 (Some line_catalog)
           (Some line_matrix) (ingested int32 twin_catalog)))
           line_catalog line_matrix); [done|done| |done].
  split; [by apply (bool_decide_unpack _); vm_compute|].
  split; [by apply (bool_decide_unpack _); vm_compute|].
  repeat constructor; intros z [= <-];
    by apply (bool_decide_unpack _); vm_compute.
Defined.

(** The script fails with both pickles read: the keys of the second
    catalog are those of the movies already stored, every insert is
    refused, and the database is left as it was. *)
Example script_fails_on_stored_keys :
  migrate_data_main int32 (Some twin_catalog) (Some twin_matrix)
    (main int32 toy_catalog toy_matrix empty_db).2 =
  (false, (main int32 toy_catalog toy_matrix empty_db).2) ∧
  data_loaded (load_data (Some twin_catalog) (Some twin_matrix)) = true.
Proof. split; [by vm_compute|done]. Qed.

(** ** The sample dataset *)

(** X27: from the sample dataset to the [movies] table.  For entries of
    pairwise distinct titles and ids that fit the columns of the storage
    engine, the migration into an empty database stores the [i]-th entry
    under the identifier [i + 1] with its title and its id as TMDB id;
    the genre and the overview are stored only as their concatenation in
    [tags], and the columns [genre] and [overview] are empty. *)
Theorem sample_dataset_ingested (fits : CatalogRow → bool)
    (movies_data : list RawMovie) (sim : Matrix) (i : nat) (m : RawMovie) :
  NoDup (raw_title <$> movies_data) →
  NoDup (raw_id <$> movies_data) →
  Forall (λ row, fits row = true) (create_movie_dataset movies_data) →
  movies_data !! i = Some m →
  movie_by_id (main fits (create_movie_dataset movies_data) sim empty_db).2
    (S i) =
    Some {| movie_id := S i;
            tmdb_id := Some (raw_id m);
            movie_title := raw_title m;
            genre := "";
            overview := "";
            tags := String.append (raw_genre m) (raw_overview m) |}.
Proof.
  intros Hnd Hids Hcol Hi.
  assert (NoDup (row_title <$> create_movie_dataset movies_data)) as Hnd'.
  { unfold create_movie_dataset. by rewrite <-list_fmap_compose. }
  assert (NoDup (omap row_id (create_movie_dataset movies_data))) as Hkeys.
  { unfold create_movie_dataset.
    replace (omap row_id _) with (raw_id <$> movies_data); [done|].
    clear. induction movies_data as [|x l IH]; [done|].
    simpl. f_equal. exact IH. }
  pose proof (main_movies_any fits (create_movie_dataset movies_data) sim
                empty_db) as Hm.
  fold (ingested fits (create_movie_dataset movies_data)) in Hm.
  rewrite (movie_by_id_ingested fits _ Hnd' Hcol Hkeys _ i
    {| row_id := Some (raw_id m); row_title := raw_title m;
       row_tags := String.append (raw_genre m) (raw_overview m) |} Hm); [done|].
  unfold create_movie_dataset. by rewrite list_lookup_fmap, Hi.
Qed.

Lemma sample_dataset_ingested_witness :
  movie_by_id
    (main int32
       (create_movie_dataset
          [ {| raw_id := 278; raw_title := "The Shawshank Redemption";
               raw_genre := "Drama,Crime"; raw_overview := "Framed" |};
            {| raw_id := 238; raw_title := "The Godfather";
               raw_genre := "Drama,Crime"; raw_overview := "Spanning" |} ])
       toy_matrix empty_db).2 2 =
    Some {| movie_id := 2;
            tmdb_id := Some 238%Z;
            movie_title := "The Godfather";
            genre := "";
            overview := "";
            tags := "Drama,CrimeSpanning" |}.
Proof.
  apply (sample_dataset_ingested int32
           [ {| raw_id := 278; raw_title := "The Shawshank Redemption";
                raw_genre := "Drama,Crime"; raw_overview := "Framed" |};
             {| raw_id := 238; raw_title := "The Godfather";
                raw_genre := "Drama,Crime"; raw_overview := "Spanning" |} ]
           toy_matrix 1
           {| raw_id := 238; raw_title := "The Godfather";
              raw_genre := "Drama,Crime"; raw_overview := "Spanning" |}).
  - by apply (bool_decide_unpack _); vm_compute.
  - by apply (bool_decide_unpack _); vm_compute.
  - by apply (bool_decide_unpack _); vm_compute.
  - reflexivity.
Defined.
